(** * Spotify artist collaboration dashboards: the data pipeline, verified

    A shallow embedding of the data-preparation core of [Scripts/2d-app.py]
    and [Scripts/3d-app.py]: the record loader ([load_data]), the genre
    classifier ([map_to_top_genres]), the chart-hit expander
    ([expand_chart_hits]), the analytical dataset builder
    ([prepare_cleaned_data]), the graph engine ([setup_network]) and the
    element builders ([create_network_elements], [create_3d_network]).

    Modelling conventions.
    - Python [str] values are Rocq strings; the model covers ASCII text.
    - A Python call either returns or raises: [outcome] has a constructor
      for each, and a third one, [Unmodelled], for inputs of the builtins
      [eval] and [ast.literal_eval] outside the fragment evaluated here.
    - A pandas data frame is the list of its rows; a column that may hold
      NaN has an option type, [None] being NaN.
    - The integer columns are [int64] columns: their cells are taken to fit
      64 bits, and sums and differences of cells wrap.
    - A [float64] is a binary64 number of IEEE 754 ([SpecFloat]); the
      quantiles and the fences of stage 5 are computed with its operations.
      The mean and the deviation of stage 7 and the genre means are computed
      over exact rationals. *)

From Stdlib Require Import ZArith QArith Qround Ascii String List Permutation Sorted Lia.
From Stdlib Require Import SpecFloat.
From stdpp Require Import gmap strings list sets.

Open Scope string_scope.
Open Scope list_scope.
Open Scope nat_scope.

(* ===================================================================== *)
(** * Part I. Definitions                                                 *)
(* ===================================================================== *)

(** ** Python calls that may raise *)

Inductive exn : Type :=
| SyntaxError
| ValueError
| IndexError
| KeyError
| TypeError.

Inductive outcome (A : Type) : Type :=
| Ok (a : A)
| Raise (e : exn)
| Unmodelled.

Arguments Ok {A} a.
Arguments Raise {A} e.
Arguments Unmodelled {A}.

#[global] Instance outcome_ret : MRet outcome := λ A a, Ok a.

#[global] Instance outcome_bind : MBind outcome := λ A B k m,
  match m with
  | Ok a => k a
  | Raise e => Raise e
  | Unmodelled => Unmodelled
  end.

#[global] Instance outcome_fmap : FMap outcome := λ A B f m,
  match m with
  | Ok a => Ok (f a)
  | Raise e => Raise e
  | Unmodelled => Unmodelled
  end.

(** A loop whose body may raise: the first exception leaves the loop. *)
Fixpoint for_each {A B : Type} (f : A → outcome B) (l : list A) : outcome (list B) :=
  match l with
  | [] => Ok []
  | x :: l' => y ← f x ; ys ← for_each f l' ; Ok (y :: ys)
  end.

(** ** Python string methods (ASCII) *)

Module PyStr.

Definition code (c : ascii) : nat := nat_of_ascii c.

Definition is_upper (c : ascii) : bool := (65 <=? code c) && (code c <=? 90).

Definition lower_char (c : ascii) : ascii :=
  if is_upper c then ascii_of_nat (code c + 32) else c.

(** [s.lower()] *)
Fixpoint lower (s : string) : string :=
  match s with
  | EmptyString => EmptyString
  | String c s' => String (lower_char c) (lower s')
  end.

(** [sub in s] *)
Fixpoint contains (sub s : string) : bool :=
  String.prefix sub s ||
  match s with
  | EmptyString => false
  | String _ s' => contains sub s'
  end.

(** the characters [str.isspace] accepts *)
Definition is_space (c : ascii) : bool :=
  ((9 <=? code c) && (code c <=? 13)) || ((28 <=? code c) && (code c <=? 32)).

Definition is_empty (s : string) : bool :=
  match s with EmptyString => true | _ => false end.

Fixpoint lstrip (p : ascii → bool) (s : string) : string :=
  match s with
  | EmptyString => EmptyString
  | String c s' => if p c then lstrip p s' else s
  end.

Fixpoint rstrip (p : ascii → bool) (s : string) : string :=
  match s with
  | EmptyString => EmptyString
  | String c s' =>
      let r := rstrip p s' in
      if p c && is_empty r then EmptyString else String c r
  end.

(** [s.strip()] with [p := is_space], [s.strip(chars)] with [p := in_chars chars] *)
Definition strip (p : ascii → bool) (s : string) : string := rstrip p (lstrip p s).

Fixpoint in_chars (chars : string) (c : ascii) : bool :=
  match chars with
  | EmptyString => false
  | String d chars' => Ascii.eqb c d || in_chars chars' c
  end.

(** [s.split(sep)] for a one-character separator *)
Fixpoint split_on (sep : ascii) (s : string) : list string :=
  match s with
  | EmptyString => [EmptyString]
  | String c s' =>
      if Ascii.eqb c sep then EmptyString :: split_on sep s'
      else match split_on sep s' with
           | [] => [String c EmptyString]
           | w :: ws => String c w :: ws
           end
  end.

(** [s.split()]: the maximal runs of non-space characters *)
Fixpoint split (s : string) : list string :=
  match s with
  | EmptyString => []
  | String c s' =>
      if is_space c then split s'
      else match s' with
           | EmptyString => [String c EmptyString]
           | String c' _ =>
               if is_space c' then String c EmptyString :: split s'
               else match split s' with
                    | [] => [String c EmptyString]
                    | w :: ws => String c w :: ws
                    end
           end
  end.

(** [s.replace(c, '')] for a one-character [c] *)
Fixpoint remove_char (c : ascii) (s : string) : string :=
  match s with
  | EmptyString => EmptyString
  | String d s' => if Ascii.eqb d c then remove_char c s' else String d (remove_char c s')
  end.

Definition digit_of (c : ascii) : option Z :=
  if (48 <=? code c) && (code c <=? 57) then Some (Z.of_nat (code c - 48)) else None.

(** digits, single underscores allowed between two digits *)
Fixpoint int_digits (acc : Z) (after_digit : bool) (s : string) : option Z :=
  match s with
  | EmptyString => if after_digit then Some acc else None
  | String c s' =>
      match digit_of c with
      | Some d => int_digits (10 * acc + d) true s'
      | None =>
          if Ascii.eqb c "_" && after_digit then int_digits acc false s' else None
      end
  end.

(** [int(s)] in base ten; [None] is the [ValueError] *)
Definition int (s : string) : option Z :=
  match strip is_space s with
  | String "+" s' => int_digits 0 false s'
  | String "-" s' => Z.opp <$> int_digits 0 false s'
  | s' => int_digits 0 false s'
  end.

End PyStr.

(** ** The list displays [eval] and [ast.literal_eval] are run on

    The fragment: an opening bracket at the first character, string
    literals in single or double quotes made of printable ASCII characters
    other than the backslash, separated by commas, blanks (space, tab)
    between the tokens, an optional trailing comma, the closing bracket,
    trailing blanks.  Reaching the end of the text inside the brackets or
    inside a literal is a [SyntaxError]; a character the fragment has no
    rule for makes the text [Unmodelled]. *)

Module ListLiteral.

Inductive state : Type :=
| Start                               (* nothing read *)
| Opened                              (* after the bracket, no element yet *)
| InLiteral (q : ascii) (acc : string) (* inside a literal quoted by q *)
| AfterElem                           (* after a literal *)
| AfterComma                          (* after a comma *)
| Closed.                             (* after the closing bracket *)

Definition is_blank (c : ascii) : bool := Ascii.eqb c " " || Ascii.eqb c "009".

Definition is_quote (c : ascii) : bool := Ascii.eqb c "'" || Ascii.eqb c "034".

Definition is_plain (c : ascii) : bool :=
  (32 <=? PyStr.code c) && (PyStr.code c <=? 126) && negb (Ascii.eqb c "\").

(** [acc] and [items] grow at their ends, as the literals are read. *)
Fixpoint run (st : state) (items : list string) (s : string) : outcome (list string) :=
  match s with
  | EmptyString =>
      match st with
      | Closed => Ok items
      | Start => Unmodelled
      | _ => Raise SyntaxError
      end
  | String c s' =>
      match st with
      | Start => if Ascii.eqb c "[" then run Opened items s' else Unmodelled
      | Opened =>
          if is_blank c then run Opened items s'
          else if is_quote c then run (InLiteral c EmptyString) items s'
          else if Ascii.eqb c "]" then run Closed items s'
          else Unmodelled
      | InLiteral q acc =>
          if Ascii.eqb c q then run AfterElem (items ++ [acc]) s'
          else if is_plain c then run (InLiteral q (acc +:+ String c EmptyString)) items s'
          else Unmodelled
      | AfterElem =>
          if is_blank c then run AfterElem items s'
          else if Ascii.eqb c "," then run AfterComma items s'
          else if Ascii.eqb c "]" then run Closed items s'
          else Unmodelled
      | AfterComma =>
          if is_blank c then run AfterComma items s'
          else if is_quote c then run (InLiteral c EmptyString) items s'
          else if Ascii.eqb c "]" then run Closed items s'
          else Unmodelled
      | Closed => if is_blank c then run Closed items s' else Unmodelled
      end
  end.

Definition parse (s : string) : outcome (list string) := run Start [] s.

(** What [repr] prints for a list of strings that need no escaping. *)
Definition quoted (s : string) : string := "'" +:+ s +:+ "'".

Fixpoint join (sep : string) (l : list string) : string :=
  match l with
  | [] => EmptyString
  | [s] => s
  | s :: l' => s +:+ sep +:+ join sep l'
  end.

Definition repr (l : list string) : string := "[" +:+ join ", " (map quoted l) +:+ "]".

Fixpoint all_chars (p : ascii → bool) (s : string) : bool :=
  match s with
  | EmptyString => true
  | String c s' => p c && all_chars p s'
  end.

(** a string whose [repr] is the string itself between single quotes *)
Definition plain (s : string) : bool :=
  all_chars (λ c, is_plain c && negb (Ascii.eqb c "'")) s.

End ListLiteral.

(** [eval(x)] and [ast.literal_eval(x)] agree on the fragment. *)
Definition py_eval (x : string) : outcome (list string) := ListLiteral.parse x.
Definition literal_eval (x : string) : outcome (list string) := ListLiteral.parse x.

(** ** Record Loader *)

(** A cell as [pd.read_csv] delivers it: a string, a number, or NaN where
    the field is empty. *)
Inductive cell : Type :=
| CStr (s : string)
| CNum (x : Q)
| CNaN.

(** [lambda x: eval(x) if isinstance(x, str) else []] *)
Definition load_genres (x : cell) : outcome (list string) :=
  match x with
  | CStr s => py_eval s
  | CNum _ | CNaN => Ok []
  end.

(** A row of [nodes.csv] as read. *)
Record raw_artist : Type := RawArtist {
  raw_spotify_id : string;
  raw_name : string;
  raw_followers : Z;
  raw_popularity : Z;
  raw_genres : cell;
  raw_chart_hits : cell
}.

(** A row of [nodes_df] once [load_data] has converted the [genres] column. *)
Record artist : Type := Artist {
  spotify_id : string;
  name : string;
  followers : Z;
  popularity : Z;
  genres : list string;
  chart_hits : cell
}.

(** A row of [edges.csv]: the columns [id_0], [id_1]. *)
Definition edge : Type := (string * string)%type.

Definition load_artist (r : raw_artist) : outcome artist :=
  g ← load_genres (raw_genres r) ;
  Ok (Artist (raw_spotify_id r) (raw_name r) (raw_followers r) (raw_popularity r)
             g (raw_chart_hits r)).

(** [Series.apply] stops at the first row whose conversion raises. *)
Definition load_data (rows : list raw_artist) : outcome (list artist) :=
  for_each load_artist rows.

(** ** Genre Classifier *)

Definition top_genres : list (string * list string) :=
  [ ("pop", ["pop"; "k-pop"; "j-pop"; "cantopop"; "mandopop"; "synthpop"; "electropop"]);
    ("rock", ["rock"; "hard rock"; "punk rock"; "alternative rock"; "indie rock"; "classic rock"]);
    ("hip-hop", ["hip hop"; "rap"; "trap"; "gangsta rap"; "alternative hip hop"]);
    ("edm", ["edm"; "electronic"; "house"; "techno"; "dubstep"; "trance"]);
    ("r&b", ["r&b"; "soul"; "neo soul"; "funk"]);
    ("country", ["country"; "country pop"; "outlaw country"]);
    ("jazz", ["jazz"; "bebop"; "swing"; "cool jazz"; "fusion"]);
    ("classical", ["classical"; "orchestral"; "chamber music"; "baroque"; "romantic"; "symphony"]);
    ("latin", ["latin"; "reggaeton"; "salsa"; "bachata"; "latin pop"]);
    ("reggae", ["reggae"; "dub"; "dancehall"]) ].

(** The argument of [map_to_top_genres]: a string, a list, or anything else. *)
Inductive genres_value : Type :=
| GStr (s : string)
| GList (l : list string)
| GOther.

(** [any(sub in genre.lower() for sub in subgenres)] *)
Definition any_sub (subgenres : list string) (genre : string) : bool :=
  existsb (λ sub, PyStr.contains sub (PyStr.lower genre)) subgenres.

(** the inner loop over [self.top_genres.items()] *)
Definition add_matches (taxonomy : list (string * list string))
    (mapped : gset string) (genre : string) : gset string :=
  foldl (λ acc entry, if any_sub entry.2 genre then acc ∪ {[ entry.1 ]} else acc)
        mapped taxonomy.

Definition mapped_genres (taxonomy : list (string * list string))
    (genre_list : list string) : gset string :=
  foldl (add_matches taxonomy) ∅ genre_list.

Definition genre_list_of_str (genre_str : string) : list string :=
  map (λ g, PyStr.strip (PyStr.in_chars "'") (PyStr.strip PyStr.is_space g))
      (PyStr.split_on "," (PyStr.strip (PyStr.in_chars "[]") genre_str)).

(** [list(mapped_genres)]: the members of the set, each once. *)
Definition map_to_top_genres_with (taxonomy : list (string * list string))
    (v : genres_value) : list string :=
  match v with
  | GStr s => elements (mapped_genres taxonomy (genre_list_of_str s))
  | GList l => elements (mapped_genres taxonomy l)
  | GOther => []
  end.

Definition map_to_top_genres : genres_value → list string :=
  map_to_top_genres_with top_genres.

(** The claim's words: [sub] occurs in [tag], letter case ignored. *)
Definition contains_ci (sub tag : string) : bool :=
  PyStr.contains (PyStr.lower sub) (PyStr.lower tag).

(** ** Chart-Hit Expander *)

Record hit : Type := Hit {
  country_code : string;
  hit_number : Z
}.

(** What [print] writes: the message carries the exception caught. *)
Inductive log_entry : Type :=
| ErrorProcessingChartHits (e : exn).

(** [country, hit_number = entry.replace('(', '').replace(')', '').split()]
    then [int(hit_number)]; the unpacking and [int] both raise [ValueError]. *)
Definition parse_entry (entry : string) : outcome hit :=
  match PyStr.split (PyStr.remove_char ")" (PyStr.remove_char "(" entry)) with
  | [country; number] =>
      match PyStr.int number with
      | Some n => Ok (Hit country n)
      | None => Raise ValueError
      end
  | _ => Raise ValueError
  end.

(** the body of the [try] block *)
Definition expand_entries (chart_hits_str : string) : outcome (list hit) :=
  chart_hits ← literal_eval chart_hits_str ;
  for_each parse_entry chart_hits.

(** [expand_chart_hits]: the list returned and the lines printed.
    ([ast.literal_eval] of a number raises [ValueError].) *)
Definition expand_chart_hits (chart_hits_str : cell) : outcome (list hit * list log_entry) :=
  match chart_hits_str with
  | CNaN => Ok ([], [])
  | CNum _ => Ok ([], [ErrorProcessingChartHits ValueError])
  | CStr s =>
      if String.eqb s "[]" then Ok ([], [])
      else match expand_entries s with
           | Ok expanded => Ok (expanded, [])
           | Raise e => Ok ([], [ErrorProcessingChartHits e])
           | Unmodelled => Unmodelled
           end
  end.

(** ** 64-bit numbers *)

(** What an [int64] operation leaves of its exact result: the 64 low bits,
    read in two's complement. *)
Definition wrap64 (z : Z) : Z := ((z + 2 ^ 63) mod 2 ^ 64 - 2 ^ 63)%Z.

Definition is_int64 (z : Z) : bool := (- 2 ^ 63 <=? z)%Z && (z <? 2 ^ 63)%Z.

Module Float64.

Definition prec : Z := 53.
Definition emax : Z := 1024.

(** The conversion of an integer, to the nearest float. *)
Definition of_Z (z : Z) : spec_float := binary_normalize prec emax z 0 false.

Definition add : spec_float → spec_float → spec_float := SFadd prec emax.
Definition sub : spec_float → spec_float → spec_float := SFsub prec emax.
Definition mul : spec_float → spec_float → spec_float := SFmul prec emax.
Definition div : spec_float → spec_float → spec_float := SFdiv prec emax.

(** The float a decimal literal denotes, the literal being the quotient of
    two integers that are floats themselves: [0.025] is [of_ratio 25 1000]. *)
Definition of_ratio (n d : Z) : spec_float := div (of_Z n) (of_Z d).

(** [x < y], [x <= y], [x >= y]: false as soon as one side is NaN. *)
Definition lt (x y : spec_float) : bool := SFltb x y.
Definition le (x y : spec_float) : bool := SFleb x y.
Definition ge (x y : spec_float) : bool := SFleb y x.

Definition is_finite (x : spec_float) : bool :=
  match x with
  | S754_zero _ | S754_finite _ _ _ => true
  | S754_infinity _ | S754_nan => false
  end.

(** [np.floor(x)] as an integer, for a finite [x]; also the integer an
    integral float is. *)
Definition floor (x : spec_float) : Z :=
  match x with
  | S754_finite s m e =>
      let z := cond_Zopp s (Zpos m) in
      if (e <? 0)%Z then (z / 2 ^ (- e))%Z else (z * 2 ^ e)%Z
  | _ => 0%Z
  end.

(** An [int64] cell once its column has become [float64]. *)
Definition of_int64_column (z : Z) : Z := floor (of_Z z).

End Float64.

(** ** Data-frame operations *)

(** Insertion before the first row [y] with [before x y]. *)
Fixpoint insert_row {A : Type} (before : A → A → bool) (x : A) (l : list A) : list A :=
  match l with
  | [] => [x]
  | y :: l' => if before x y then x :: l else y :: insert_row before x l'
  end.

Definition sort_rows {A : Type} (before : A → A → bool) (l : list A) : list A :=
  foldr (insert_row before) [] l.

(** Rows by decreasing key, rows of equal key in the order they had: the
    order of [nlargest] and of [sorted(..., reverse=True)].  For
    [sort_values(by=key, ascending=False)] pandas leaves the order of rows
    of equal key open; one such order is taken. *)
Definition sort_desc {A : Type} (key : A → Z) (l : list A) : list A :=
  sort_rows (λ x y, (key y <=? key x)%Z) l.

Definition sort_asc (l : list Z) : list Z := sort_rows Z.leb l.

(** [df.nlargest(n, key)] *)
Definition nlargest {A : Type} (n : nat) (key : A → Z) (l : list A) : list A :=
  take n (sort_desc key l).

(** [left.merge(right, on=key, how='left')]: every left row, once per right
    row of the same key, and once with NaN when there is none. *)
Definition merge_left {L R : Type} (key : L → string) (right : list (string * R))
    (left : list L) : list (L * option R) :=
  flat_map (λ row,
    match filter (λ kv, kv.1 = key row) right with
    | [] => [(row, None)]
    | matches => map (λ kv, (row, Some kv.2)) matches
    end) left.

Definition sum_Z (l : list Z) : Z := foldr Z.add 0%Z l.

Definition sum_Q (l : list Q) : Q := foldr Qplus 0%Q l.

(** [Series.nunique()] *)
Definition nunique (l : list string) : nat := length (remove_dups l).

(** [arr[i]], a negative [i] counting from the end. *)
Definition at_index (arr : list Z) (i : Z) (default : Z) : Z :=
  nth (Z.to_nat (if (i <? 0)%Z then Z.of_nat (length arr) + i else i)%Z) arr default.

(** numpy's [_lerp(a, b, t)] on two cells of an [int64] array: the
    difference is an [int64], the rest is [float64];
    [a + (b - a) * t], and [b - (b - a) * (1 - t)] where [t >= 0.5]. *)
Definition lerp (a b : Z) (t : spec_float) : spec_float :=
  let diff_b_a := Float64.of_Z (wrap64 (b - a)) in
  if Float64.ge t (Float64.of_ratio 1 2)
  then Float64.sub (Float64.of_Z b) (Float64.mul diff_b_a (Float64.sub (Float64.of_Z 1) t))
  else Float64.add (Float64.of_Z a) (Float64.mul diff_b_a t).

(** The index [(n - 1) * q] of the quantile in the sorted column, a float:
    pandas hands [q * 100.0] to [np.percentile], which divides it by 100. *)
Definition virtual_index (q : spec_float) (values_count : Z) : spec_float :=
  let quantiles := Float64.div (Float64.mul q (Float64.of_Z 100)) (Float64.of_Z 100) in
  Float64.mul (Float64.of_Z (values_count - 1)) quantiles.

(** numpy's [_get_indexes]: the indexes of the two cells around the
    virtual index, both [-1] (the last cell) when it is not below [n - 1]. *)
Definition get_indexes (virtual_index : spec_float) (values_count : Z) : Z * Z :=
  if Float64.ge virtual_index (Float64.of_Z (values_count - 1)) then (-1, -1)%Z
  else if Float64.lt virtual_index (Float64.of_Z 0) then (0, 0)%Z
  else (Float64.floor virtual_index, Float64.floor virtual_index + 1)%Z.

(** numpy's [_get_gamma] *)
Definition get_gamma (virtual_index : spec_float) (previous_index : Z) : spec_float :=
  Float64.sub virtual_index (Float64.of_Z previous_index).

(** [Series.quantile(q)] of an [int64] column, for [0 <= q <= 1] (pandas
    refuses another [q]) and linear interpolation, as numpy's [_quantile]
    computes it; NaN on an empty column. *)
Definition quantile (q : spec_float) (column : list Z) : spec_float :=
  match sort_asc column with
  | [] => S754_nan
  | (x0 :: _) as arr =>
      let values_count := Z.of_nat (length arr) in
      let virtual_index := virtual_index q values_count in
      let '(previous_index, next_index) := get_indexes virtual_index values_count in
      let gamma := get_gamma virtual_index previous_index in
      lerp (at_index arr previous_index x0) (at_index arr next_index x0) gamma
  end.

(** [Series.mean()]; NaN on an empty column. *)
Definition mean (column : list Q) : option Q :=
  match column with
  | [] => None
  | _ => Some (sum_Q column / inject_Z (Z.of_nat (length column)))%Q
  end.

(** The square of [Series.std()] (one degree of freedom removed); NaN for
    fewer than two rows. *)
Definition variance (column : list Q) : option Q :=
  match column with
  | [] | [_] => None
  | _ =>
      m ← mean column ;
      Some (sum_Q (map (λ x, (x - m) * (x - m))%Q column)
            / inject_Z (Z.of_nat (length column - 1)))%Q
  end.

(** How often each value stands in a column. *)
Definition count_values (l : list string) : gmap string nat :=
  foldl (λ m x, <[ x := S (default 0 (m !! x)) ]> m) ∅ l.

(** The distinct values of a column, in the order they first appear. *)
Definition unique (l : list string) : list string :=
  reverse (remove_dups (reverse l)).

(** [Series.value_counts()]: a count per distinct value, largest first,
    values of equal count in the order they first appear. *)
Definition value_counts (l : list string) : list (string * nat) :=
  sort_desc (λ kv, Z.of_nat kv.2)
            (map (λ x, (x, default 0 (count_values l !! x))) (unique l)).

(** ** Analytical Dataset Builder *)

Record classified : Type := Classified {
  base : artist;
  cleaned_genres : list string;
  genre_count : nat
}.

Record expanded_hit : Type := ExpandedHit {
  eh_spotify_id : string;
  eh_country_code : string;
  eh_hit_number : Z
}.

Record with_hits : Type := WithHits {
  classified_row : classified;
  total_hits : option Z;
  num_countries : option nat
}.

Record with_collabs : Type := WithCollabs {
  hits_row : with_hits;
  collab_count : nat
}.

Definition id_of_classified (r : classified) : string := spotify_id (base r).
Definition id_of_hits (r : with_hits) : string := id_of_classified (classified_row r).
Definition followers_of (r : with_hits) : Z := followers (base (classified_row r)).
Definition popularity_of (r : with_hits) : Z := popularity (base (classified_row r)).
Definition genres_of (r : with_collabs) : list string :=
  cleaned_genres (classified_row (hits_row r)).

(** stage 1.  [read_csv] gives the columns of a file without rows the dtype
    [object], for which [nlargest] raises [TypeError]. *)
Definition select_top (nodes_df : list artist) : outcome (list artist) :=
  match nodes_df with
  | [] => Raise TypeError
  | _ => Ok (nlargest 100 popularity nodes_df)
  end.

(** stage 2 *)
Definition apply_genre_mapping (top_artists : list artist) : list classified :=
  let mapped := map (λ a, (a, map_to_top_genres (GList (genres a)))) top_artists in
  let kept := filter (λ ag, 0 < length ag.2) mapped in
  map (λ ag, Classified ag.1 ag.2 (length ag.2)) kept.

(** the loop over [top_artists.iterrows()] *)
Definition expand_row (row : classified) : outcome (list expanded_hit * list log_entry) :=
  '(chart_data, printed) ← expand_chart_hits (chart_hits (base row)) ;
  Ok (map (λ h, ExpandedHit (id_of_classified row) (country_code h) (hit_number h)) chart_data,
      printed).

Fixpoint process_chart_hits (rows : list classified)
    : outcome (list expanded_hit * list log_entry) :=
  match rows with
  | [] => Ok ([], [])
  | row :: rows' =>
      '(hits, printed) ← expand_row row ;
      '(hits', printed') ← process_chart_hits rows' ;
      Ok (hits ++ hits', printed ++ printed')
  end.

Definition hits_of (id : string) (expanded_hits : list expanded_hit) : list expanded_hit :=
  filter (λ h, eh_spotify_id h = id) expanded_hits.

(** [groupby('spotify_id').agg(total_hits=sum, num_countries=nunique)].  A
    frame built from an empty list has no [spotify_id] column to group by.
    The column [hit_number] is [int64] when every number fits 64 bits, and
    the sum of a group wraps; a frame with a larger number is not modelled.
    (pandas orders the groups by key; the left join does not look at it.) *)
Definition group_hits (expanded_hits : list expanded_hit) : outcome (list (string * (Z * nat))) :=
  match expanded_hits with
  | [] => Raise KeyError
  | _ =>
      if forallb (λ h, is_int64 (eh_hit_number h)) expanded_hits
      then Ok (map (λ id, let group := hits_of id expanded_hits in
                          (id, (wrap64 (sum_Z (map eh_hit_number group)),
                                nunique (map eh_country_code group))))
                   (remove_dups (map eh_spotify_id expanded_hits)))
      else Unmodelled
  end.

(** stage 3: the merge and [dropna(subset=['total_hits', 'num_countries'])].
    As soon as one artist has no aggregate the two joined columns hold NaN
    and become [float64]: a total is then the float nearest to it.  (A
    count of countries is far below [2 ^ 53] and is the float it becomes.) *)
Definition merge_hits (grouped_hits : list (string * (Z * nat)))
    (top_artists : list classified) : list with_hits :=
  let joined := merge_left id_of_classified grouped_hits top_artists in
  let stored : Z → Z :=
    if forallb (λ rv : classified * option (Z * nat), bool_decide (is_Some rv.2)) joined
    then id else Float64.of_int64_column in
  map (λ rv, WithHits rv.1 (stored <$> (fst <$> rv.2)) (snd <$> rv.2)) joined.

Definition dropna_hits (top_artists : list with_hits) : list with_hits :=
  filter (λ r, is_Some (total_hits r) ∧ is_Some (num_countries r)) top_artists.

(** stage 4 *)
Definition resort (top_artists : list with_hits) : list with_hits :=
  take 100 (sort_desc popularity_of top_artists).

(** stage 5: [Q1], [Q3], [IQR], and the two bounds *)
Definition tukey_bounds (column : list Z) : spec_float * spec_float :=
  let Q1 := quantile (Float64.of_ratio 25 1000) column in
  let Q3 := quantile (Float64.of_ratio 975 1000) column in
  let IQR := Float64.sub Q3 Q1 in
  (Float64.sub Q1 (Float64.mul (Float64.of_ratio 3 2) IQR),
   Float64.add Q3 (Float64.mul (Float64.of_ratio 3 2) IQR)).

(** [(v >= lower_bound) & (v <= upper_bound)], the [int64] cell [v] being
    converted for the comparison; false against NaN *)
Definition within_bounds (bounds : spec_float * spec_float) (v : Z) : bool :=
  Float64.ge (Float64.of_Z v) bounds.1 && Float64.le (Float64.of_Z v) bounds.2.

Definition remove_outliers (column : with_hits → Z) (top_artists : list with_hits)
    : list with_hits :=
  let bounds := tukey_bounds (map column top_artists) in
  filter (λ r, within_bounds bounds (column r)) top_artists.

Definition remove_all_outliers (top_artists : list with_hits) : list with_hits :=
  foldl (λ df column, remove_outliers column df) top_artists [followers_of; popularity_of].

(** stage 6 *)
Definition artist_collabs (edges_df : list edge) : list (string * nat) :=
  value_counts (map fst edges_df ++ map snd edges_df).

Definition merge_collabs (edges_df : list edge) (top_artists : list with_hits)
    : list with_collabs :=
  map (λ rv, WithCollabs rv.1 (default 0 rv.2))
      (merge_left id_of_hits (artist_collabs edges_df) top_artists).

(** stage 7.  [c >= m - 2*std] and [c <= m + 2*std] with [std] the root of
    the variance [v], decided on the squares. *)
Definition ge_mean_minus_2std (c m v : Q) : bool :=
  Qle_bool (m - c) 0 || Qle_bool ((m - c) * (m - c)) (4 * v).

Definition le_mean_plus_2std (c m v : Q) : bool :=
  Qle_bool (c - m) 0 || Qle_bool ((c - m) * (c - m)) (4 * v).

Definition collab_Q (r : with_collabs) : Q := inject_Z (Z.of_nat (collab_count r)).

(** false as soon as the mean or the deviation is NaN *)
Definition within_2std (m v : option Q) (c : Q) : bool :=
  match m, v with
  | Some m, Some v => ge_mean_minus_2std c m v && le_mean_plus_2std c m v
  | _, _ => false
  end.

Definition remove_collab_outliers (df : list with_collabs) : list with_collabs :=
  let mean_collabs := mean (map collab_Q df) in
  let var_collabs := variance (map collab_Q df) in
  filter (λ r, within_2std mean_collabs var_collabs (collab_Q r)) df.

(** The frames the variable [top_artists] goes through, and what was printed. *)
Record stages : Type := Stages {
  stage1 : list artist;
  stage2 : list classified;
  printed : list log_entry;
  stage3 : list with_hits;
  stage4 : list with_hits;
  stage5 : list with_hits;
  stage6 : list with_collabs;
  stage7 : list with_collabs
}.

Definition run_stages (nodes_df : list artist) (edges_df : list edge) : outcome stages :=
  s1 ← select_top nodes_df ;
  let s2 := apply_genre_mapping s1 in
  '(expanded_hits, log) ← process_chart_hits s2 ;
  grouped_hits ← group_hits expanded_hits ;
  let s3 := dropna_hits (merge_hits grouped_hits s2) in
  let s4 := resort s3 in
  let s5 := remove_all_outliers s4 in
  let s6 := merge_collabs edges_df s5 in
  let s7 := remove_collab_outliers s6 in
  Ok (Stages s1 s2 log s3 s4 s5 s6 s7).

Definition prepare_cleaned_data (nodes_df : list artist) (edges_df : list edge)
    : outcome (list with_collabs) :=
  stage7 <$> run_stages nodes_df edges_df.

(** [genre_collaboration_stats]: the rows [(genre, avg_collaborations)]. *)
Definition genre_artists (genre : string) (top_artists_df : list with_collabs)
    : list with_collabs :=
  filter (λ r, genre ∈ genres_of r) top_artists_df.

Definition genre_collaboration_stats (top_artists_df : list with_collabs) : list (string * Q) :=
  map (λ entry,
         let members := genre_artists entry.1 top_artists_df in
         (entry.1, default 0%Q (mean (map collab_Q members))))
      top_genres.

(** ** Graph Engine *)

(** [nx.Graph]: the nodes in insertion order and, per node, its neighbours
    in insertion order, each once. *)
Record graph : Type := Graph {
  nodes : list string;
  adj : gmap string (list string)
}.

Definition empty_graph : graph := Graph [] ∅.

Definition add_node (u : string) (g : graph) : graph :=
  if decide (u ∈ nodes g) then g
  else Graph (nodes g ++ [u]) (<[ u := [] ]> (adj g)).

(** [self._adj[u][v] = datadict] *)
Definition add_neighbour (u v : string) (g : graph) : graph :=
  Graph (nodes g)
        (alter (λ nbrs, if decide (v ∈ nbrs) then nbrs else nbrs ++ [v]) u (adj g)).

Definition add_edge (g : graph) (e : edge) : graph :=
  add_neighbour e.2 e.1 (add_neighbour e.1 e.2 (add_node e.2 (add_node e.1 g))).

Definition from_pandas_edgelist (edges_df : list edge) : graph :=
  foldl add_edge empty_graph edges_df.

Definition neighbours (g : graph) (n : string) : list string :=
  default [] (adj g !! n).

(** [G.degree()]: [len(nbrs) + (n in nbrs)], a self-loop counts twice. *)
Definition degree (g : graph) (n : string) : nat :=
  let nbrs := neighbours g n in
  length nbrs + (if decide (n ∈ nbrs) then 1 else 0).

(** [dict(self.G.degree())] *)
Definition degree_dict (g : graph) : list (string * nat) :=
  map (λ n, (n, degree g n)) (nodes g).

(** [d[k]] *)
Definition dict_get {V : Type} (d : list (string * V)) (k : string) : outcome V :=
  match filter (λ kv, kv.1 = k) d with
  | [] => Raise KeyError
  | kv :: _ => Ok kv.2
  end.

(** [G.edges()]: every edge once, from its endpoint met first. *)
Fixpoint edges_from (g : graph) (seen : list string) (ns : list string) : list edge :=
  match ns with
  | [] => []
  | n :: ns' =>
      map (λ nbr, (n, nbr)) (filter (λ nbr, nbr ∉ seen) (neighbours g n))
      ++ edges_from g (n :: seen) ns'
  end.

Definition graph_edges (g : graph) : list edge := edges_from g [] (nodes g).

(** The edges [G.edges()] lists with both ends in [node_ids]. *)
Definition subgraph_edges (g : graph) (node_ids : list string) : list edge :=
  filter (λ e, e.1 ∈ node_ids ∧ e.2 ∈ node_ids) (graph_edges g).

(** Iterating over [set(l)].  Python goes through the slots of the hash
    table of the set; the slot a string of [l] lands in depends on the hash
    seed of the process and on the strings put in before it, and is taken as
    given: [slot l x].  (Strings given one slot stay in the order of [l].) *)
Definition set_iter (slot : list string → string → Z) (l : list string) : list string :=
  sort_rows (λ x y, (slot l x <=? slot l y)%Z) (remove_dups l).

(** [G.subgraph(node_ids)], a view of [G]: [nbunch_iter] keeps the
    identifiers that are nodes of [G] and [show_nodes] makes a set of them.
    Iterating over the nodes of the view ([FilterAtlas.__iter__],
    [FilterAdjacency.__iter__]) goes through that set when it has fewer
    than half as many elements as [G] has nodes, and through the nodes of
    [G] otherwise; the neighbours of a node are those it has in [G], in the
    same order, that are in the set. *)
Definition subgraph (slot : list string → string → Z) (g : graph) (node_ids : list string)
    : graph :=
  let shown := set_iter slot (filter (λ n, n ∈ nodes g) node_ids) in
  let sub_nodes :=
    if 2 * length shown <? length (nodes g) then shown
    else filter (λ n, n ∈ shown) (nodes g) in
  Graph sub_nodes
        (list_to_map (map (λ n, (n, filter (λ nbr, nbr ∈ shown) (neighbours g n)))
                          sub_nodes)).

(** The state of [SpotifyNetworkApp] the element builders read. *)
Record app : Type := App {
  nodes_df : list artist;
  edges_df : list edge;
  G : graph;
  degrees : list (string * nat)
}.

Definition setup_network (nodes_df : list artist) (edges_df : list edge) : app :=
  let G := from_pandas_edgelist edges_df in
  App nodes_df edges_df G (degree_dict G).

(** [sorted(self.degrees.items(), key=lambda x: x[1], reverse=True)[:n]] *)
Definition get_top_artists (self : app) (n : nat) : list string :=
  map fst (take n (sort_desc (λ kv, Z.of_nat kv.2) (degrees self))).

(** ** Element builders *)

(** [frame.iloc[0]] *)
Definition iloc0 {A : Type} (frame : list A) : outcome A :=
  match frame with
  | [] => Raise IndexError
  | row :: _ => Ok row
  end.

(** [self.nodes_df[self.nodes_df['spotify_id'] == artist_id].iloc[0]] *)
Definition artist_info (self : app) (artist_id : string) : outcome artist :=
  iloc0 (filter (λ r, spotify_id r = artist_id) (nodes_df self)).

Record node_data : Type := NodeData {
  nd_id : string;
  nd_label : string;
  nd_size : nat;
  nd_followers : Z;
  nd_popularity : Z;
  nd_genres : list string;
  nd_name : string
}.

Inductive element : Type :=
| NodeElement (data : node_data)
| EdgeElement (source target : string).

Definition node_element (self : app) (artist_id : string) : outcome element :=
  info ← artist_info self artist_id ;
  size ← dict_get (degrees self) artist_id ;
  Ok (NodeElement (NodeData artist_id (name info) size (followers info)
                            (popularity info) (genres info) (name info))).

Definition create_network_elements (self : app) (artist_ids : list string)
    : outcome (list element) :=
  node_elements ← for_each (node_element self) artist_ids ;
  Ok (node_elements
      ++ map (λ e, EdgeElement e.1 e.2) (subgraph_edges (G self) artist_ids)).

(** One marker of the 3D nodes trace: where it is, its hover text fields
    (name, followers, popularity), the degree its size is the root of, and
    its colour. *)
Record marker (C : Type) : Type := Marker {
  mk_pos : C;
  mk_text : string * Z * Z;
  mk_size_squared : nat;
  mk_color : Z
}.

Arguments Marker {C} _ _ _ _.

Record figure (C : Type) : Type := Figure {
  edges_trace : list (option C);
  nodes_trace : list (marker C)
}.

Arguments Figure {C} _ _.

Section Layout3D.

(** [spring_layout(subgraph, dim=3)] starts from a random placement; the
    positions it returns are taken as given, and so are the slots of the
    sets of strings ([set_iter]). *)
Context {C : Type} (pos_3d : string → C) (slot : list string → string → Z).

Definition node_marker (self : app) (node : string) : outcome (marker C) :=
  info ← artist_info self node ;
  size ← dict_get (degrees self) node ;
  Ok (Marker (pos_3d node) (name info, followers info, popularity info) size
             (popularity info)).

Definition create_3d_network (self : app) (artist_ids : list string) : outcome (figure C) :=
  let subgraph := subgraph slot (G self) artist_ids in
  let edge_points :=
    flat_map (λ e : edge, [Some (pos_3d e.1); Some (pos_3d e.2); None])
             (graph_edges subgraph) in
  markers ← for_each (node_marker self) (nodes subgraph) ;
  Ok (Figure edge_points markers).

End Layout3D.

(** ** Callbacks *)

(** One [selected_genre] of the genre filter of [update_network], against
    the tags [x] of a row: [self.top_genres[selected_genre]] is looked up
    once per tag, so not at all when the row has no tag. *)
Definition matches_selected (x : list string) (selected_genre : string) : outcome bool :=
  match x with
  | [] => Ok false
  | _ => subgenres ← dict_get top_genres selected_genre ;
         Ok (existsb (any_sub subgenres) x)
  end.

(** [any(... for selected_genre in selected_genres for genre in x)]: the
    first match ends the search. *)
Fixpoint matches_any_selected (selected_genres : list string) (x : list string)
    : outcome bool :=
  match selected_genres with
  | [] => Ok false
  | selected_genre :: rest =>
      found ← matches_selected x selected_genre ;
      if found : bool then Ok true else matches_any_selected rest x
  end.

(** The identifiers [update_network] keeps: popularity in the range and,
    when genres are selected, a tag matching one of them.  When no row is
    in the range, [apply] returns an empty series that is no boolean mask:
    indexing the frame with it selects no column, and
    [filtered_artists['spotify_id']] raises [KeyError]. *)
Definition filtered_artists (self : app) (min_pop max_pop : Z)
    (selected_genres : list string) : outcome (list string) :=
  let in_range :=
    filter (λ r, (min_pop ≤ popularity r)%Z ∧ (popularity r ≤ max_pop)%Z) (nodes_df self) in
  match selected_genres, in_range with
  | [], _ => Ok (map spotify_id in_range)
  | _, [] => Raise KeyError
  | _, _ =>
      flagged ← for_each (λ r, found ← matches_any_selected selected_genres (genres r) ;
                               Ok (r, found)) in_range ;
      Ok (map (λ rf, spotify_id rf.1) (filter (λ rf : artist * bool, rf.2 = true) flagged))
  end.

(** [update_network] of the 2D application *)
Definition update_network (self : app) (n_artists : nat) (min_pop max_pop : Z)
    (selected_genres : list string) : outcome (list element) :=
  kept ← filtered_artists self min_pop max_pop selected_genres ;
  let top_artists := filter (λ a, a ∈ kept) (get_top_artists self n_artists) in
  create_network_elements self top_artists.

(** [update_network] of the 3D application *)
Definition update_network_3d {C : Type} (pos_3d : string → C)
    (slot : list string → string → Z) (self : app) (n_artists : nat) : outcome (figure C) :=
  create_3d_network pos_3d slot self (get_top_artists self n_artists).

(** One bubble trace of [update_artist_rankings]: as many abscissas as
    rows, the positions [range(len(top_20))], the colours and the texts. *)
Record bubbles : Type := Bubbles {
  bubble_x_count : nat;
  bubble_y : list nat;
  bubble_color : list nat;
  bubble_text : list string
}.

Definition name_of (r : with_collabs) : string := name (base (classified_row (hits_row r))).
Definition popularity_of_row (r : with_collabs) : Z := popularity_of (hits_row r).
Definition genre_count_of (r : with_collabs) : nat := genre_count (classified_row (hits_row r)).

Definition update_artist_rankings (top_artists_df : list with_collabs) : bubbles * bubbles :=
  let top_20 := nlargest 20 popularity_of_row top_artists_df in
  let y_positions := seq 0 (length top_20) in
  (Bubbles (length top_20) y_positions (map collab_count top_20) (map name_of top_20),
   Bubbles (length top_20) y_positions (map genre_count_of top_20) (map name_of top_20)).

(** ** The claims' own notions, for comparison with the code *)

(** How often [id] stands in an edge row, both columns counted. *)
Definition appearances (edges_df : list edge) (id : string) : nat :=
  sum_list (map (λ e : edge, (if decide (e.1 = id) then 1 else 0)
                             + (if decide (e.2 = id) then 1 else 0)) edges_df).

(** Two rows are the same collaboration when they join the same two artists. *)
Definition same_pair (e1 e2 : edge) : bool :=
  bool_decide (e1 = e2) || bool_decide (e1 = (e2.2, e2.1)).

(** The edge rows with multiplicity collapsed. *)
Definition collapse (edges_df : list edge) : list edge :=
  foldr (λ e kept, if existsb (same_pair e) kept then kept else e :: kept) [] edges_df.

Definition collapsed_appearances (edges_df : list edge) (id : string) : nat :=
  appearances (collapse edges_df) id.

(** The nodes an edge row joins to [n]. *)
Definition neighbour_set (edges_df : list edge) (n : string) : gset string :=
  list_to_set (flat_map (λ e : edge, (if decide (e.1 = n) then [e.2] else [])
                                     ++ (if decide (e.2 = n) then [e.1] else []))
                        edges_df).



(** An artist, a classified artist and a joined row with the chart-hit cell
    emptied when it holds the text [s]: the artist as the pipeline sees it
    had the list [s] been missing. *)
Definition without_chart_hits (s : string) (a : artist) : artist :=
  match chart_hits a with
  | CStr s' =>
      if String.eqb s' s
      then Artist (spotify_id a) (name a) (followers a) (popularity a) (genres a) CNaN
      else a
  | _ => a
  end.

Definition classified_without (s : string) (c : classified) : classified :=
  Classified (without_chart_hits s (base c)) (cleaned_genres c) (genre_count c).

Definition hits_without (s : string) (w : with_hits) : with_hits :=
  WithHits (classified_without s (classified_row w)) (total_hits w) (num_countries w).



(** ** Notions the proofs use *)

(** An artist's parsed hit as a row of the expanded frame. *)
Definition tag_hit (row : classified) (h : hit) : expanded_hit :=
  ExpandedHit (id_of_classified row) (country_code h) (hit_number h).

(** How often a value stands in a column. *)
Definition occurrences (x : string) (l : list string) : nat :=
  length (filter (λ y, y = x) l).

(** The aggregate the left join finds for an identifier. *)
Definition find_hits (expanded_hits : list expanded_hit) (id : string) : option (Z * nat) :=
  match hits_of id expanded_hits with
  | [] => None
  | group => Some (wrap64 (sum_Z (map eh_hit_number group)),
                   nunique (map eh_country_code group))
  end.

(** How the join of stage 3 stores a total: as it is when every artist of
    the frame has an aggregate, as a float when one has none. *)
Definition stored_total (expanded_hits : list expanded_hit) (top_artists : list classified)
    : Z → Z :=
  if forallb (λ r, bool_decide (is_Some (find_hits expanded_hits (id_of_classified r))))
             top_artists
  then id else Float64.of_int64_column.

(** The weight [gamma] the quantile of a column of [n] cells interpolates
    with. *)
Definition weight (q : spec_float) (n : nat) : spec_float :=
  let v := virtual_index q (Z.of_nat n) in
  get_gamma v (get_indexes v (Z.of_nat n)).1.

(** A weight [t] that is a finite float, [1 - t] being one as well. *)
Definition finite_weight (t : spec_float) : bool :=
  Float64.is_finite t && Float64.is_finite (Float64.sub (Float64.of_Z 1) t).

(** The nodes are the keys of the adjacency, and no neighbour is listed twice. *)
Definition graph_wf (g : graph) : Prop :=
  (∀ n, n ∈ nodes g ↔ is_Some (adj g !! n)) ∧ (∀ n, NoDup (neighbours g n)).

(** Rows by decreasing key. *)
Definition descending {A : Type} (key : A → Z) : A → A → Prop :=
  λ a b, (key b ≤ key a)%Z.

(** The degree of a node, read off the edge rows. *)
Definition degree_of_rows (edges_df : list edge) (n : string) : nat :=
  size (neighbour_set edges_df n) + (if decide ((n, n) ∈ edges_df) then 1 else 0).

(** What a node element holds, given the row of the artist. *)
Definition node_data_of (g : graph) (r : artist) : node_data :=
  NodeData (spotify_id r) (name r) (degree g (spotify_id r)) (followers r)
           (popularity r) (genres r) (name r).

(** The identifier and the row of the node table behind a dataset row. *)
Definition artist_of (r : with_collabs) : artist := base (classified_row (hits_row r)).
Definition id_of_row (r : with_collabs) : string := spotify_id (artist_of r).

(** The sum of the counts of a table of counts. *)
Definition total_count (m : gmap string nat) : nat :=
  sum_list (map snd (map_to_list m)).

(** The characters of a string. *)
Definition chars (s : string) : list ascii := list_ascii_of_string s.

(** A word of [s]: not empty, of characters of [s], none of them white. *)
Definition clean_token (s w : string) : Prop :=
  w ≠ EmptyString ∧ ∀ c, c ∈ chars w → PyStr.is_space c = false ∧ c ∈ chars s.

(** A tag that [repr] prints as it is between single quotes and that holds
    no comma. *)
Definition simple_tag (t : string) : bool :=
  ListLiteral.all_chars
    (λ c, ListLiteral.is_plain c && negb (Ascii.eqb c "'") && negb (Ascii.eqb c ",")) t.

(** ** A small data set *)

Module Sample.

Definition alice : artist :=
  Artist "A" "Alice" 1000 90 ["pop"] (CStr "['us (1)', 'gb (3)']").

Definition bob : artist :=
  Artist "B" "Bob" 2000 80 ["k-pop"; "trap"] (CStr "['us (2)']").

Definition carol : artist :=
  Artist "C" "Carol" 500 70 ["classic rock"] (CStr "['de (5)', 'de (7)']").

Definition artists : list artist := [alice; bob; carol].

Definition collaborations : list edge := [("A", "B"); ("B", "C")].

Definition alice_classified : classified := Classified alice ["pop"] 1.

Definition alice_with_hits : with_hits := WithHits alice_classified (Some 4%Z) (Some 2).

(** The frames of a run of the pipeline on it. *)
Definition frames : stages :=
  Eval vm_compute in
    match run_stages artists collaborations with
    | Ok st => st
    | _ => Stages [] [] [] [] [] [] [] []
    end.

End Sample.

(* ===================================================================== *)
(** * Part II. Theorems                                                   *)
(* ===================================================================== *)

(** ** The Python builtins on examples *)

Example lower_example : PyStr.lower "K-Pop & R&B" = "k-pop & r&b".
Proof. reflexivity. Qed.

Example contains_example :
  PyStr.contains "rap" "trap" = true ∧ PyStr.contains "pop" "rock" = false
  ∧ PyStr.contains EmptyString "rock" = true.
Proof. repeat split. Qed.

Example split_example :
  PyStr.split "  us   1 " = ["us"; "1"]
  ∧ PyStr.split_on "," "a,,b" = ["a"; EmptyString; "b"]
  ∧ PyStr.strip (PyStr.in_chars "[]") "[['a', 'b']" = "'a', 'b'".
Proof. repeat split. Qed.

Example int_example :
  PyStr.int "1_000" = Some 1000%Z ∧ PyStr.int "-7" = Some (-7)%Z
  ∧ PyStr.int "1__0" = None ∧ PyStr.int "seven" = None ∧ PyStr.int "+" = None.
Proof. repeat split. Qed.

Example literal_eval_example :
  literal_eval "['us (1)', 'gb (3)' ,]" = Ok ["us (1)"; "gb (3)"]
  ∧ literal_eval "[]" = Ok []
  ∧ literal_eval "['us (1)'" = Raise SyntaxError
  ∧ literal_eval "('us (1)',)" = Unmodelled.
Proof. repeat split. Qed.

Example parse_entry_example :
  parse_entry "us (1)" = Ok (Hit "us" 1) ∧ parse_entry "(US 12)" = Ok (Hit "US" 12)
  ∧ parse_entry "us" = Raise ValueError ∧ parse_entry "us one" = Raise ValueError.
Proof. repeat split. Qed.

(** The last but one is the float next below the one of 13.675: the
    quantile at 0.975 of the numbers 1 to 14 prints as 13.674999999999999. *)
Example quantile_example :
  quantile (Float64.of_ratio 1 2) [3; 1; 2; 4]%Z = Float64.of_ratio 5 2
  ∧ quantile (Float64.of_ratio 25 1000) [1; 2; 3; 4; 5; 6; 7; 8; 9; 10]%Z
    = Float64.of_ratio 1225 1000
  ∧ quantile (Float64.of_ratio 975 1000) [1; 2; 3; 4; 5; 6; 7; 8; 9; 10; 11; 12; 13; 14]%Z
    = S754_finite false 7698340613036441 (-49)
  ∧ Float64.of_ratio 13675 1000 = S754_finite false 7698340613036442 (-49)
  ∧ quantile (Float64.of_ratio 975 1000) [] = S754_nan.
Proof. vm_compute. repeat split. Qed.

Example wrap64_example :
  wrap64 (2 ^ 63 - 1 + 1) = (- 2 ^ 63)%Z ∧ wrap64 (-5) = (-5)%Z
  ∧ Float64.of_int64_column (2 ^ 53 + 1) = (2 ^ 53)%Z.
Proof. vm_compute. repeat split. Qed.

Example value_counts_example :
  value_counts ["a"; "b"; "a"; "c"; "b"; "a"] = [("a", 3); ("b", 2); ("c", 1)]
  ∧ value_counts ["b"; "a"; "c"; "a"; "b"] = [("b", 2); ("a", 2); ("c", 1)].
Proof. vm_compute. repeat split. Qed.

Example graph_example :
  let g := from_pandas_edgelist [("A", "B"); ("B", "C"); ("A", "B"); ("C", "C")] in
  nodes g = ["A"; "B"; "C"]
  ∧ neighbours g "C" = ["B"; "C"]
  ∧ degree_dict g = [("A", 1); ("B", 2); ("C", 3)]
  ∧ graph_edges g = [("A", "B"); ("B", "C"); ("C", "C")].
Proof. vm_compute. repeat split. Qed.

Example run_stages_example :
  run_stages Sample.artists Sample.collaborations = Ok Sample.frames
  ∧ map collab_count (stage7 Sample.frames) = [1; 2; 1]
  ∧ run_stages [] [] = Raise TypeError
  ∧ run_stages [Artist "D" "Dave" 10 50 ["jazz"] CNaN] [] = Raise KeyError.
Proof. vm_compute. repeat split. Qed.

(** ** Genre Classifier *)

Section Classifier.

Variable taxonomy : list (string * list string).

Lemma elem_of_add_matches (mapped : gset string) (genre g : string) :
  g ∈ add_matches taxonomy mapped genre ↔
  g ∈ mapped ∨ ∃ entry, entry ∈ taxonomy ∧ entry.1 = g ∧ any_sub entry.2 genre = true.
Proof.
  unfold add_matches. revert mapped.
  induction taxonomy as [|entry tax IH]; intros mapped; simpl.
  - split; [auto | intros [H | (e & He & _)]; [done | inversion He]].
  - rewrite IH. destruct (any_sub entry.2 genre) eqn:Hany.
    + rewrite elem_of_union, elem_of_singleton. split.
      * intros [[H | ->] | (e & He & H1 & H2)]; [by left | right | right].
        -- exists entry. split; [left | done].
        -- exists e. split; [by right | done].
      * intros [H | (e & He & H1 & H2)]; [by left; left |].
        apply elem_of_cons in He as [-> | He]; [left; right; done |].
        right. by exists e.
    + split.
      * intros [H | (e & He & H1 & H2)]; [by left | right].
        exists e. split; [by right | done].
      * intros [H | (e & He & H1 & H2)]; [by left |].
        apply elem_of_cons in He as [-> | He]; [congruence |].
        right. by exists e.
Qed.

Lemma elem_of_foldl_add_matches (genre_list : list string) (mapped : gset string) (g : string) :
  g ∈ foldl (add_matches taxonomy) mapped genre_list ↔
  g ∈ mapped ∨ ∃ entry genre, entry ∈ taxonomy ∧ entry.1 = g ∧ genre ∈ genre_list
                              ∧ any_sub entry.2 genre = true.
Proof.
  revert mapped. induction genre_list as [|genre l IH]; intros mapped; simpl.
  - split; [auto | intros [H | (e & t & _ & _ & Ht & _)]; [done | inversion Ht]].
  - rewrite IH, elem_of_add_matches. split.
    + intros [[H | (e & He & H1 & H2)] | (e & t & He & H1 & Ht & H2)].
      * by left.
      * right. exists e, genre. repeat split; [done.. | left | done].
      * right. exists e, t. repeat split; [done.. | by right | done].
    + intros [H | (e & t & He & H1 & Ht & H2)]; [by left; left |].
      apply elem_of_cons in Ht as [-> | Ht].
      * left; right. by exists e.
      * right. by exists e, t.
Qed.

Lemma elem_of_mapped_genres (genre_list : list string) (g : string) :
  g ∈ mapped_genres taxonomy genre_list ↔
  ∃ entry genre, entry ∈ taxonomy ∧ entry.1 = g ∧ genre ∈ genre_list
                 ∧ any_sub entry.2 genre = true.
Proof.
  unfold mapped_genres. rewrite elem_of_foldl_add_matches.
  split; [intros [H | H]; [by apply not_elem_of_empty in H | done] | by right].
Qed.

End Classifier.

Lemma any_sub_true (subgenres : list string) (genre : string) :
  any_sub subgenres genre = true ↔
  ∃ sub, sub ∈ subgenres ∧ PyStr.contains sub (PyStr.lower genre) = true.
Proof.
  unfold any_sub. rewrite existsb_exists.
  split; intros (sub & Hin & H); exists sub; (split; [by apply list_elem_of_In | done]).
Qed.

(** Every substring of the taxonomy is written in lower case. *)
Lemma top_genres_lower (entry : string * list string) (sub : string) :
  entry ∈ top_genres → sub ∈ entry.2 → PyStr.lower sub = sub.
Proof.
  assert (H : Forall (λ e : string * list string,
                        Forall (λ sub, PyStr.lower sub = sub) e.2) top_genres).
  { apply (bool_decide_unpack _). vm_compute. reflexivity. }
  intros He Hs. rewrite Forall_forall in H. specialize (H _ He).
  rewrite Forall_forall in H. by apply H.
Qed.

(** C6. The classifier returns exactly the canonical genres one of whose
    substrings occurs, letter case ignored, in one of the artist's raw tags:
    each such bucket once, nothing outside the ten buckets, and the tags
    k-pop and trap give pop and hip-hop. *)
Theorem map_to_top_genres_exact (tags : list string) :
  (∀ g, g ∈ map_to_top_genres (GList tags) ↔
        ∃ subs sub tag, (g, subs) ∈ top_genres ∧ sub ∈ subs ∧ tag ∈ tags
                        ∧ contains_ci sub tag = true)
  ∧ NoDup (map_to_top_genres (GList tags))
  ∧ map_to_top_genres (GList tags)
      ⊆ ["pop"; "rock"; "hip-hop"; "edm"; "r&b"; "country"; "jazz"; "classical";
         "latin"; "reggae"]
  ∧ list_to_set (map_to_top_genres (GList ["k-pop"; "trap"])) =@{gset string}
      {[ "pop"; "hip-hop" ]}.
Proof.
  assert (Hiff : ∀ g, g ∈ map_to_top_genres (GList tags) ↔
        ∃ subs sub tag, (g, subs) ∈ top_genres ∧ sub ∈ subs ∧ tag ∈ tags
                        ∧ contains_ci sub tag = true).
  { intros g. unfold map_to_top_genres, map_to_top_genres_with.
    rewrite elem_of_elements, elem_of_mapped_genres. split.
    - intros ([g' subs] & tag & He & Hg & Ht & Hany). simpl in *. subst g'.
      apply any_sub_true in Hany as (sub & Hsub & Hc).
      exists subs, sub, tag. repeat split; try done.
      unfold contains_ci. by rewrite (top_genres_lower _ _ He Hsub).
    - intros (subs & sub & tag & He & Hsub & Ht & Hc).
      exists (g, subs), tag. repeat split; try done.
      apply any_sub_true. exists sub. split; [done |].
      unfold contains_ci in Hc. by rewrite (top_genres_lower _ _ He Hsub) in Hc. }
  split; [exact Hiff |]. split; [| split].
  - unfold map_to_top_genres, map_to_top_genres_with. apply NoDup_elements.
  - intros g Hg. apply Hiff in Hg as (subs & _ & _ & He & _).
    unfold top_genres in He.
    repeat (apply elem_of_cons in He as [He | He];
            [injection He as -> _; apply (bool_decide_unpack _); vm_compute; reflexivity |]).
    inversion He.
  - apply (bool_decide_unpack _). vm_compute. reflexivity.
Qed.

(** ** Record Loader *)

Lemma append_nil (b : string) : EmptyString +:+ b = b.
Proof. reflexivity. Qed.

Lemma append_cons (x : ascii) (a b : string) : String x a +:+ b = String x (a +:+ b).
Proof. reflexivity. Qed.

Lemma append_assoc (a b c : string) : (a +:+ b) +:+ c = a +:+ (b +:+ c).
Proof.
  induction a as [|x a IH]; [done |].
  by rewrite !append_cons, IH.
Qed.

Lemma append_empty_r (a : string) : a +:+ EmptyString = a.
Proof.
  induction a as [|x a IH]; [done |].
  by rewrite append_cons, IH.
Qed.

Module ListLiteralFacts.
Import ListLiteral.

(** Reading a literal up to its closing quote. *)
Lemma run_literal (s acc rest : string) (items : list string) :
  plain s = true →
  run (InLiteral "'" acc) items (s +:+ String "'" rest)
  = run AfterElem (items ++ [acc +:+ s]) rest.
Proof.
  revert acc. induction s as [|c s IH]; intros acc Hs.
  - rewrite append_nil, append_empty_r. reflexivity.
  - simpl in Hs. apply andb_prop in Hs as [Hc Hs].
    apply andb_prop in Hc as [Hplain Hq].
    apply negb_true_iff in Hq. rewrite append_cons. simpl.
    rewrite Hq, Hplain, IH by done.
    by rewrite append_assoc, append_cons, append_nil.
Qed.

Lemma run_quoted (st : state) (s rest : string) (items : list string) :
  st = Opened ∨ st = AfterComma →
  plain s = true →
  run st items (quoted s +:+ rest) = run AfterElem (items ++ [s]) rest.
Proof.
  intros Hst Hs. unfold quoted.
  rewrite !append_cons, !append_nil, append_assoc, append_cons, append_nil.
  destruct Hst as [-> | ->]; simpl; by rewrite run_literal.
Qed.

Lemma run_elements (l : list string) (st : state) (items : list string) :
  st = Opened ∨ st = AfterComma →
  l ≠ [] →
  Forall (λ s, plain s = true) l →
  run st items (join ", " (map quoted l) +:+ "]") = Ok (items ++ l).
Proof.
  revert st items. induction l as [|s l IH]; intros st items Hst Hne Hall; [done |].
  apply Forall_cons in Hall as [Hs Hall].
  destruct l as [|s' l].
  - change (join ", " (map quoted [s])) with (quoted s).
    by rewrite run_quoted.
  - change (join ", " (map quoted (s :: s' :: l)))
      with (quoted s +:+ ", " +:+ join ", " (map quoted (s' :: l))).
    rewrite !append_assoc, run_quoted by done.
    rewrite !append_cons, append_nil. simpl.
    rewrite IH; [| by right | done | done].
    by rewrite <- app_assoc.
Qed.

(** [eval(repr(l))] gives [l] back, also with a blank after it. *)
Lemma parse_repr (l : list string) :
  Forall (λ s, plain s = true) l → parse (repr l) = Ok l.
Proof.
  intros Hall. unfold parse, repr. rewrite append_cons, append_nil. simpl.
  destruct l as [|s l]; [done |].
  by rewrite run_elements; [| left | |].
Qed.

End ListLiteralFacts.

(** C2, as the code has it.  A value that is not a string becomes the empty
    list, and the text of a list of strings becomes that list, in order; a
    string whose evaluation raises is not turned into the empty list: the
    exception leaves the loader. *)
Theorem load_genres_cases (l : list string) :
  Forall (λ s, ListLiteral.plain s = true) l →
  (∀ x, (∀ s, x ≠ CStr s) → load_genres x = Ok [])
  ∧ load_genres (CStr (ListLiteral.repr l)) = Ok l
  ∧ (∀ s e, py_eval s = Raise e → load_genres (CStr s) = Raise e).
Proof.
  intros Hall. split; [| split].
  - intros [s | x |] Hx; [by destruct (Hx s) | done..].
  - simpl. unfold py_eval. by apply ListLiteralFacts.parse_repr.
  - intros s e Hs. exact Hs.
Qed.

Lemma load_genres_cases_witness :
  Forall (λ s, ListLiteral.plain s = true) ["pop"; "k-pop"; "dance pop"]
  ∧ load_genres (CStr "['pop', 'k-pop', 'dance pop']") = Ok ["pop"; "k-pop"; "dance pop"].
Proof.
  assert (H : Forall (λ s, ListLiteral.plain s = true) ["pop"; "k-pop"; "dance pop"]).
  { repeat constructor. }
  split; [exact H |].
  exact (proj1 (proj2 (load_genres_cases ["pop"; "k-pop"; "dance pop"] H))).
Defined.

(** C2 as stated fails: the text of a list that is never closed is a string
    that is no list, and the loader raises on it instead of giving []. *)
Lemma load_genres_unclosed_list_raises :
  load_genres (CStr "['pop', 'rock'") = Raise SyntaxError
  ∧ load_genres (CStr "['pop', 'rock'") ≠ Ok []
  ∧ load_data [RawArtist "A" "Alice" 1000 90 (CStr "['pop', 'rock'") CNaN]
    = Raise SyntaxError.
Proof. split; [reflexivity |]. split; [discriminate | reflexivity]. Qed.

(** ** Chart-Hit Expander *)

Lemma parse_entry_cases (entry : string) :
  (∃ h, parse_entry entry = Ok h) ∨ parse_entry entry = Raise ValueError.
Proof.
  unfold parse_entry.
  destruct (PyStr.split _) as [|country [|number [|? ?]]]; try by right.
  destruct (PyStr.int number); [left; eauto | by right].
Qed.

(** A loop whose body can only raise [e] raises [e] as soon as one item does. *)
Lemma for_each_raises {A B : Type} (f : A → outcome B) (e : exn) (l : list A) (bad : A) :
  (∀ x, x ∈ l → (∃ y, f x = Ok y) ∨ f x = Raise e) →
  bad ∈ l → f bad = Raise e → for_each f l = Raise e.
Proof.
  intros Hf Hin Hbad. induction l as [|x l IH]; [inversion Hin |].
  simpl. destruct (Hf x) as [[y Hy] | Hx]; [left | |].
  - rewrite Hy. simpl.
    apply elem_of_cons in Hin as [-> | Hin]; [congruence |].
    rewrite IH; [done | | done].
    intros x' Hx'. apply Hf. by right.
  - by rewrite Hx.
Qed.

Lemma process_chart_hits_app (rows1 rows2 : list classified) :
  process_chart_hits (rows1 ++ rows2)
  = '(hits1, printed1) ← process_chart_hits rows1 ;
    '(hits2, printed2) ← process_chart_hits rows2 ;
    Ok (hits1 ++ hits2, printed1 ++ printed2).
Proof.
  induction rows1 as [|row rows1 IH]; simpl.
  - by destruct (process_chart_hits rows2) as [[? ?] | |].
  - destruct (expand_row row) as [[hits printed0] | |]; simpl; [| done..].
    rewrite IH.
    destruct (process_chart_hits rows1) as [[hits1 printed1] | |]; simpl; [| done..].
    destruct (process_chart_hits rows2) as [[hits2 printed2] | |]; simpl; [| done..].
    by rewrite !app_assoc.
Qed.

(** *** Aggregation *)

Lemma for_each_cons_Ok {A B : Type} (f : A → outcome B) (x : A) (l : list A) (ys : list B) :
  for_each f (x :: l) = Ok ys →
  ∃ y ys', f x = Ok y ∧ for_each f l = Ok ys' ∧ ys = y :: ys'.
Proof.
  simpl. destruct (f x) as [y | |]; simpl; [| done..].
  destruct (for_each f l) as [ys' | |]; simpl; [| done..].
  intros [= <-]. eauto.
Qed.



Lemma sum_Z_app (l l' : list Z) : sum_Z (l ++ l') = (sum_Z l + sum_Z l')%Z.
Proof. induction l as [|x l IH]; simpl; lia. Qed.



(** The rows of a keyed table with distinct keys that a key selects. *)
Lemma filter_keyed {V : Type} (F : string → V) (keys : list string) (id : string) :
  NoDup keys →
  filter (λ kv : string * V, kv.1 = id) (map (λ k, (k, F k)) keys)
  = if decide (id ∈ keys) then [(id, F id)] else [].
Proof.
  induction keys as [|k keys IH]; intros Hnd.
  - by rewrite decide_False by (intros H; inversion H).
  - apply NoDup_cons in Hnd as [Hk Hnd]. rewrite map_cons.
    destruct (decide (k = id)) as [-> | Hne].
    + rewrite filter_cons_True by done. rewrite (IH Hnd).
      rewrite (decide_True (P := id ∈ id :: keys)) by left.
      by rewrite (decide_False (P := id ∈ keys)).
    + rewrite filter_cons_False by done. rewrite (IH Hnd).
      case_decide as H1; case_decide as H2; try done.
      * exfalso. apply H2. by right.
      * apply elem_of_cons in H2 as [-> | H2]; done.
Qed.

Lemma elem_of_hit_ids (id : string) (expanded_hits : list expanded_hit) :
  id ∈ map eh_spotify_id expanded_hits ↔ hits_of id expanded_hits ≠ [].
Proof.
  unfold hits_of. induction expanded_hits as [|h l IH]; simpl.
  - split; [intros H; inversion H | done].
  - destruct (decide (eh_spotify_id h = id)) as [Heq | Hne].
    + rewrite filter_cons_True by done. split; [done | intros _; rewrite Heq; left].
    + rewrite filter_cons_False by done. rewrite <- IH.
      split; [intros H | by right].
      apply elem_of_cons in H as [-> | H]; done.
Qed.

(** What the left join finds for an artist in the grouped frame. *)
Lemma group_hits_lookup (expanded_hits : list expanded_hit)
    (grouped_hits : list (string * (Z * nat))) (id : string) :
  group_hits expanded_hits = Ok grouped_hits →
  filter (λ kv : string * (Z * nat), kv.1 = id) grouped_hits
  = match hits_of id expanded_hits with
    | [] => []
    | group => [(id, (wrap64 (sum_Z (map eh_hit_number group)),
                      nunique (map eh_country_code group)))]
    end.
Proof.
  unfold group_hits. destruct expanded_hits as [|h l] eqn:E; [done |].
  rewrite <- E. destruct (forallb _ expanded_hits); [| done]. intros [= <-].
  rewrite (filter_keyed
    (λ k, (wrap64 (sum_Z (map eh_hit_number (hits_of k expanded_hits))),
           nunique (map eh_country_code (hits_of k expanded_hits)))))
    by apply NoDup_remove_dups.
  case_decide as Hin.
  - rewrite elem_of_remove_dups in Hin. apply elem_of_hit_ids in Hin.
    by destruct (hits_of id expanded_hits).
  - rewrite elem_of_remove_dups, elem_of_hit_ids in Hin.
    destruct (hits_of id expanded_hits); [done | exfalso; by apply Hin].
Qed.

Lemma process_chart_hits_cons_Ok (row : classified) (rows : list classified)
    (expanded_hits : list expanded_hit) (log : list log_entry) :
  process_chart_hits (row :: rows) = Ok (expanded_hits, log) →
  ∃ hs lg hits' log',
    expand_chart_hits (chart_hits (base row)) = Ok (hs, lg)
    ∧ process_chart_hits rows = Ok (hits', log')
    ∧ expanded_hits = map (tag_hit row) hs ++ hits'
    ∧ log = lg ++ log'.
Proof.
  simpl. unfold expand_row.
  destruct (expand_chart_hits _) as [[hs lg] | |]; simpl; [| done..].
  destruct (process_chart_hits rows) as [[hits' log'] | |]; simpl; [| done..].
  intros [= <- <-]. by exists hs, lg, hits', log'.
Qed.

Lemma process_chart_hits_ids (rows : list classified)
    (expanded_hits : list expanded_hit) (log : list log_entry) (h : expanded_hit) :
  process_chart_hits rows = Ok (expanded_hits, log) →
  h ∈ expanded_hits → eh_spotify_id h ∈ map id_of_classified rows.
Proof.
  revert expanded_hits log. induction rows as [|row rows IH]; intros expanded_hits log.
  - simpl. intros [= <- <-] Hin. inversion Hin.
  - intros (hs & lg & hits' & log' & _ & Hrest & -> & ->)%process_chart_hits_cons_Ok Hin.
    apply elem_of_app in Hin as [Hin | Hin].
    + apply list_elem_of_fmap in Hin as (h0 & -> & _). left.
    + right. by eapply IH.
Qed.

Lemma hits_of_tagged (row : classified) (hs : list hit) :
  hits_of (id_of_classified row) (map (tag_hit row) hs) = map (tag_hit row) hs.
Proof.
  unfold hits_of. induction hs as [|h hs IH]; [done |].
  rewrite map_cons, filter_cons_True by done. by rewrite IH.
Qed.

Lemma hits_of_absent (id : string) (expanded_hits : list expanded_hit) :
  id ∉ map eh_spotify_id expanded_hits → hits_of id expanded_hits = [].
Proof.
  intros Hnot. destruct (hits_of id expanded_hits) eqn:E; [done |].
  exfalso. apply Hnot, elem_of_hit_ids. by rewrite E.
Qed.

(** With distinct identifiers, the hits grouped under an artist's
    identifier are the ones parsed from that artist's own cell. *)
Lemma hits_of_own (rows : list classified) (r : classified)
    (expanded_hits : list expanded_hit) (log : list log_entry) :
  NoDup (map id_of_classified rows) →
  r ∈ rows →
  process_chart_hits rows = Ok (expanded_hits, log) →
  ∃ hs lg, expand_chart_hits (chart_hits (base r)) = Ok (hs, lg)
           ∧ hits_of (id_of_classified r) expanded_hits = map (tag_hit r) hs.
Proof.
  revert expanded_hits log.
  induction rows as [|row rows IH]; intros expanded_hits log Hnd Hin Hproc;
    [inversion Hin |].
  rewrite map_cons in Hnd. apply NoDup_cons in Hnd as [Hfresh Hnd].
  apply process_chart_hits_cons_Ok in Hproc
    as (hs & lg & hits' & log' & Hrow & Hrest & -> & ->).
  unfold hits_of. rewrite filter_app. fold (hits_of (id_of_classified r) hits').
  fold (hits_of (id_of_classified r) (map (tag_hit row) hs)).
  apply elem_of_cons in Hin as [-> | Hin].
  - exists hs, lg. split; [done |].
    rewrite hits_of_tagged, (hits_of_absent _ hits'); [by rewrite app_nil_r |].
    intros Hin. apply Hfresh.
    apply list_elem_of_fmap in Hin as (h & -> & Hh).
    by eapply process_chart_hits_ids.
  - destruct (IH _ _ Hnd Hin Hrest) as (hs' & lg' & Hr & Hown).
    exists hs', lg'. split; [done |].
    rewrite Hown, (hits_of_absent _ (map (tag_hit row) hs)); [done |].
    intros Hin'. apply Hfresh.
    apply list_elem_of_fmap in Hin' as (h & Hid & Hh).
    apply list_elem_of_fmap in Hh as (h0 & -> & _). simpl in Hid.
    rewrite <- Hid. by apply list_elem_of_fmap_2.
Qed.

(** ** Data-frame operations *)

Lemma insert_row_Permutation {A : Type} (before : A → A → bool) (x : A) (l : list A) :
  insert_row before x l ≡ₚ x :: l.
Proof.
  induction l as [|y l IH]; simpl; [done |].
  destruct (before x y); [done |].
  rewrite IH. apply Permutation_swap.
Qed.

Lemma sort_rows_Permutation {A : Type} (before : A → A → bool) (l : list A) :
  sort_rows before l ≡ₚ l.
Proof.
  unfold sort_rows. induction l as [|x l IH]; simpl; [done |].
  by rewrite insert_row_Permutation, IH.
Qed.

Lemma sort_desc_Permutation {A : Type} (key : A → Z) (l : list A) :
  sort_desc key l ≡ₚ l.
Proof. apply sort_rows_Permutation. Qed.

Lemma sort_desc_length {A : Type} (key : A → Z) (l : list A) :
  length (sort_desc key l) = length l.
Proof. apply Permutation_length, sort_desc_Permutation. Qed.

Lemma filter_key_absent {V : Type} (table : list (string * V)) (k : string) :
  k ∉ table.*1 → filter (λ kv : string * V, kv.1 = k) table = [].
Proof.
  induction table as [|[k2 v2] t IHt]; intros Hk; [done |].
  rewrite fmap_cons in Hk. apply not_elem_of_cons in Hk as [Hne Hk].
  rewrite filter_cons_False by (intros Heq; apply Hne; symmetry; exact Heq).
  by apply IHt.
Qed.

(** In a table with distinct keys, a key selects the one row that has it. *)
Lemma filter_key_present {V : Type} (table : list (string * V)) (k : string) (v : V) :
  NoDup table.*1 → (k, v) ∈ table →
  filter (λ kv : string * V, kv.1 = k) table = [(k, v)].
Proof.
  induction table as [|[k' v'] table IH]; intros Hnd Hin; [inversion Hin |].
  rewrite fmap_cons in Hnd. apply NoDup_cons in Hnd as [Hfresh Hnd].
  apply elem_of_cons in Hin as [[= <- <-] | Hin].
  - rewrite filter_cons_True by done. by rewrite filter_key_absent.
  - assert (k' ≠ k).
    { intros ->. apply Hfresh. apply list_elem_of_fmap. by exists (k, v). }
    rewrite filter_cons_False by done. by apply IH.
Qed.

(** A left join against a table with distinct keys keeps the left rows as
    they are, one joined row for each. *)
Lemma merge_left_lookup {L R : Type} (key : L → string) (right : list (string * R))
    (left : list L) (find : string → option R) :
  (∀ k, filter (λ kv : string * R, kv.1 = k) right
        = match find k with Some v => [(k, v)] | None => [] end) →
  merge_left key right left = map (λ row, (row, find (key row))) left.
Proof.
  intros Hfind. unfold merge_left.
  induction left as [|row left IH]; [done |].
  rewrite map_cons, <- IH. change (flat_map ?f (row :: left)) with (f row ++ flat_map f left).
  cbv beta. rewrite Hfind. by destruct (find (key row)).
Qed.

(** *** Counting values *)

Lemma occurrences_absent (x : string) (l : list string) :
  x ∉ l → occurrences x l = 0.
Proof.
  unfold occurrences. induction l as [|y l IH]; intros Hx; [done |].
  apply not_elem_of_cons in Hx as [Hne Hx].
  rewrite filter_cons_False by done. by apply IH.
Qed.

Lemma count_values_lookup (l : list string) (m : gmap string nat) (x : string) :
  foldl (λ m x, <[ x := S (default 0 (m !! x)) ]> m) m l !! x
  = if decide (x ∈ l) then Some (default 0 (m !! x) + occurrences x l) else m !! x.
Proof.
  revert m. induction l as [|y l IH]; intros m.
  - by rewrite decide_False by (intros H; inversion H).
  - simpl. rewrite IH. unfold occurrences.
    destruct (decide (y = x)) as [-> | Hne].
    + rewrite filter_cons_True by done. rewrite lookup_insert_eq. simpl.
      rewrite (decide_True (P := x ∈ x :: l)) by left.
      case_decide as Hin; f_equal; [lia |].
      apply occurrences_absent in Hin. unfold occurrences in Hin.
      rewrite Hin. simpl. lia.
    + rewrite filter_cons_False by done. rewrite lookup_insert_ne by done.
      case_decide as H1; case_decide as H2; try done.
      * exfalso. apply H2. by right.
      * apply elem_of_cons in H2 as [-> | H2]; done.
Qed.

Lemma count_values_lookup_occurrences (l : list string) (k : string) :
  count_values l !! k = if decide (k ∈ l) then Some (occurrences k l) else None.
Proof. unfold count_values. by rewrite count_values_lookup, lookup_empty. Qed.

Lemma elem_of_unique (l : list string) (x : string) : x ∈ unique l ↔ x ∈ l.
Proof. unfold unique. by rewrite elem_of_reverse, elem_of_remove_dups, elem_of_reverse. Qed.

Lemma NoDup_unique (l : list string) : NoDup (unique l).
Proof. unfold unique. rewrite reverse_Permutation. apply NoDup_remove_dups. Qed.

(** The table of [value_counts] holds the counts, whatever its order. *)
Lemma value_counts_Permutation (l : list string) :
  value_counts l ≡ₚ map_to_list (count_values l).
Proof.
  unfold value_counts. rewrite sort_desc_Permutation.
  apply NoDup_Permutation.
  - apply NoDup_fmap_2; [by intros x y [= ->] | apply NoDup_unique].
  - apply NoDup_map_to_list.
  - intros [x c]. rewrite list_elem_of_fmap, elem_of_map_to_list,
      count_values_lookup_occurrences. split.
    + intros (y & [= -> ->] & Hy). rewrite elem_of_unique in Hy.
      rewrite count_values_lookup_occurrences, decide_True by done. done.
    + case_decide as Hin; [| done]. intros [= <-]. exists x.
      rewrite count_values_lookup_occurrences, decide_True by done.
      split; [done | by apply elem_of_unique].
Qed.

Lemma value_counts_lookup (l : list string) (k : string) :
  filter (λ kv : string * nat, kv.1 = k) (value_counts l)
  = match (if decide (k ∈ l) then Some (occurrences k l) else None) with
    | Some v => [(k, v)]
    | None => []
    end.
Proof.
  pose proof (value_counts_Permutation l) as Hperm.
  assert (Hnd : NoDup (value_counts l).*1).
  { rewrite Hperm. apply NoDup_fst_map_to_list. }
  pose proof (count_values_lookup_occurrences l k) as Hlook.
  case_decide as Hin.
  - apply filter_key_present; [done |].
    rewrite Hperm. by apply elem_of_map_to_list.
  - apply filter_key_absent. rewrite Hperm.
    intros Hk. apply list_elem_of_fmap in Hk as ([k' v] & -> & Hkv).
    apply elem_of_map_to_list in Hkv. simpl in Hlook. congruence.
Qed.

Lemma occurrences_app (x : string) (l l' : list string) :
  occurrences x (l ++ l') = occurrences x l + occurrences x l'.
Proof. unfold occurrences. by rewrite filter_app, length_app. Qed.

Lemma occurrences_cons (x y : string) (l : list string) :
  occurrences x (y :: l) = (if decide (y = x) then 1 else 0) + occurrences x l.
Proof.
  unfold occurrences. case_decide.
  - by rewrite filter_cons_True.
  - by rewrite filter_cons_False.
Qed.

Lemma appearances_occurrences (edges_df : list edge) (id : string) :
  occurrences id (map fst edges_df ++ map snd edges_df) = appearances edges_df id.
Proof.
  rewrite occurrences_app. unfold appearances.
  induction edges_df as [|[u v] es IH]; [done |].
  rewrite !map_cons, !occurrences_cons. simpl sum_list. rewrite <- IH. simpl.
  unfold edge. lia.
Qed.

Lemma appearances_none (edges_df : list edge) (id : string) :
  (∀ e, e ∈ edges_df → e.1 ≠ id ∧ e.2 ≠ id) → appearances edges_df id = 0.
Proof.
  unfold appearances. induction edges_df as [|e es IH]; intros Hno; [done |].
  simpl. destruct (Hno e) as [H1 H2]; [left |].
  rewrite !decide_False by done. simpl. apply IH.
  intros e' He'. apply Hno. by right.
Qed.

(** ** Comparing floats *)




(** ** Outlier removal (stage 5) *)




Lemma elem_of_remove_outliers (column : with_hits → Z) (top_artists : list with_hits)
    (r : with_hits) :
  r ∈ remove_outliers column top_artists
  ↔ within_bounds (tukey_bounds (map column top_artists)) (column r) = true
    ∧ r ∈ top_artists.
Proof.
  unfold remove_outliers. rewrite list_elem_of_filter.
  by rewrite Is_true_true.
Qed.



(** ** Analytical Dataset Builder *)

Lemma select_top_Ok (nodes_df top_artists : list artist) :
  select_top nodes_df = Ok top_artists →
  nodes_df ≠ [] ∧ top_artists = nlargest 100 popularity nodes_df.
Proof. unfold select_top. destruct nodes_df; [done |]. by intros [= <-]. Qed.

Lemma select_top_length (nodes_df top_artists : list artist) :
  select_top nodes_df = Ok top_artists → length top_artists ≤ 100.
Proof.
  intros [_ ->]%select_top_Ok. unfold nlargest. rewrite length_take. lia.
Qed.

Lemma apply_genre_mapping_length (top_artists : list artist) :
  length (apply_genre_mapping top_artists) ≤ length top_artists.
Proof.
  unfold apply_genre_mapping. rewrite length_map.
  etrans; [apply length_filter |]. by rewrite length_map.
Qed.

Lemma elem_of_apply_genre_mapping (top_artists : list artist) (r : classified) :
  r ∈ apply_genre_mapping top_artists →
  cleaned_genres r = map_to_top_genres (GList (genres (base r)))
  ∧ cleaned_genres r ≠ []
  ∧ genre_count r = length (cleaned_genres r).
Proof.
  unfold apply_genre_mapping. intros Hr.
  apply list_elem_of_fmap in Hr as ([a g] & -> & Hag).
  apply list_elem_of_filter in Hag as [Hlen Hag].
  apply list_elem_of_fmap in Hag as (a' & [= -> ->] & _).
  simpl in *. repeat split. intros Hnil. rewrite Hnil in Hlen. simpl in Hlen. lia.
Qed.

Lemma forallb_map_compose {A B : Type} (f : B → bool) (g : A → B) (l : list A) :
  forallb f (map g l) = forallb (λ x, f (g x)) l.
Proof. induction l as [|x l IH]; simpl; [done | by rewrite IH]. Qed.

Lemma merge_hits_rows (expanded_hits : list expanded_hit)
    (grouped_hits : list (string * (Z * nat))) (top_artists : list classified) :
  group_hits expanded_hits = Ok grouped_hits →
  merge_hits grouped_hits top_artists
  = map (λ r, WithHits r (stored_total expanded_hits top_artists
                            <$> (fst <$> find_hits expanded_hits (id_of_classified r)))
                         (snd <$> find_hits expanded_hits (id_of_classified r)))
        top_artists.
Proof.
  intros Hgroup. unfold merge_hits, stored_total.
  rewrite (merge_left_lookup _ _ _ (find_hits expanded_hits)).
  - rewrite forallb_map_compose, map_map. done.
  - intros k. rewrite (group_hits_lookup _ _ _ Hgroup). unfold find_hits.
    by destruct (hits_of k expanded_hits).
Qed.

Lemma find_hits_countries (expanded_hits : list expanded_hit) (id : string) (t : Z) (n : nat) :
  find_hits expanded_hits id = Some (t, n) → 1 ≤ n.
Proof.
  unfold find_hits. destruct (hits_of id expanded_hits) as [|h group]; [done |].
  intros [= _ <-]. unfold nunique.
  destruct (remove_dups (eh_country_code h :: map eh_country_code group)) eqn:E;
    [| simpl; lia].
  exfalso. assert (Hin : eh_country_code h ∈ remove_dups
                           (eh_country_code h :: map eh_country_code group)).
  { apply elem_of_remove_dups. left. }
  rewrite E in Hin. inversion Hin.
Qed.

(** *** The aggregates of an artist *)







Lemma resort_length (top_artists : list with_hits) :
  length (resort top_artists) ≤ length top_artists ∧ length (resort top_artists) ≤ 100.
Proof.
  unfold resort. rewrite length_take, sort_desc_length. lia.
Qed.

Lemma elem_of_resort (top_artists : list with_hits) (r : with_hits) :
  r ∈ resort top_artists → r ∈ top_artists.
Proof.
  unfold resort. intros Hr. apply subseteq_take in Hr.
  by rewrite sort_desc_Permutation in Hr.
Qed.

Lemma remove_outliers_length (column : with_hits → Z) (top_artists : list with_hits) :
  length (remove_outliers column top_artists) ≤ length top_artists.
Proof. apply length_filter. Qed.

Lemma remove_all_outliers_length (top_artists : list with_hits) :
  length (remove_all_outliers top_artists) ≤ length top_artists.
Proof.
  unfold remove_all_outliers. simpl.
  etrans; [apply remove_outliers_length |]. apply remove_outliers_length.
Qed.

Lemma elem_of_remove_all_outliers (top_artists : list with_hits) (r : with_hits) :
  r ∈ remove_all_outliers top_artists → r ∈ top_artists.
Proof.
  unfold remove_all_outliers. simpl. intros Hr.
  apply elem_of_remove_outliers in Hr as [_ Hr].
  by apply elem_of_remove_outliers in Hr as [_ Hr].
Qed.

Lemma merge_collabs_rows (edges_df : list edge) (top_artists : list with_hits) :
  merge_collabs edges_df top_artists
  = map (λ r, WithCollabs r (appearances edges_df (id_of_hits r))) top_artists.
Proof.
  unfold merge_collabs, artist_collabs.
  rewrite (merge_left_lookup _ _ _ _ (value_counts_lookup _)).
  rewrite map_map. apply map_ext. intros r. simpl. f_equal.
  rewrite <- appearances_occurrences.
  case_decide as Hin; [done |]. simpl.
  symmetry. by apply occurrences_absent.
Qed.

(** C3, as the code has it.  Stage 6 keeps every surviving row, once, and
    joins to it the number of times the artist's identifier stands in an
    edge row, both columns counted and every row counted, repeated rows
    included; an artist in no edge row gets 0. *)
Theorem collab_count_counts_edge_rows (edges_df : list edge) (top_artists : list with_hits) :
  merge_collabs edges_df top_artists
  = map (λ r, WithCollabs r (appearances edges_df (id_of_hits r))) top_artists
  ∧ ∀ r, r ∈ merge_collabs edges_df top_artists →
         (∀ e, e ∈ edges_df → e.1 ≠ id_of_hits (hits_row r) ∧ e.2 ≠ id_of_hits (hits_row r)) →
         collab_count r = 0.
Proof.
  split; [apply merge_collabs_rows |].
  intros r Hr Hno. rewrite merge_collabs_rows in Hr.
  apply list_elem_of_fmap in Hr as (r0 & -> & _). simpl in *.
  by apply appearances_none.
Qed.

(** C3 as stated fails: an edge row that is repeated is counted each time,
    so an artist in two copies of one edge gets 2, where the collapsed edges
    hold the identifier once. *)
Lemma collab_count_repeated_edge_rows :
  map collab_count
      (merge_collabs [("A", "B"); ("A", "B")] [Sample.alice_with_hits]) = [2]
  ∧ collapsed_appearances [("A", "B"); ("A", "B")] "A" = 1.
Proof. split; vm_compute; reflexivity. Qed.

Lemma remove_collab_outliers_length (df : list with_collabs) :
  length (remove_collab_outliers df) ≤ length df.
Proof. apply length_filter. Qed.

Lemma run_stages_Ok (nodes_df : list artist) (edges_df : list edge) (st : stages) :
  run_stages nodes_df edges_df = Ok st →
  ∃ expanded_hits grouped_hits,
    process_chart_hits (stage2 st) = Ok (expanded_hits, printed st)
    ∧ group_hits expanded_hits = Ok grouped_hits
    ∧ select_top nodes_df = Ok (stage1 st)
    ∧ stage2 st = apply_genre_mapping (stage1 st)
    ∧ stage3 st = dropna_hits (merge_hits grouped_hits (stage2 st))
    ∧ stage4 st = resort (stage3 st)
    ∧ stage5 st = remove_all_outliers (stage4 st)
    ∧ stage6 st = merge_collabs edges_df (stage5 st)
    ∧ stage7 st = remove_collab_outliers (stage6 st).
Proof.
  unfold run_stages.
  destruct (select_top nodes_df) as [s1 | |] eqn:Hs; simpl; [| done..].
  destruct (process_chart_hits _) as [[expanded_hits log] | |] eqn:Hp; simpl; [| done..].
  destruct (group_hits expanded_hits) as [grouped_hits | |] eqn:Hg; simpl; [| done..].
  intros [= <-]. simpl. by exists expanded_hits, grouped_hits.
Qed.

(** C7. From the selection of the top 100 on, no stage has more than 100
    rows nor more rows than the stage before it, and every artist of the
    final dataset has a canonical genre and a chart-hit aggregate, over at
    least one country. *)
Theorem dataset_size_invariant (nodes_df : list artist) (edges_df : list edge)
    (st : stages) :
  run_stages nodes_df edges_df = Ok st →
  prepare_cleaned_data nodes_df edges_df = Ok (stage7 st)
  ∧ length (stage1 st) ≤ 100
  ∧ length (stage2 st) ≤ length (stage1 st)
  ∧ length (stage3 st) ≤ length (stage2 st)
  ∧ length (stage4 st) ≤ length (stage3 st)
  ∧ length (stage5 st) ≤ length (stage4 st)
  ∧ length (stage6 st) ≤ length (stage5 st)
  ∧ length (stage7 st) ≤ length (stage6 st)
  ∧ Forall (λ n, n ≤ 100)
      [length (stage2 st); length (stage3 st); length (stage4 st); length (stage5 st);
       length (stage6 st); length (stage7 st)]
  ∧ ∀ r, r ∈ stage7 st →
      genres_of r ≠ []
      ∧ ∃ t n, total_hits (hits_row r) = Some t
               ∧ num_countries (hits_row r) = Some n ∧ 1 ≤ n.
Proof.
  intros Hrun.
  destruct (run_stages_Ok _ _ _ Hrun)
    as (expanded_hits & grouped_hits & Hproc & Hgroup & H1 & H2 & H3 & H4 & H5 & H6 & H7).
  assert (L1 : length (stage1 st) ≤ 100) by (by eapply select_top_length).
  assert (L2 : length (stage2 st) ≤ length (stage1 st))
    by (rewrite H2; apply apply_genre_mapping_length).
  assert (L3 : length (stage3 st) ≤ length (stage2 st)).
  { rewrite H3. unfold dropna_hits. etrans; [apply length_filter |].
    by rewrite (merge_hits_rows _ _ _ Hgroup), length_map. }
  assert (L4 : length (stage4 st) ≤ length (stage3 st))
    by (rewrite H4; apply resort_length).
  assert (L5 : length (stage5 st) ≤ length (stage4 st))
    by (rewrite H5; apply remove_all_outliers_length).
  assert (L6 : length (stage6 st) ≤ length (stage5 st))
    by (rewrite H6, merge_collabs_rows, length_map; done).
  assert (L7 : length (stage7 st) ≤ length (stage6 st))
    by (rewrite H7; apply remove_collab_outliers_length).
  split; [unfold prepare_cleaned_data; by rewrite Hrun |].
  do 7 (split; [done |]). split.
  - repeat (constructor; [lia |]). constructor.
  - intros r Hr. rewrite H7 in Hr. unfold remove_collab_outliers in Hr.
    apply list_elem_of_filter in Hr as [_ Hr].
    rewrite H6, merge_collabs_rows in Hr.
    apply list_elem_of_fmap in Hr as (rh & -> & Hrh). unfold genres_of. simpl.
    rewrite H5 in Hrh. apply elem_of_remove_all_outliers in Hrh.
    rewrite H4 in Hrh. apply elem_of_resort in Hrh.
    rewrite H3 in Hrh. unfold dropna_hits in Hrh.
    apply list_elem_of_filter in Hrh as [[[t Ht] [n Hn]] Hrh].
    rewrite (merge_hits_rows _ _ _ Hgroup) in Hrh.
    apply list_elem_of_fmap in Hrh as (rc & -> & Hrc). simpl in *.
    rewrite H2 in Hrc. apply elem_of_apply_genre_mapping in Hrc as (_ & Hne & _).
    split; [done |]. exists t, n. repeat split; [done.. |].
    destruct (find_hits expanded_hits (id_of_classified rc)) as [[t' n'] |] eqn:E;
      [| done].
    simpl in Hn. injection Hn as <-. by eapply find_hits_countries.
Qed.

Lemma dataset_size_invariant_witness :
  length (stage1 Sample.frames) ≤ 100
  ∧ length (stage7 Sample.frames) ≤ length (stage6 Sample.frames).
Proof.
  pose proof (dataset_size_invariant Sample.artists Sample.collaborations Sample.frames
                eq_refl) as H.
  split; [apply H | apply H].
Defined.

(** ** Genre aggregate *)

Lemma sum_Q_collabs (members : list with_collabs) :
  (sum_Q (map collab_Q members)
   == inject_Z (Z.of_nat (sum_list (map collab_count members))))%Q.
Proof.
  induction members as [|r members IH]; simpl; [reflexivity |].
  rewrite IH. unfold collab_Q.
  rewrite Nat2Z.inj_add, inject_Z_plus. reflexivity.
Qed.

(** C10. The genre aggregate has one entry for each of the ten canonical
    genres, in the order of the taxonomy; the value of a genre some dataset
    artist belongs to is the arithmetic mean of [collab_count] over the
    artists whose canonical genres contain it, and the value of a genre
    with no artist is 0. *)
Theorem genre_collaboration_stats_entries (top_artists_df : list with_collabs) :
  map fst (genre_collaboration_stats top_artists_df)
  = ["pop"; "rock"; "hip-hop"; "edm"; "r&b"; "country"; "jazz"; "classical"; "latin";
     "reggae"]
  ∧ ∀ genre avg,
      (genre, avg) ∈ genre_collaboration_stats top_artists_df →
      let members := filter (λ r, genre ∈ genres_of r) top_artists_df in
      match members with
      | [] => avg = 0%Q
      | _ => (avg == inject_Z (Z.of_nat (sum_list (map collab_count members)))
                     / inject_Z (Z.of_nat (length members)))%Q
      end.
Proof.
  split; [reflexivity |].
  intros genre avg Hin members.
  unfold genre_collaboration_stats in Hin.
  apply list_elem_of_fmap in Hin as (entry & [= -> ->] & _).
  fold members. unfold genre_artists. fold members.
  destruct members as [|r members'] eqn:E; [reflexivity |].
  rewrite <- E. unfold mean.
  destruct (map collab_Q members) eqn:E'.
  { rewrite E in E'. discriminate. }
  rewrite <- E'. simpl default.
  by rewrite sum_Q_collabs, length_map.
Qed.

(** ** Graph Engine *)

Lemma empty_graph_wf : graph_wf empty_graph.
Proof.
  split; intros n; unfold neighbours; simpl; rewrite ?lookup_empty.
  - split; [intros H; inversion H | intros [? ?]; done].
  - constructor.
Qed.

Lemma add_node_wf (u : string) (g : graph) : graph_wf g → graph_wf (add_node u g).
Proof.
  intros [Hdom Hnd]. unfold add_node. case_decide as Hu; [done |].
  split; intros n; unfold neighbours; simpl.
  - rewrite elem_of_app, list_elem_of_singleton, Hdom.
    destruct (decide (u = n)) as [-> | Hne].
    + rewrite lookup_insert_eq. split; [eauto | by right].
    + rewrite lookup_insert_ne by done. split; [intros [H | ->]; done | by left].
  - destruct (decide (u = n)) as [-> | Hne].
    + rewrite lookup_insert_eq. constructor.
    + rewrite lookup_insert_ne by done. apply Hnd.
Qed.

Lemma add_node_neighbours (u n : string) (g : graph) :
  graph_wf g → neighbours (add_node u g) n = neighbours g n.
Proof.
  intros [Hdom _]. unfold add_node. case_decide as Hu; [done |].
  unfold neighbours. simpl. destruct (decide (u = n)) as [-> | Hne].
  - rewrite lookup_insert_eq. rewrite Hdom in Hu.
    by destruct (adj g !! n) eqn:E; [exfalso; eauto |].
  - by rewrite lookup_insert_ne.
Qed.

Lemma add_node_elem (u : string) (g : graph) : u ∈ nodes (add_node u g).
Proof.
  unfold add_node. case_decide; [done |]. simpl.
  apply elem_of_app. right. left.
Qed.

Lemma add_node_mono (u n : string) (g : graph) : n ∈ nodes g → n ∈ nodes (add_node u g).
Proof.
  intros Hn. unfold add_node. case_decide; [done |]. simpl.
  apply elem_of_app. by left.
Qed.

Lemma add_neighbour_wf (u v : string) (g : graph) :
  graph_wf g → graph_wf (add_neighbour u v g).
Proof.
  intros [Hdom Hnd]. split; intros n; unfold neighbours; simpl.
  - rewrite Hdom, lookup_alter. case_decide; [| done].
    subst. by rewrite fmap_is_Some.
  - rewrite lookup_alter. case_decide as Hun; [| apply Hnd]. subst n.
    specialize (Hnd u). unfold neighbours in Hnd.
    destruct (adj g !! u) as [nbrs |]; simpl; [| constructor].
    simpl in Hnd. case_decide as Hv; [done |].
    apply NoDup_app. repeat split; [done | | apply NoDup_singleton].
    intros x Hx ->%list_elem_of_singleton. done.
Qed.

Lemma add_neighbour_neighbours (u v n x : string) (g : graph) :
  u ∈ nodes g → graph_wf g →
  x ∈ neighbours (add_neighbour u v g) n ↔ x ∈ neighbours g n ∨ (n = u ∧ x = v).
Proof.
  intros Hu [Hdom _]. apply Hdom in Hu as [nbrs Hnbrs].
  unfold neighbours. simpl. rewrite lookup_alter.
  case_decide as Hun.
  - subst n. rewrite Hnbrs. simpl. case_decide as Hv.
    + split; [by left | intros [H | [_ ->]]; done].
    + rewrite elem_of_app, list_elem_of_singleton.
      split; intros [H | H]; [by left | by right | by left | right; apply H].
  - split; [by left | intros [H | [-> _]]; done].
Qed.

Lemma add_edge_wf (g : graph) (e : edge) : graph_wf g → graph_wf (add_edge g e).
Proof.
  intros Hwf. unfold add_edge.
  by apply add_neighbour_wf, add_neighbour_wf, add_node_wf, add_node_wf.
Qed.

Lemma add_edge_neighbours (g : graph) (e : edge) (n x : string) :
  graph_wf g →
  x ∈ neighbours (add_edge g e) n
  ↔ x ∈ neighbours g n ∨ (n = e.1 ∧ x = e.2) ∨ (n = e.2 ∧ x = e.1).
Proof.
  intros Hwf. unfold add_edge.
  pose proof (add_node_wf e.1 g Hwf) as Hwf1.
  pose proof (add_node_wf e.2 _ Hwf1) as Hwf2.
  pose proof (add_neighbour_wf e.1 e.2 _ Hwf2) as Hwf3.
  rewrite add_neighbour_neighbours; [| apply add_node_elem | done].
  rewrite add_neighbour_neighbours;
    [| apply add_node_mono, add_node_elem | done].
  rewrite !add_node_neighbours by done.
  tauto.
Qed.

Lemma from_pandas_edgelist_snoc (edges_df : list edge) (e : edge) :
  from_pandas_edgelist (edges_df ++ [e]) = add_edge (from_pandas_edgelist edges_df) e.
Proof. unfold from_pandas_edgelist. by rewrite foldl_app. Qed.

Lemma from_pandas_edgelist_wf (edges_df : list edge) :
  graph_wf (from_pandas_edgelist edges_df).
Proof.
  induction edges_df as [|e es IH] using rev_ind; [apply empty_graph_wf |].
  rewrite from_pandas_edgelist_snoc. by apply add_edge_wf.
Qed.

Lemma elem_of_neighbour_set (edges_df : list edge) (n x : string) :
  x ∈ neighbour_set edges_df n ↔ (n, x) ∈ edges_df ∨ (x, n) ∈ edges_df.
Proof.
  unfold neighbour_set. rewrite elem_of_list_to_set, list_elem_of_In, in_flat_map.
  split.
  - intros ([u v] & He%list_elem_of_In & Hx%list_elem_of_In). simpl in Hx.
    apply elem_of_app in Hx as [Hx | Hx]; case_decide; subst;
      try (by inversion Hx); apply list_elem_of_singleton in Hx as ->; auto.
  - intros [He | He]; [exists (n, x) | exists (x, n)];
      (split; [by apply list_elem_of_In |]); apply list_elem_of_In; simpl;
      apply elem_of_app; [left | right]; rewrite decide_True by done; left.
Qed.

(** The neighbours the graph holds for a node are the nodes the edge rows
    join to it. *)
Lemma from_pandas_edgelist_neighbours (edges_df : list edge) (n x : string) :
  x ∈ neighbours (from_pandas_edgelist edges_df) n ↔ x ∈ neighbour_set edges_df n.
Proof.
  rewrite elem_of_neighbour_set.
  induction edges_df as [|e es IH] using rev_ind.
  - unfold neighbours. simpl. rewrite lookup_empty. simpl.
    split; [intros H | intros [H | H]]; inversion H.
  - rewrite from_pandas_edgelist_snoc,
      add_edge_neighbours by apply from_pandas_edgelist_wf.
    rewrite IH, !elem_of_app, !list_elem_of_singleton.
    destruct e as [u v]. simpl. split.
    + intros [[H | H] | [[-> ->] | [-> ->]]]; auto.
    + intros [[H | [= -> ->]] | [H | [= -> ->]]]; auto.
Qed.

Lemma degree_from_pandas_edgelist (edges_df : list edge) (n : string) :
  degree (from_pandas_edgelist edges_df) n
  = size (neighbour_set edges_df n)
    + (if decide ((n, n) ∈ edges_df) then 1 else 0).
Proof.
  unfold degree.
  set (nbrs := neighbours (from_pandas_edgelist edges_df) n).
  assert (Hset : list_to_set nbrs = neighbour_set edges_df n).
  { apply set_eq. intros x. rewrite elem_of_list_to_set.
    apply from_pandas_edgelist_neighbours. }
  rewrite <- Hset, size_list_to_set by apply from_pandas_edgelist_wf.
  f_equal.
  assert (Hself : n ∈ nbrs ↔ (n, n) ∈ edges_df).
  { unfold nbrs. rewrite from_pandas_edgelist_neighbours, elem_of_neighbour_set. tauto. }
  repeat case_decide; tauto.
Qed.

(** C8, as the code has it.  The degree of a node is the number of distinct
    nodes the edge rows join to it, and one more when a row joins the node
    to itself; it is the value the degree dictionary holds for the node, it
    does not depend on how often or in which order the rows appear, and
    for the rows (A,B), (A,B), (A,C) the degree of A is 2. *)
Theorem degree_counts_distinct_neighbours (edges_df : list edge) (n : string) :
  degree (from_pandas_edgelist edges_df) n
  = size (neighbour_set edges_df n) + (if decide ((n, n) ∈ edges_df) then 1 else 0)
  ∧ ((n, n) ∉ edges_df →
     degree (from_pandas_edgelist edges_df) n = size (neighbour_set edges_df n))
  ∧ (∀ nodes_df d, (n, d) ∈ degrees (setup_network nodes_df edges_df) →
                   d = degree (from_pandas_edgelist edges_df) n)
  ∧ (∀ edges_df', (∀ e, e ∈ edges_df ↔ e ∈ edges_df') →
                  degree (from_pandas_edgelist edges_df') n
                  = degree (from_pandas_edgelist edges_df) n)
  ∧ degree (from_pandas_edgelist [("A", "B"); ("A", "B"); ("A", "C")]) "A" = 2.
Proof.
  split; [apply degree_from_pandas_edgelist |]. split; [| split; [| split]].
  - intros Hno. rewrite degree_from_pandas_edgelist, decide_False by done. lia.
  - intros nodes_df d Hd. simpl in Hd. unfold degree_dict in Hd.
    by apply list_elem_of_fmap in Hd as (n' & [= -> ->] & _).
  - intros edges_df' Hsame. rewrite !degree_from_pandas_edgelist.
    assert (Hset : neighbour_set edges_df' n = neighbour_set edges_df n).
    { apply set_eq. intros x. rewrite !elem_of_neighbour_set, !Hsame. done. }
    rewrite Hset. f_equal.
    destruct (decide ((n, n) ∈ edges_df')) as [H1 | H1],
             (decide ((n, n) ∈ edges_df)) as [H2 | H2]; try done; exfalso.
    + by apply H2, Hsame.
    + by apply H1, Hsame.
  - vm_compute. reflexivity.
Qed.

(** C8 as stated fails: a row that joins a node to itself gives the node one
    distinct neighbour and degree 2. *)
Lemma degree_of_self_loop :
  degrees (setup_network [] [("A", "A")]) = [("A", 2)]
  ∧ size (neighbour_set [("A", "A")] "A") = 1.
Proof. split; vm_compute; reflexivity. Qed.

(** ** Element builders *)

Lemma dict_get_present {V : Type} (d : list (string * V)) (k : string) :
  k ∈ d.*1 → ∃ v, dict_get d k = Ok v.
Proof.
  unfold dict_get. induction d as [|[k' v'] d IH]; intros Hk; [inversion Hk |].
  destruct (decide (k' = k)) as [-> | Hne].
  - rewrite filter_cons_True by done. eauto.
  - rewrite filter_cons_False by done. apply IH.
    rewrite fmap_cons in Hk. by apply elem_of_cons in Hk as [-> | Hk].
Qed.

Lemma degree_dict_keys (g : graph) : (degree_dict g).*1 = nodes g.
Proof.
  unfold degree_dict.
  induction (nodes g) as [|n ns IH]; [done |]. simpl. by f_equal.
Qed.

Lemma artist_info_missing (self : app) (id : string) :
  (∀ r, r ∈ nodes_df self → spotify_id r ≠ id) → artist_info self id = Raise IndexError.
Proof.
  intros Hmiss. unfold artist_info.
  destruct (filter (λ r, spotify_id r = id) (nodes_df self)) as [|r rows] eqn:E; [done |].
  exfalso. assert (Hr : r ∈ filter (λ r, spotify_id r = id) (nodes_df self))
    by (rewrite E; left).
  apply list_elem_of_filter in Hr as [Hid Hr]. by apply (Hmiss r).
Qed.

Lemma artist_info_cases (self : app) (id : string) :
  (∃ r, artist_info self id = Ok r) ∨ artist_info self id = Raise IndexError.
Proof.
  unfold artist_info. destruct (filter _ _); [by right | left; eauto].
Qed.

(** *** The subgraph view *)

Lemma set_iter_Permutation (slot : list string → string → Z) (l : list string) :
  set_iter slot l ≡ₚ remove_dups l.
Proof. apply sort_rows_Permutation. Qed.

Lemma elem_of_set_iter (slot : list string → string → Z) (l : list string) (x : string) :
  x ∈ set_iter slot l ↔ x ∈ l.
Proof. by rewrite set_iter_Permutation, elem_of_remove_dups. Qed.

Lemma NoDup_set_iter (slot : list string → string → Z) (l : list string) :
  NoDup (set_iter slot l).
Proof. rewrite set_iter_Permutation. apply NoDup_remove_dups. Qed.

(** The nodes of the view are the identifiers that are nodes of the graph. *)
Lemma elem_of_subgraph_nodes (slot : list string → string → Z) (g : graph)
    (node_ids : list string) (n : string) :
  n ∈ nodes (subgraph slot g node_ids) ↔ n ∈ node_ids ∧ n ∈ nodes g.
Proof.
  unfold subgraph. simpl. case_match.
  - rewrite elem_of_set_iter, list_elem_of_filter. tauto.
  - rewrite list_elem_of_filter, elem_of_set_iter, list_elem_of_filter. tauto.
Qed.

(** C1, as the code has it.  When an identifier handed to an element
    builder is a graph node with no row in the attribute table, the lookup
    raises [IndexError] and the builder returns nothing: no element is built
    with default attribute values, and the exception reaches the caller. *)
Theorem missing_attribute_row_raises (nodes_df : list artist) (edges_df : list edge)
    (artist_ids : list string) (id : string) :
  let self := setup_network nodes_df edges_df in
  (∀ i, i ∈ artist_ids → i ∈ nodes (G self)) →
  id ∈ artist_ids →
  (∀ r, r ∈ nodes_df → spotify_id r ≠ id) →
  artist_info self id = Raise IndexError
  ∧ create_network_elements self artist_ids = Raise IndexError
  ∧ ∀ (C : Type) (pos_3d : string → C) (slot : list string → string → Z),
      create_3d_network pos_3d slot self artist_ids = Raise IndexError.
Proof.
  intros self Hnodes Hin Hmiss.
  assert (Hinfo : artist_info self id = Raise IndexError)
    by (by apply artist_info_missing).
  assert (Hsize : ∀ i, i ∈ nodes (G self) → ∃ d, dict_get (degrees self) i = Ok d).
  { intros i Hi. apply dict_get_present. simpl. by rewrite degree_dict_keys. }
  split; [done |]. split.
  - unfold create_network_elements.
    rewrite (for_each_raises (node_element self) IndexError artist_ids id); [done | | done |].
    + intros i Hi. unfold node_element.
      destruct (artist_info_cases self i) as [[r ->] | ->]; [| by right].
      destruct (Hsize i (Hnodes i Hi)) as [d ->]. left. eauto.
    + unfold node_element. by rewrite Hinfo.
  - intros C pos_3d slot. unfold create_3d_network.
    rewrite (for_each_raises (node_marker pos_3d self) IndexError _ id); [done | | |].
    + intros i Hi. apply elem_of_subgraph_nodes in Hi as [_ Hi]. unfold node_marker.
      destruct (artist_info_cases self i) as [[r ->] | ->]; [| by right].
      destruct (Hsize i Hi) as [d ->]. left. eauto.
    + apply elem_of_subgraph_nodes. split; [done | by apply Hnodes].
    + unfold node_marker. by rewrite Hinfo.
Qed.

Lemma missing_attribute_row_raises_witness :
  create_network_elements
    (setup_network [Sample.alice; Sample.bob] Sample.collaborations) ["A"; "C"]
  = Raise IndexError.
Proof.
  refine (proj1 (proj2 (missing_attribute_row_raises
                          [Sample.alice; Sample.bob] Sample.collaborations
                          ["A"; "C"] "C" _ _ _))).
  - intros i Hi. apply (bool_decide_unpack _).
    apply elem_of_cons in Hi as [-> | Hi]; [reflexivity |].
    apply list_elem_of_singleton in Hi as ->. reflexivity.
  - right; left.
  - intros r Hr.
    apply elem_of_cons in Hr as [-> | Hr]; [discriminate |].
    apply list_elem_of_singleton in Hr as ->. discriminate.
Defined.

(** C1 as stated fails: the graph node C has no row in the attribute table,
    and both builders raise on it instead of returning. *)
Lemma element_builders_raise_on_missing_row :
  create_network_elements
    (setup_network [Sample.alice; Sample.bob] Sample.collaborations) ["A"; "C"]
  = Raise IndexError
  ∧ create_3d_network (λ node, node) (λ _ _, 0%Z)
      (setup_network [Sample.alice; Sample.bob] Sample.collaborations) ["A"; "C"]
    = Raise IndexError.
Proof. split; vm_compute; reflexivity. Qed.

(* ===================================================================== *)
(** * Part III. Further properties of the code                            *)
(* ===================================================================== *)

(** ** The callbacks on the sample *)

Example filtered_artists_example :
  let self := setup_network Sample.artists Sample.collaborations in
  filtered_artists self 0 100 [] = Ok ["A"; "B"; "C"]
  ∧ filtered_artists self 75 100 ["hip-hop"] = Ok ["B"]
  ∧ filtered_artists self 0 100 ["rock"; "pop"] = Ok ["A"; "B"; "C"]
  ∧ filtered_artists self 0 100 ["polka"] = Raise KeyError
  ∧ get_top_artists self 2 = ["B"; "A"].
Proof. vm_compute. repeat split. Qed.

Example update_network_example :
  let self := setup_network Sample.artists Sample.collaborations in
  update_network self 2 75 100 ["pop"]
  = Ok [NodeElement (NodeData "B" "Bob" 2 2000 80 ["k-pop"; "trap"] "Bob");
        NodeElement (NodeData "A" "Alice" 1 1000 90 ["pop"] "Alice");
        EdgeElement "A" "B"].
Proof. vm_compute. reflexivity. Qed.

(** ** Ranking: [nlargest], [sort_values], [sorted] *)

Lemma insert_row_descending {A : Type} (key : A → Z) (x : A) (l : list A) :
  StronglySorted (descending key) l →
  StronglySorted (descending key) (insert_row (λ x y, (key y <=? key x)%Z) x l).
Proof.
  induction 1 as [|y l Hl IH Hy]; simpl.
  - repeat constructor.
  - destruct (Z.leb_spec (key y) (key x)) as [Hle | Hgt].
    + constructor; [by constructor |].
      constructor; [done |].
      eapply Forall_impl; [exact Hy |]. unfold descending. intros z Hz. simpl in Hz. lia.
    + constructor; [done |].
      rewrite (insert_row_Permutation _ x l).
      constructor; [unfold descending; lia | done].
Qed.

Lemma sort_desc_descending {A : Type} (key : A → Z) (l : list A) :
  StronglySorted (descending key) (sort_desc key l).
Proof.
  unfold sort_desc, sort_rows. induction l as [|x l IH]; simpl; [constructor |].
  by apply insert_row_descending.
Qed.

Lemma StronglySorted_sublist {A : Type} (R : A → A → Prop) (l1 l2 : list A) :
  l1 `sublist_of` l2 → StronglySorted R l2 → StronglySorted R l1.
Proof.
  induction 1 as [|x l1 l2 Hsub IH|x l1 l2 Hsub IH]; intros Hs; [done | |].
  - apply StronglySorted_inv in Hs as [Hs Hx].
    constructor; [by apply IH |].
    eapply Forall_forall. intros y Hy. rewrite Forall_forall in Hx.
    apply Hx. by eapply sublist_subseteq.
  - apply StronglySorted_inv in Hs as [Hs _]. by apply IH.
Qed.

Lemma StronglySorted_app_inv {A : Type} (R : A → A → Prop) (l1 l2 : list A) :
  StronglySorted R (l1 ++ l2) → ∀ x y, x ∈ l1 → y ∈ l2 → R x y.
Proof.
  induction l1 as [|a l1 IH]; intros Hs x y Hx Hy; [inversion Hx |].
  simpl in Hs. apply StronglySorted_inv in Hs as [Hs Ha].
  apply elem_of_cons in Hx as [-> | Hx]; [| by apply IH].
  rewrite Forall_forall in Ha. apply Ha, elem_of_app. by right.
Qed.

(** [nlargest(n, key)] returns [min n (len)] rows of the frame, by
    decreasing key, and no row it leaves out has a larger key than a row it
    returns. *)
Lemma nlargest_rows {A : Type} (n : nat) (key : A → Z) (l : list A) :
  length (nlargest n key l) = n `min` length l
  ∧ StronglySorted (descending key) (nlargest n key l)
  ∧ ∃ rest, l ≡ₚ nlargest n key l ++ rest
            ∧ ∀ x y, x ∈ nlargest n key l → y ∈ rest → (key y ≤ key x)%Z.
Proof.
  unfold nlargest. split; [| split].
  - by rewrite length_take, sort_desc_length.
  - eapply StronglySorted_sublist; [apply sublist_take | apply sort_desc_descending].
  - exists (drop n (sort_desc key l)). split.
    + by rewrite take_drop, sort_desc_Permutation.
    + intros x y Hx Hy.
      apply (StronglySorted_app_inv (descending key)
               (take n (sort_desc key l)) (drop n (sort_desc key l))); [| done..].
      rewrite take_drop. apply sort_desc_descending.
Qed.

(** ** The graph built from the edge rows *)

Lemma add_node_nodes (u n : string) (g : graph) :
  n ∈ nodes (add_node u g) ↔ n ∈ nodes g ∨ n = u.
Proof.
  unfold add_node. case_decide as Hu; simpl.
  - split; [by left | intros [H | ->]; done].
  - by rewrite elem_of_app, list_elem_of_singleton.
Qed.

Lemma add_node_NoDup (u : string) (g : graph) :
  NoDup (nodes g) → NoDup (nodes (add_node u g)).
Proof.
  intros Hnd. unfold add_node. case_decide as Hu; [done |]. simpl.
  apply NoDup_app. repeat split; [done | | apply NoDup_singleton].
  by intros x Hx ->%list_elem_of_singleton.
Qed.

Lemma add_edge_nodes (g : graph) (e : edge) (n : string) :
  n ∈ nodes (add_edge g e) ↔ n ∈ nodes g ∨ n = e.1 ∨ n = e.2.
Proof.
  unfold add_edge. simpl. rewrite !add_node_nodes. tauto.
Qed.

Lemma add_edge_NoDup (g : graph) (e : edge) :
  NoDup (nodes g) → NoDup (nodes (add_edge g e)).
Proof. intros Hnd. unfold add_edge. simpl. by do 2 apply add_node_NoDup. Qed.

Lemma from_pandas_edgelist_NoDup (edges_df : list edge) :
  NoDup (nodes (from_pandas_edgelist edges_df)).
Proof.
  induction edges_df as [|e es IH] using rev_ind; [constructor |].
  rewrite from_pandas_edgelist_snoc. by apply add_edge_NoDup.
Qed.

Lemma from_pandas_edgelist_nodes (edges_df : list edge) (n : string) :
  n ∈ nodes (from_pandas_edgelist edges_df)
  ↔ ∃ e, e ∈ edges_df ∧ (n = e.1 ∨ n = e.2).
Proof.
  induction edges_df as [|e es IH] using rev_ind.
  - simpl. split; [intros H; inversion H | intros (e & He & _); inversion He].
  - rewrite from_pandas_edgelist_snoc, add_edge_nodes, IH. split.
    + intros [(e' & He' & Hn) | Hn].
      * exists e'. split; [apply elem_of_app; by left | done].
      * exists e. split; [apply elem_of_app; right; left | done].
    + intros (e' & He' & Hn). apply elem_of_app in He' as [He' | He'].
      * left. eauto.
      * apply list_elem_of_singleton in He' as ->. by right.
Qed.

Lemma neighbours_of_edge_rows (edges_df : list edge) (u v : string) :
  v ∈ neighbours (from_pandas_edgelist edges_df) u
  ↔ (u, v) ∈ edges_df ∨ (v, u) ∈ edges_df.
Proof. by rewrite from_pandas_edgelist_neighbours, elem_of_neighbour_set. Qed.

(** X2. The graph has one node for each identifier that stands in an edge
    row and no other; a node is listed once; adjacency is symmetric and
    holds exactly the pairs the rows join, so every node has a neighbour
    and a degree of at least 1. *)
Theorem graph_of_edge_rows (edges_df : list edge) :
  let g := from_pandas_edgelist edges_df in
  NoDup (nodes g)
  ∧ (∀ n, n ∈ nodes g ↔ ∃ e, e ∈ edges_df ∧ (n = e.1 ∨ n = e.2))
  ∧ (∀ u v, v ∈ neighbours g u ↔ (u, v) ∈ edges_df ∨ (v, u) ∈ edges_df)
  ∧ (∀ u v, v ∈ neighbours g u ↔ u ∈ neighbours g v)
  ∧ (∀ n, n ∈ nodes g → 1 ≤ degree g n).
Proof.
  intros g.
  assert (Hadj : ∀ u v, v ∈ neighbours g u ↔ (u, v) ∈ edges_df ∨ (v, u) ∈ edges_df)
    by apply neighbours_of_edge_rows.
  split; [apply from_pandas_edgelist_NoDup |].
  split; [apply from_pandas_edgelist_nodes |].
  split; [exact Hadj |]. split.
  - intros u v. rewrite !Hadj. tauto.
  - intros n Hn. apply from_pandas_edgelist_nodes in Hn as ([u v] & He & Hn).
    simpl in Hn. unfold degree.
    assert (Hnb : ∃ x, x ∈ neighbours g n).
    { destruct Hn as [-> | ->]; [exists v | exists u]; apply Hadj; auto. }
    destruct Hnb as [x Hx]. destruct (neighbours g n); [inversion Hx | simpl; lia].
Qed.

(** ** [get_top_artists] *)

Lemma StronglySorted_map_in {A B : Type} (R : A → A → Prop) (R' : B → B → Prop)
    (f : A → B) (l : list A) :
  (∀ x y, x ∈ l → y ∈ l → R x y → R' (f x) (f y)) →
  StronglySorted R l → StronglySorted R' (map f l).
Proof.
  intros Himp Hs. induction Hs as [|x l Hs IH Hx]; simpl; [constructor |].
  constructor.
  - apply IH. intros a b Ha Hb. apply Himp; by right.
  - apply Forall_forall. intros b Hb.
    apply list_elem_of_fmap in Hb as (a & -> & Ha).
    rewrite Forall_forall in Hx. apply Himp; [left | by right | by apply Hx].
Qed.

Lemma elem_of_degree_dict (g : graph) (n : string) (d : nat) :
  (n, d) ∈ degree_dict g ↔ n ∈ nodes g ∧ d = degree g n.
Proof.
  unfold degree_dict. rewrite list_elem_of_fmap. split.
  - intros (n' & [= -> ->] & Hn). done.
  - intros [Hn ->]. by exists n.
Qed.

Lemma get_top_artists_spec (nodes_df : list artist) (edges_df : list edge) (n : nat) :
  let self := setup_network nodes_df edges_df in
  let key := λ a, Z.of_nat (degree (G self) a) in
  length (get_top_artists self n) = n `min` length (nodes (G self))
  ∧ NoDup (get_top_artists self n)
  ∧ StronglySorted (descending key) (get_top_artists self n)
  ∧ (∃ rest, nodes (G self) ≡ₚ get_top_artists self n ++ rest
             ∧ ∀ a b, a ∈ get_top_artists self n → b ∈ rest → (key b ≤ key a)%Z)
  ∧ (length (nodes (G self)) ≤ n → get_top_artists self n ≡ₚ nodes (G self)).
Proof.
  intros self key.
  set (g := from_pandas_edgelist edges_df).
  change (G self) with g in *.
  set (dkey := λ kv : string * nat, Z.of_nat kv.2).
  destruct (nlargest_rows n dkey (degree_dict g)) as (Hlen & Hsorted & rest & Hperm & Hrest).
  assert (Hkeys : map fst (degree_dict g) = nodes g) by apply degree_dict_keys.
  assert (Hval : ∀ kv, kv ∈ degree_dict g → dkey kv = key kv.1).
  { intros [a d] Hd. apply elem_of_degree_dict in Hd as [_ ->]. done. }
  assert (Htop : get_top_artists self n = map fst (nlargest n dkey (degree_dict g))) by done.
  assert (Hsub : ∀ kv, kv ∈ nlargest n dkey (degree_dict g) → kv ∈ degree_dict g).
  { intros kv Hkv. rewrite Hperm. apply elem_of_app. by left. }
  assert (Hnodes : nodes g ≡ₚ get_top_artists self n ++ map fst rest).
  { rewrite Htop, <- map_app, <- Hkeys. by apply Permutation_map. }
  rewrite Htop. split; [| split; [| split; [| split]]].
  - rewrite length_map, Hlen. f_equal. by rewrite <- Hkeys, length_map.
  - assert (Hnd : NoDup (nodes g)) by apply from_pandas_edgelist_NoDup.
    rewrite Hnodes in Hnd. apply NoDup_app in Hnd as [Hnd _]. exact Hnd.
  - eapply StronglySorted_map_in; [| exact Hsorted].
    intros x y Hx Hy. unfold descending.
    by rewrite (Hval x (Hsub x Hx)), (Hval y (Hsub y Hy)).
  - exists (map fst rest). split; [by rewrite <- Htop |].
    intros a b Ha Hb.
    apply list_elem_of_fmap in Ha as (x & -> & Hx).
    apply list_elem_of_fmap in Hb as (y & -> & Hy).
    rewrite <- (Hval x (Hsub x Hx)), <- (Hval y).
    + by apply Hrest.
    + rewrite Hperm. apply elem_of_app. by right.
  - intros Hn. rewrite <- Hkeys. apply Permutation_map.
    unfold nlargest. rewrite take_ge; [apply sort_desc_Permutation |].
    by rewrite sort_desc_length, <- (length_map fst), Hkeys.
Qed.

(** X3. [get_top_artists(n)] returns [min n (number of nodes)] distinct
    nodes of the graph, by decreasing degree, none left out having a larger
    degree than one returned; with [n] at least the number of nodes it
    returns every node. *)
Theorem get_top_artists_by_degree (nodes_df : list artist) (edges_df : list edge) (n : nat) :
  let self := setup_network nodes_df edges_df in
  let key := λ a, Z.of_nat (degree (G self) a) in
  length (get_top_artists self n) = n `min` length (nodes (G self))
  ∧ NoDup (get_top_artists self n)
  ∧ StronglySorted (descending key) (get_top_artists self n)
  ∧ (∃ rest, nodes (G self) ≡ₚ get_top_artists self n ++ rest
             ∧ ∀ a b, a ∈ get_top_artists self n → b ∈ rest → (key b ≤ key a)%Z)
  ∧ (length (nodes (G self)) ≤ n → get_top_artists self n ≡ₚ nodes (G self)).
Proof. apply get_top_artists_spec. Qed.

Lemma get_top_artists_by_degree_witness :
  get_top_artists (setup_network Sample.artists Sample.collaborations) 5
  ≡ₚ nodes (G (setup_network Sample.artists Sample.collaborations)).
Proof.
  apply (get_top_artists_by_degree Sample.artists Sample.collaborations 5).
  vm_compute. lia.
Defined.

(** ** [G.edges()] *)

Lemma elem_of_edges_from_head (g : graph) (seen : list string) (n u v : string) :
  (u, v) ∈ map (λ nbr, (n, nbr)) (filter (λ nbr, nbr ∉ seen) (neighbours g n))
  ↔ u = n ∧ v ∈ neighbours g n ∧ v ∉ seen.
Proof.
  rewrite list_elem_of_fmap. split.
  - intros (nbr & [= -> ->] & Hnbr). apply list_elem_of_filter in Hnbr. tauto.
  - intros (-> & Hv & Hseen). exists v. split; [done |].
    by apply list_elem_of_filter.
Qed.

Lemma edges_from_inv (g : graph) (seen ns : list string) (u v : string) :
  (u, v) ∈ edges_from g seen ns → u ∈ ns ∧ v ∈ neighbours g u ∧ v ∉ seen.
Proof.
  revert seen. induction ns as [|n ns IH]; intros seen Hin; [inversion Hin |].
  simpl in Hin. apply elem_of_app in Hin as [Hin | Hin].
  - apply elem_of_edges_from_head in Hin as (-> & Hv & Hseen).
    split; [left | done].
  - apply IH in Hin as (Hu & Hv & Hseen).
    split; [by right |]. split; [done |].
    intros Hs. apply Hseen. by right.
Qed.

Lemma edges_from_covers (g : graph) (seen ns : list string) (u v : string) :
  u ∈ ns → v ∈ ns → v ∈ neighbours g u → u ∈ neighbours g v →
  u ∉ seen → v ∉ seen →
  (u, v) ∈ edges_from g seen ns ∨ (v, u) ∈ edges_from g seen ns.
Proof.
  revert seen. induction ns as [|n ns IH]; intros seen Hu Hv Huv Hvu Hsu Hsv;
    [inversion Hu |].
  simpl. rewrite !elem_of_app, !elem_of_edges_from_head.
  destruct (decide (u = n)) as [-> | Hun]; [left; left; done |].
  destruct (decide (v = n)) as [-> | Hvn]; [right; left; done |].
  apply elem_of_cons in Hu as [-> | Hu]; [done |].
  apply elem_of_cons in Hv as [-> | Hv]; [done |].
  destruct (IH (n :: seen)) as [H | H]; try done.
  - by apply not_elem_of_cons.
  - by apply not_elem_of_cons.
  - left. by right.
  - right. by right.
Qed.

Lemma edges_from_one_orientation (g : graph) (seen ns : list string) (u v : string) :
  u ≠ v → (u, v) ∈ edges_from g seen ns → (v, u) ∉ edges_from g seen ns.
Proof.
  revert seen. induction ns as [|n ns IH]; intros seen Hne Huv Hvu; [inversion Huv |].
  simpl in Huv, Hvu.
  apply elem_of_app in Huv as [Huv | Huv]; apply elem_of_app in Hvu as [Hvu | Hvu].
  - apply elem_of_edges_from_head in Huv as (-> & _).
    apply elem_of_edges_from_head in Hvu as (-> & _). done.
  - apply elem_of_edges_from_head in Huv as (-> & _).
    apply edges_from_inv in Hvu as (_ & _ & Hseen). apply Hseen. left.
  - apply elem_of_edges_from_head in Hvu as (-> & _).
    apply edges_from_inv in Huv as (_ & _ & Hseen). apply Hseen. left.
  - by apply (IH (n :: seen)).
Qed.

Lemma edges_from_NoDup (g : graph) (seen ns : list string) :
  NoDup ns → (∀ n, NoDup (neighbours g n)) → NoDup (edges_from g seen ns).
Proof.
  intros Hns Hnb. revert seen. induction Hns as [|n ns Hn Hns IH]; intros seen;
    [constructor |].
  simpl. apply NoDup_app. repeat split.
  - apply NoDup_fmap_2; [| by apply NoDup_filter].
    intros a b [= ->]. done.
  - intros [u v] Hhead Htail.
    apply elem_of_edges_from_head in Hhead as (-> & _).
    by apply edges_from_inv in Htail as (Hu & _).
  - apply IH.
Qed.

(** X4. [G.edges()] lists every collaboration of the edge rows once: each
    edge it lists joins two artists some row joins, each pair some row
    joins is listed in one of its two orientations, never in both, and no
    edge is listed twice. *)
Theorem graph_edges_once (edges_df : list edge) :
  let g := from_pandas_edgelist edges_df in
  NoDup (graph_edges g)
  ∧ (∀ u v, (u, v) ∈ graph_edges g → (u, v) ∈ edges_df ∨ (v, u) ∈ edges_df)
  ∧ (∀ u v, (u, v) ∈ edges_df → (u, v) ∈ graph_edges g ∨ (v, u) ∈ graph_edges g)
  ∧ (∀ u v, u ≠ v → (u, v) ∈ graph_edges g → (v, u) ∉ graph_edges g).
Proof.
  intros g.
  assert (Hnodes : ∀ n, n ∈ nodes g ↔ ∃ e, e ∈ edges_df ∧ (n = e.1 ∨ n = e.2))
    by apply from_pandas_edgelist_nodes.
  assert (Hadj : ∀ u v, v ∈ neighbours g u ↔ (u, v) ∈ edges_df ∨ (v, u) ∈ edges_df)
    by apply neighbours_of_edge_rows.
  unfold graph_edges. split; [| split; [| split]].
  - apply edges_from_NoDup; [apply from_pandas_edgelist_NoDup |].
    apply from_pandas_edgelist_wf.
  - intros u v Hin. apply edges_from_inv in Hin as (_ & Hv & _). by apply Hadj.
  - intros u v He. apply edges_from_covers.
    + apply Hnodes. exists (u, v). split; [done | by left].
    + apply Hnodes. exists (u, v). split; [done | by right].
    + apply Hadj. by left.
    + apply Hadj. by right.
    + intros H; inversion H.
    + intros H; inversion H.
  - intros u v. apply edges_from_one_orientation.
Qed.

(** ** Degree and collaboration count *)

Lemma neighbour_set_cons (e : edge) (es : list edge) (n : string) :
  neighbour_set (e :: es) n
  = list_to_set ((if decide (e.1 = n) then [e.2] else [])
                 ++ (if decide (e.2 = n) then [e.1] else []))
    ∪ neighbour_set es n.
Proof. unfold neighbour_set. simpl. by rewrite list_to_set_app_L. Qed.

Lemma size_add_le (x : string) (X : gset string) : size ({[ x ]} ∪ X) ≤ S (size X).
Proof.
  rewrite size_union_alt, size_singleton.
  assert (Hsub : X ∖ {[ x ]} ⊆ X) by (intros y Hy; by apply elem_of_difference in Hy as [Hy _]).
  apply subseteq_size in Hsub. lia.
Qed.

Lemma size_add_new (x : string) (X : gset string) : x ∉ X → size ({[ x ]} ∪ X) = S (size X).
Proof.
  intros Hx. rewrite size_union; [by rewrite size_singleton |].
  intros y Hy%elem_of_singleton Hy'. by subst.
Qed.

Lemma self_loop_cons (u v n : string) (es : list edge) :
  u ≠ n ∨ v ≠ n → (n, n) ∈ (u, v) :: es ↔ (n, n) ∈ es.
Proof.
  intros Hne. rewrite elem_of_cons. split; [| by right].
  intros [[= <- <-] | H]; [by destruct Hne | done].
Qed.

Lemma degree_of_rows_cons_le (e : edge) (es : list edge) (n : string) :
  degree_of_rows (e :: es) n
  ≤ (if decide (e.1 = n) then 1 else 0) + (if decide (e.2 = n) then 1 else 0)
    + degree_of_rows es n.
Proof.
  unfold degree_of_rows. rewrite neighbour_set_cons. destruct e as [u v]. simpl.
  destruct (decide (u = n)) as [-> | Hu], (decide (v = n)) as [-> | Hv]; simpl;
    rewrite ?union_empty_r_L, ?union_empty_l_L, ?union_idemp_L.
  - pose proof (size_add_le n (neighbour_set es n)).
    repeat case_decide; lia.
  - pose proof (size_add_le v (neighbour_set es n)).
    pose proof (self_loop_cons n v n es (or_intror Hv)).
    repeat case_decide; first [lia | exfalso; tauto].
  - pose proof (size_add_le u (neighbour_set es n)).
    pose proof (self_loop_cons u n n es (or_introl Hu)).
    repeat case_decide; first [lia | exfalso; tauto].
  - pose proof (self_loop_cons u v n es (or_introl Hu)).
    repeat case_decide; first [lia | exfalso; tauto].
Qed.

Lemma existsb_same_pair_false (e : edge) (es : list edge) :
  existsb (same_pair e) es = false → (e ∉ es) ∧ ((e.2, e.1) ∉ es).
Proof.
  intros Hex. split; intros Hin.
  - assert (existsb (same_pair e) es = true); [| congruence].
    apply existsb_exists. exists e. split; [by apply list_elem_of_In |].
    unfold same_pair. by rewrite bool_decide_eq_true_2.
  - assert (existsb (same_pair e) es = true); [| congruence].
    apply existsb_exists. exists (e.2, e.1). split; [by apply list_elem_of_In |].
    unfold same_pair. simpl. rewrite (bool_decide_eq_true_2 (e = (e.1, e.2))); [| by destruct e].
    apply orb_true_r.
Qed.

Lemma collapse_length (es : list edge) : length (collapse es) ≤ length es.
Proof.
  induction es as [|e es IH]; simpl; [done |].
  destruct (existsb _ _); simpl; lia.
Qed.

Lemma collapse_fixed_cons (e : edge) (es : list edge) :
  collapse (e :: es) = e :: es → collapse es = es ∧ (e ∉ es) ∧ ((e.2, e.1) ∉ es).
Proof.
  simpl. destruct (existsb (same_pair e) (collapse es)) eqn:Hex.
  - intros Heq. pose proof (collapse_length es) as Hlen.
    rewrite Heq in Hlen. simpl in Hlen. lia.
  - intros [= Heq]. rewrite Heq in Hex. split; [done |].
    by apply existsb_same_pair_false.
Qed.

Lemma degree_of_rows_cons_eq (e : edge) (es : list edge) (n : string) :
  e ∉ es → (e.2, e.1) ∉ es →
  degree_of_rows (e :: es) n
  = (if decide (e.1 = n) then 1 else 0) + (if decide (e.2 = n) then 1 else 0)
    + degree_of_rows es n.
Proof.
  intros He Hswap. unfold degree_of_rows. rewrite neighbour_set_cons.
  destruct e as [u v]. simpl in *.
  destruct (decide (u = n)) as [-> | Hu], (decide (v = n)) as [-> | Hv]; simpl;
    rewrite ?union_empty_r_L, ?union_empty_l_L, ?union_idemp_L.
  - rewrite size_add_new by (rewrite elem_of_neighbour_set; tauto).
    assert ((n, n) ∈ (n, n) :: es) by left.
    repeat case_decide; first [lia | exfalso; tauto].
  - rewrite size_add_new by (rewrite elem_of_neighbour_set; tauto).
    pose proof (self_loop_cons n v n es (or_intror Hv)).
    repeat case_decide; first [lia | exfalso; tauto].
  - rewrite size_add_new by (rewrite elem_of_neighbour_set; tauto).
    pose proof (self_loop_cons u n n es (or_introl Hu)).
    repeat case_decide; first [lia | exfalso; tauto].
  - pose proof (self_loop_cons u v n es (or_introl Hu)).
    repeat case_decide; first [lia | exfalso; tauto].
Qed.

(** X5. The degree of a node in the graph is never larger than the
    collaboration count stage 6 joins for the same identifier, and the two
    are equal when no collaboration stands twice in the edge rows, in
    either orientation. *)
Theorem degree_le_collab_count (edges_df : list edge) (n : string) :
  degree (from_pandas_edgelist edges_df) n ≤ appearances edges_df n
  ∧ (collapse edges_df = edges_df →
     degree (from_pandas_edgelist edges_df) n = appearances edges_df n)
  ∧ ∀ r, id_of_hits r = n →
         map collab_count (merge_collabs edges_df [r]) = [appearances edges_df n].
Proof.
  rewrite degree_from_pandas_edgelist. fold (degree_of_rows edges_df n).
  split; [| split].
  - induction edges_df as [|e es IH]; [done |].
    etrans; [apply degree_of_rows_cons_le |].
    unfold appearances in *. simpl. lia.
  - induction edges_df as [|e es IH]; [done |].
    intros (Hes & He & Hswap)%collapse_fixed_cons.
    rewrite degree_of_rows_cons_eq, IH by done.
    unfold appearances. simpl. lia.
  - intros r <-. by rewrite merge_collabs_rows.
Qed.

Lemma degree_le_collab_count_witness :
  degree (from_pandas_edgelist Sample.collaborations) "B"
  = appearances Sample.collaborations "B".
Proof.
  apply (degree_le_collab_count Sample.collaborations "B"). reflexivity.
Defined.

(** ** Loops that may raise *)

Lemma for_each_Ok_Forall2 {A B : Type} (f : A → outcome B) (l : list A) (ys : list B) :
  for_each f l = Ok ys ↔ Forall2 (λ x y, f x = Ok y) l ys.
Proof.
  revert ys. induction l as [|x l IH]; intros ys; simpl.
  - split; [intros [= <-]; constructor | intros H; by inversion H].
  - split.
    + intros (y & ys' & Hx & Hl & ->)%for_each_cons_Ok.
      constructor; [done | by apply IH].
    + intros H. inversion H as [|? y ? ys' Hx Hl]; subst.
      apply IH in Hl. by rewrite Hx, Hl.
Qed.

Lemma for_each_Ok_all {A B : Type} (f : A → outcome B) (l : list A) :
  (∀ x, x ∈ l → ∃ y, f x = Ok y) → ∃ ys, for_each f l = Ok ys.
Proof.
  induction l as [|x l IH]; intros Hall; [by exists [] |].
  destruct (Hall x) as [y Hy]; [left |].
  destruct IH as [ys Hys]; [intros x' Hx'; apply Hall; by right |].
  exists (y :: ys). simpl. by rewrite Hy, Hys.
Qed.

Lemma bind_Ok {A B : Type} (a : A) (k : A → outcome B) : (Ok a ≫= k) = k a.
Proof. reflexivity. Qed.

Lemma bind_Raise {A B : Type} (e : exn) (k : A → outcome B) : (Raise e ≫= k) = Raise e.
Proof. reflexivity. Qed.

Lemma for_each_cons {A B : Type} (f : A → outcome B) (x : A) (l : list A) :
  for_each f (x :: l) = y ← f x ; ys ← for_each f l ; Ok (y :: ys).
Proof. reflexivity. Qed.

Lemma for_each_app {A B : Type} (f : A → outcome B) (l1 l2 : list A) :
  for_each f (l1 ++ l2)
  = ys1 ← for_each f l1 ; ys2 ← for_each f l2 ; Ok (ys1 ++ ys2).
Proof.
  induction l1 as [|x l1 IH]; simpl.
  - by destruct (for_each f l2).
  - destruct (f x) as [y | |]; simpl; [| done..]. rewrite IH.
    destruct (for_each f l1) as [ys1 | |]; simpl; [| done..].
    by destruct (for_each f l2).
Qed.

(** ** Element builders, when they return *)

Lemma dict_get_degree_dict (g : graph) (n : string) :
  dict_get (degree_dict g) n
  = if decide (n ∈ nodes g) then Ok (degree g n) else Raise KeyError.
Proof.
  unfold dict_get, degree_dict. induction (nodes g) as [|m ns IH].
  - by rewrite decide_False by (intros H; inversion H).
  - rewrite map_cons. destruct (decide (m = n)) as [-> | Hne].
    + rewrite filter_cons_True by done. by rewrite decide_True by left.
    + rewrite filter_cons_False by done. rewrite IH.
      repeat case_decide; try done.
      * exfalso. match goal with H : n ∉ _ :: _ |- _ => apply H end. by right.
      * match goal with H : n ∈ _ :: _ |- _ => apply elem_of_cons in H as [-> | H] end;
          done.
Qed.

Lemma artist_info_Ok (self : app) (id : string) (r : artist) :
  artist_info self id = Ok r → r ∈ nodes_df self ∧ spotify_id r = id.
Proof.
  unfold artist_info.
  destruct (filter (λ r, spotify_id r = id) (nodes_df self)) as [|r0 rows] eqn:E; [done |].
  intros [= <-].
  assert (Hr : r0 ∈ filter (λ r, spotify_id r = id) (nodes_df self)) by (rewrite E; left).
  apply list_elem_of_filter in Hr. tauto.
Qed.

Lemma artist_info_present (self : app) (id : string) :
  (∃ r, r ∈ nodes_df self ∧ spotify_id r = id) → ∃ r, artist_info self id = Ok r.
Proof.
  intros (r & Hr & Hid). unfold artist_info.
  destruct (filter (λ r, spotify_id r = id) (nodes_df self)) as [|r0 rows] eqn:E; [| eauto].
  assert (Hin : r ∈ filter (λ r, spotify_id r = id) (nodes_df self))
    by (by apply list_elem_of_filter).
  rewrite E in Hin. inversion Hin.
Qed.

(** With distinct identifiers, the row found is the one row of the artist. *)
Lemma artist_info_unique (self : app) (r : artist) :
  NoDup (map spotify_id (nodes_df self)) → r ∈ nodes_df self →
  artist_info self (spotify_id r) = Ok r.
Proof.
  intros Hnd Hr. unfold artist_info.
  induction (nodes_df self) as [|r0 rows IH]; [inversion Hr |].
  rewrite map_cons in Hnd. apply NoDup_cons in Hnd as [Hfresh Hnd].
  apply elem_of_cons in Hr as [-> | Hr].
  - by rewrite filter_cons_True.
  - rewrite filter_cons_False; [by apply IH |].
    intros Heq. apply Hfresh. rewrite Heq. by apply list_elem_of_fmap_2.
Qed.

Lemma node_element_Ok (nodes_df : list artist) (edges_df : list edge) (id : string) :
  let self := setup_network nodes_df edges_df in
  id ∈ nodes (G self) →
  (∃ r, r ∈ nodes_df ∧ spotify_id r = id) →
  ∃ r, artist_info self id = Ok r
       ∧ node_element self id = Ok (NodeElement (node_data_of (G self) r)).
Proof.
  intros self Hnode Hrow.
  destruct (artist_info_present self id Hrow) as [r Hr].
  exists r. split; [done |]. unfold node_element. rewrite Hr. simpl.
  rewrite dict_get_degree_dict, decide_True by done. simpl.
  apply artist_info_Ok in Hr as [_ <-]. done.
Qed.

Lemma create_network_elements_Ok (nodes_df : list artist) (edges_df : list edge)
    (artist_ids : list string) :
  let self := setup_network nodes_df edges_df in
  (∀ id, id ∈ artist_ids →
         id ∈ nodes (G self) ∧ ∃ r, r ∈ nodes_df ∧ spotify_id r = id) →
  ∃ rows,
    Forall2 (λ id r, artist_info self id = Ok r) artist_ids rows
    ∧ create_network_elements self artist_ids
      = Ok (map (λ r, NodeElement (node_data_of (G self) r)) rows
            ++ map (λ e, EdgeElement e.1 e.2) (subgraph_edges (G self) artist_ids)).
Proof.
  intros self Hall. subst self. unfold create_network_elements.
  set (self := setup_network nodes_df edges_df) in *.
  assert (Hnodes : ∃ rows, Forall2 (λ id r, artist_info self id = Ok r) artist_ids rows
            ∧ for_each (node_element self) artist_ids
              = Ok (map (λ r, NodeElement (node_data_of (G self) r)) rows)).
  { clear -Hall. induction artist_ids as [|id ids IH].
    - exists []. split; [constructor | done].
    - destruct (Hall id) as [Hnode Hrow]; [left |].
      destruct (node_element_Ok nodes_df edges_df id Hnode Hrow) as (r & Hr & Hel).
      destruct IH as (rows & Hrows & Heach); [intros i Hi; apply Hall; by right |].
      exists (r :: rows). split; [by constructor |].
      fold self in Hel. by rewrite for_each_cons, Hel, Heach. }
  destruct Hnodes as (rows & Hrows & Heach).
  exists rows. split; [done |]. by rewrite Heach.
Qed.

(** X6. When every identifier handed to [create_network_elements] is a
    node of the graph and has a row in the attribute table, the builder
    returns one node element per identifier, in the order given, holding
    the attributes of the artist's row and the degree of the node as its
    size, followed by one edge element per edge of the graph with both ends
    among the identifiers. *)
Theorem create_network_elements_returns (nodes_df : list artist) (edges_df : list edge)
    (artist_ids : list string) :
  let self := setup_network nodes_df edges_df in
  (∀ id, id ∈ artist_ids →
         id ∈ nodes (G self) ∧ ∃ r, r ∈ nodes_df ∧ spotify_id r = id) →
  ∃ rows,
    create_network_elements self artist_ids
    = Ok (map (λ r, NodeElement (node_data_of (G self) r)) rows
          ++ map (λ e, EdgeElement e.1 e.2) (subgraph_edges (G self) artist_ids))
    ∧ map spotify_id rows = artist_ids
    ∧ (∀ r, r ∈ rows → r ∈ nodes_df)
    ∧ (∀ e, e ∈ subgraph_edges (G self) artist_ids →
            e.1 ∈ artist_ids ∧ e.2 ∈ artist_ids ∧ e ∈ graph_edges (G self)).
Proof.
  intros self Hall.
  destruct (create_network_elements_Ok nodes_df edges_df artist_ids Hall)
    as (rows & Hrows & Hres).
  exists rows. split; [exact Hres |]. split; [| split].
  - clear Hres Hall. induction Hrows as [|id r ids rows Hr _ IH]; [done |].
    apply artist_info_Ok in Hr as [_ Hid]. simpl. by rewrite Hid, IH.
  - intros r Hr. clear Hres Hall.
    induction Hrows as [|id r0 ids rows Hr0 _ IH]; [inversion Hr |].
    apply elem_of_cons in Hr as [-> | Hr]; [| by apply IH].
    by apply artist_info_Ok in Hr0 as [Hin _].
  - intros e He. unfold subgraph_edges in He.
    apply list_elem_of_filter in He. tauto.
Qed.

Lemma create_network_elements_returns_witness :
  ∃ rows,
    create_network_elements (setup_network Sample.artists Sample.collaborations) ["B"; "A"]
    = Ok (map (λ r, NodeElement
                      (node_data_of (from_pandas_edgelist Sample.collaborations) r)) rows
          ++ [EdgeElement "A" "B"])
    ∧ map spotify_id rows = ["B"; "A"].
Proof.
  destruct (create_network_elements_returns Sample.artists Sample.collaborations ["B"; "A"])
    as (rows & Hres & Hids & _).
  - intros id Hid.
    apply elem_of_cons in Hid as [-> | Hid];
      [| apply list_elem_of_singleton in Hid as ->].
    + split; [apply (bool_decide_unpack _); reflexivity |].
      exists Sample.bob. split; [right; left | reflexivity].
    + split; [apply (bool_decide_unpack _); reflexivity |].
      exists Sample.alice. split; [left | reflexivity].
  - exists rows. split; [exact Hres | exact Hids].
Defined.

(** X7. An identifier that has a row in the attribute table but is no node
    of the graph (an artist in no edge row) makes [create_network_elements]
    raise [KeyError], at the lookup of its degree, when the identifiers
    before it are nodes with rows. *)
Theorem create_network_elements_unknown_node (nodes_df : list artist)
    (edges_df : list edge) (before after : list string) (id : string) :
  let self := setup_network nodes_df edges_df in
  (∀ i, i ∈ before → i ∈ nodes (G self) ∧ ∃ r, r ∈ nodes_df ∧ spotify_id r = i) →
  (∃ r, r ∈ nodes_df ∧ spotify_id r = id) →
  id ∉ nodes (G self) →
  create_network_elements self (before ++ id :: after) = Raise KeyError.
Proof.
  intros self Hbefore Hrow Hnode. subst self.
  set (self := setup_network nodes_df edges_df) in *.
  destruct (create_network_elements_Ok nodes_df edges_df before Hbefore)
    as (rows & _ & Hres).
  fold self in Hres. unfold create_network_elements in *.
  rewrite for_each_app.
  assert (Hid : node_element self id = Raise KeyError).
  { unfold node_element.
    destruct (artist_info_present self id Hrow) as [r ->]. rewrite bind_Ok.
    change (degrees self) with (degree_dict (G self)).
    by rewrite dict_get_degree_dict, decide_False. }
  destruct (for_each (node_element self) before) as [els | |]; [| done..].
  by rewrite bind_Ok, for_each_cons, Hid.
Qed.

Lemma create_network_elements_unknown_node_witness :
  create_network_elements
    (setup_network Sample.artists [("A", "B")]) ["A"; "C"; "B"]
  = Raise KeyError.
Proof.
  apply (create_network_elements_unknown_node Sample.artists [("A", "B")]
           ["A"] ["B"] "C").
  - intros i Hi. apply list_elem_of_singleton in Hi as ->.
    split; [apply (bool_decide_unpack _); reflexivity |].
    exists Sample.alice. split; [left | reflexivity].
  - exists Sample.carol. split; [right; right; left | reflexivity].
  - apply (bool_decide_unpack _). reflexivity.
Defined.

(** ** [update_network] *)

Lemma Forall2_elem_of_r {A B : Type} (P : A → B → Prop) (xs : list A) (ys : list B) (y : B) :
  Forall2 P xs ys → y ∈ ys → ∃ x, x ∈ xs ∧ P x y.
Proof.
  induction 1 as [|x y0 xs ys Hxy _ IH]; intros Hy; [inversion Hy |].
  apply elem_of_cons in Hy as [-> | Hy].
  - exists x. split; [left | done].
  - destruct (IH Hy) as (x' & Hx' & HP). exists x'. split; [by right | done].
Qed.

Lemma matches_selected_Ok (x : list string) (selected_genre : string) :
  selected_genre ∈ map fst top_genres → ∃ b, matches_selected x selected_genre = Ok b.
Proof.
  intros Hin. unfold matches_selected. destruct x as [|genre x]; [by exists false |].
  destruct (dict_get_present top_genres selected_genre Hin) as [subs ->].
  rewrite bind_Ok. eauto.
Qed.

Lemma matches_any_selected_Ok (selected_genres x : list string) :
  Forall (λ g, g ∈ map fst top_genres) selected_genres →
  ∃ b, matches_any_selected selected_genres x = Ok b.
Proof.
  induction 1 as [|g gs Hg _ IH]; simpl; [by exists false |].
  destruct (matches_selected_Ok x g Hg) as [b ->]. rewrite bind_Ok.
  destruct b; [by exists true | done].
Qed.

Lemma filtered_artists_Ok (self : app) (min_pop max_pop : Z) (selected_genres : list string) :
  Forall (λ g, g ∈ map fst top_genres) selected_genres →
  selected_genres = []
  ∨ filter (λ r, (min_pop ≤ popularity r)%Z ∧ (popularity r ≤ max_pop)%Z) (nodes_df self)
    ≠ [] →
  ∃ kept,
    filtered_artists self min_pop max_pop selected_genres = Ok kept
    ∧ ∀ id, id ∈ kept →
        ∃ r, r ∈ nodes_df self ∧ spotify_id r = id
             ∧ (min_pop ≤ popularity r)%Z ∧ (popularity r ≤ max_pop)%Z.
Proof.
  intros Htax Hsome. unfold filtered_artists.
  set (in_range := filter _ (nodes_df self)) in *.
  assert (Hrange : ∀ r, r ∈ in_range →
            r ∈ nodes_df self ∧ (min_pop ≤ popularity r)%Z ∧ (popularity r ≤ max_pop)%Z).
  { intros r Hr. apply list_elem_of_filter in Hr. tauto. }
  destruct selected_genres as [|g gs] eqn:E.
  - eexists. split; [done |]. intros id Hid.
    apply list_elem_of_fmap in Hid as (r & -> & Hr). exists r.
    destruct (Hrange r Hr) as (? & ? & ?). done.
  - rewrite <- E in *.
    assert (Hne : in_range ≠ []) by (destruct Hsome as [Hs | Hs]; [congruence | done]).
    clear Hsome.
    set (f := λ r : artist, found ← matches_any_selected selected_genres (genres r) ;
                            Ok (r, found)).
    assert (Hbranch : match in_range with
                      | [] => Raise KeyError
                      | _ :: _ =>
                          flagged ← for_each f in_range ;
                          Ok (map (λ rf, spotify_id rf.1)
                                  (filter (λ rf : artist * bool, rf.2 = true) flagged))
                      end
                      = (flagged ← for_each f in_range ;
                         Ok (map (λ rf, spotify_id rf.1)
                                 (filter (λ rf : artist * bool, rf.2 = true) flagged))))
      by (by destruct in_range).
    fold f. rewrite Hbranch. clear Hbranch E.
    destruct (for_each_Ok_all f in_range) as [flagged Hflagged].
    { intros r _. unfold f.
      destruct (matches_any_selected_Ok selected_genres (genres r) Htax) as [b ->].
      rewrite bind_Ok. eauto. }
    rewrite Hflagged, bind_Ok. eexists. split; [done |].
    intros id Hid. apply list_elem_of_fmap in Hid as ([r found] & -> & Hrf).
    apply list_elem_of_filter in Hrf as [_ Hrf].
    apply for_each_Ok_Forall2 in Hflagged.
    destruct (Forall2_elem_of_r _ _ _ _ Hflagged Hrf) as (r0 & Hr0 & Hf).
    unfold f in Hf.
    destruct (matches_any_selected selected_genres (genres r0)); simpl in Hf; [| done..].
    injection Hf as <- _. exists r0. simpl.
    destruct (Hrange r0 Hr0) as (? & ? & ?). done.
Qed.

Lemma get_top_artists_nodes (self : app) (n : nat) (a : string) :
  a ∈ get_top_artists self n → a ∈ (degrees self).*1.
Proof.
  unfold get_top_artists. intros Ha.
  apply list_elem_of_fmap in Ha as (kv & -> & Hkv).
  apply subseteq_take in Hkv. rewrite sort_desc_Permutation in Hkv.
  by apply list_elem_of_fmap_2.
Qed.

Lemma get_top_artists_length (self : app) (n : nat) : length (get_top_artists self n) ≤ n.
Proof. unfold get_top_artists. rewrite length_map, length_take. lia. Qed.

(** X8. With the genres chosen among the ten of the taxonomy, the 2D
    [update_network] raises [KeyError] when genres are selected and no row
    of the table has its popularity in the range asked for, and returns in
    every other case: the identifiers it draws come from the degree
    dictionary and from the attribute table, so neither lookup of the
    element builder can fail.  It then draws at most [n_artists] artists,
    each a node of the graph with a row in the table, and, identifiers
    being distinct, each with a popularity in the range. *)
Theorem update_network_returns (nodes_df : list artist) (edges_df : list edge)
    (n_artists : nat) (min_pop max_pop : Z) (selected_genres : list string) :
  let self := setup_network nodes_df edges_df in
  let in_range :=
    filter (λ r, (min_pop ≤ popularity r)%Z ∧ (popularity r ≤ max_pop)%Z) nodes_df in
  Forall (λ g, g ∈ map fst top_genres) selected_genres →
  (selected_genres ≠ [] → in_range = [] →
   update_network self n_artists min_pop max_pop selected_genres = Raise KeyError)
  ∧ (selected_genres = [] ∨ in_range ≠ [] →
     ∃ rows,
       update_network self n_artists min_pop max_pop selected_genres
       = Ok (map (λ r, NodeElement (node_data_of (G self) r)) rows
             ++ map (λ e, EdgeElement e.1 e.2)
                    (subgraph_edges (G self) (map spotify_id rows)))
       ∧ length rows ≤ n_artists
       ∧ (∀ r, r ∈ rows → r ∈ nodes_df ∧ spotify_id r ∈ nodes (G self))
       ∧ (NoDup (map spotify_id nodes_df) →
          ∀ r, r ∈ rows → (min_pop ≤ popularity r)%Z ∧ (popularity r ≤ max_pop)%Z)).
Proof.
  intros self in_range Htax. subst self.
  set (self := setup_network nodes_df edges_df) in *.
  split.
  { intros Hsel Hnone. unfold update_network, filtered_artists.
    unfold self, setup_network. cbn beta iota zeta delta -[filter]. fold in_range.
    rewrite Hnone.
    by destruct selected_genres. }
  intros Hsome.
  destruct (filtered_artists_Ok self min_pop max_pop selected_genres Htax Hsome)
    as (kept & Hkept & Hrows).
  unfold update_network. rewrite Hkept, bind_Ok.
  set (top_artists := filter (λ a, a ∈ kept) (get_top_artists self n_artists)).
  assert (Htop : ∀ id, id ∈ top_artists →
            id ∈ nodes (G self) ∧ ∃ r, r ∈ nodes_df ∧ spotify_id r = id).
  { intros id Hid. apply list_elem_of_filter in Hid as [Hk Hid]. split.
    - apply get_top_artists_nodes in Hid. simpl in Hid.
      by rewrite degree_dict_keys in Hid.
    - destruct (Hrows id Hk) as (r & Hr & Hi & _). eauto. }
  destruct (create_network_elements_Ok nodes_df edges_df top_artists Htop)
    as (rows & Hinfo & Hres).
  fold self in Hinfo, Hres.
  assert (Hids : map spotify_id rows = top_artists).
  { clear -Hinfo. induction Hinfo as [|id r ids rows Hr _ IH]; [done |].
    apply artist_info_Ok in Hr as [_ Hid]. simpl. by rewrite Hid, IH. }
  exists rows. rewrite Hids. split; [exact Hres |]. split; [| split].
  - rewrite <- (length_map spotify_id), Hids. unfold top_artists.
    etrans; [apply length_filter | apply get_top_artists_length].
  - intros r Hr.
    assert (Hid : spotify_id r ∈ top_artists)
      by (rewrite <- Hids; by apply list_elem_of_fmap_2).
    split; [| by apply Htop].
    clear -Hinfo Hr. induction Hinfo as [|id r0 ids rows Hr0 _ IH]; [inversion Hr |].
    apply elem_of_cons in Hr as [-> | Hr]; [| by apply IH].
    by apply artist_info_Ok in Hr0 as [Hin _].
  - intros Hnd r Hr.
    assert (Hid : spotify_id r ∈ top_artists)
      by (rewrite <- Hids; by apply list_elem_of_fmap_2).
    apply list_elem_of_filter in Hid as [Hk _].
    destruct (Hrows _ Hk) as (r' & Hr' & Hi & Hlo & Hhi).
    assert (Hsame : artist_info self (spotify_id r) = Ok r).
    { clear -Hinfo Hr. induction Hinfo as [|id r0 ids rows Hr0 _ IH]; [inversion Hr |].
      apply elem_of_cons in Hr as [-> | Hr]; [| by apply IH].
      pose proof Hr0 as Hr1. apply artist_info_Ok in Hr1 as [_ <-]. done. }
    pose proof (artist_info_unique self r' Hnd Hr') as Hu.
    rewrite Hi, Hsame in Hu. injection Hu as ->. done.
Qed.

Lemma update_network_returns_witness :
  update_network (setup_network Sample.artists Sample.collaborations) 2 95 10 ["pop"]
  = Raise KeyError
  ∧ ∃ rows,
      update_network (setup_network Sample.artists Sample.collaborations) 2 75 100 ["pop"]
      = Ok (map (λ r, NodeElement
                        (node_data_of (from_pandas_edgelist Sample.collaborations) r)) rows
            ++ map (λ e, EdgeElement e.1 e.2)
                   (subgraph_edges (from_pandas_edgelist Sample.collaborations)
                                   (map spotify_id rows)))
      ∧ length rows ≤ 2.
Proof.
  split.
  - apply (update_network_returns Sample.artists Sample.collaborations 2 95 10 ["pop"]).
    + constructor; [left | constructor].
    + discriminate.
    + reflexivity.
  - destruct (update_network_returns Sample.artists Sample.collaborations 2 75 100 ["pop"])
      as [_ Hret].
    + constructor; [left | constructor].
    + destruct Hret as (rows & Hres & Hlen & _); [right; discriminate |].
      exists rows. split; [exact Hres | exact Hlen].
Defined.

(** ** [create_3d_network] *)

Lemma lookup_keyed {V : Type} (F : string → V) (l : list string) (k : string) :
  (list_to_map (map (λ n, (n, F n)) l) : gmap string V) !! k
  = if decide (k ∈ l) then Some (F k) else None.
Proof.
  induction l as [|n l IH]; simpl.
  - apply lookup_empty.
  - destruct (decide (n = k)) as [-> | Hne].
    + rewrite lookup_insert_eq. by rewrite decide_True by left.
    + rewrite lookup_insert_ne by done. rewrite IH.
      case_decide as H1; case_decide as H2; try done.
      * exfalso. apply H2. by right.
      * apply elem_of_cons in H2 as [-> | H2]; done.
Qed.

Lemma subgraph_nodes_NoDup (slot : list string → string → Z) (g : graph)
    (node_ids : list string) :
  NoDup (nodes g) → NoDup (nodes (subgraph slot g node_ids)).
Proof.
  intros Hnd. unfold subgraph. simpl. case_match.
  - apply NoDup_set_iter.
  - by apply NoDup_filter.
Qed.

Lemma filter_ext_elem_of {A : Type} (P Q : A → Prop) `{∀ x, Decision (P x)}
    `{∀ x, Decision (Q x)} (l : list A) :
  (∀ x, x ∈ l → (P x ↔ Q x)) → filter P l = filter Q l.
Proof.
  induction l as [|x l IH]; intros Hext; [done |].
  assert (Hx : P x ↔ Q x) by (apply Hext; left).
  assert (Hl : filter P l = filter Q l) by (apply IH; intros y Hy; apply Hext; by right).
  destruct (decide (P x)) as [HP | HP].
  - rewrite !filter_cons_True by tauto. by rewrite Hl.
  - rewrite !filter_cons_False by tauto. done.
Qed.

(** With at least half of the nodes in the set, the view lists its nodes
    in the order of the graph. *)
Lemma subgraph_nodes_graph_order (slot : list string → string → Z) (g : graph)
    (node_ids : list string) :
  length (nodes g) ≤ 2 * length (remove_dups (filter (λ n, n ∈ nodes g) node_ids)) →
  nodes (subgraph slot g node_ids) = filter (λ n, n ∈ node_ids) (nodes g).
Proof.
  intros Hhalf. unfold subgraph. cbn [nodes].
  rewrite (Permutation_length (set_iter_Permutation slot _)).
  destruct (Nat.ltb_spec (2 * length (remove_dups (filter (λ n, n ∈ nodes g) node_ids)))
                         (length (nodes g))) as [Hlt | _]; [lia |].
  apply filter_ext_elem_of. intros n Hn.
  rewrite elem_of_set_iter, list_elem_of_filter. tauto.
Qed.

(** The neighbours of a node of the view. *)
Lemma elem_of_subgraph_neighbours (slot : list string → string → Z) (g : graph)
    (node_ids : list string) (u v : string) :
  v ∈ neighbours (subgraph slot g node_ids) u
  ↔ u ∈ nodes (subgraph slot g node_ids)
    ∧ (v ∈ node_ids ∧ v ∈ nodes g) ∧ v ∈ neighbours g u.
Proof.
  unfold neighbours at 1. unfold subgraph at 1. cbn [adj]. rewrite lookup_keyed.
  fold (subgraph slot g node_ids).
  change (if 2 * length (set_iter slot (filter (λ n, n ∈ nodes g) node_ids))
             <? length (nodes g)
          then set_iter slot (filter (λ n, n ∈ nodes g) node_ids)
          else filter (λ n, n ∈ set_iter slot (filter (λ n, n ∈ nodes g) node_ids))
                      (nodes g))
    with (nodes (subgraph slot g node_ids)).
  case_decide as Hu; simpl.
  - rewrite list_elem_of_filter, elem_of_set_iter, list_elem_of_filter. tauto.
  - split; [intros H; inversion H | tauto].
Qed.

Lemma subgraph_neighbours_NoDup (slot : list string → string → Z) (g : graph)
    (node_ids : list string) (n : string) :
  NoDup (neighbours g n) → NoDup (neighbours (subgraph slot g node_ids) n).
Proof.
  intros Hnd. unfold neighbours at 1. unfold subgraph. cbn [adj]. rewrite lookup_keyed.
  case_decide; simpl; [by apply NoDup_filter | constructor].
Qed.

Lemma node_marker_Ok {C : Type} (pos_3d : string → C) (nodes_df : list artist)
    (edges_df : list edge) (node : string) :
  let self := setup_network nodes_df edges_df in
  node ∈ nodes (G self) →
  (∃ r, r ∈ nodes_df ∧ spotify_id r = node) →
  ∃ r, r ∈ nodes_df ∧ spotify_id r = node
       ∧ node_marker pos_3d self node
         = Ok (Marker (pos_3d node) (name r, followers r, popularity r)
                      (degree (G self) node) (popularity r)).
Proof.
  intros self Hnode Hrow.
  destruct (artist_info_present self node Hrow) as [r Hr].
  exists r. destruct (artist_info_Ok _ _ _ Hr) as [Hin Hid].
  split; [done |]. split; [done |].
  unfold node_marker. rewrite Hr, bind_Ok.
  change (degrees self) with (degree_dict (G self)).
  by rewrite dict_get_degree_dict, decide_True.
Qed.

(** The markers of the nodes, when every node drawn has a row. *)
Lemma node_markers_Ok {C : Type} (pos_3d : string → C) (nodes_df : list artist)
    (edges_df : list edge) (drawn : list string) :
  let self := setup_network nodes_df edges_df in
  (∀ n, n ∈ drawn → n ∈ nodes (G self)) →
  (∀ n, n ∈ drawn → ∃ r, r ∈ nodes_df ∧ spotify_id r = n) →
  ∃ markers,
    for_each (node_marker pos_3d self) drawn = Ok markers
    ∧ map (mk_pos _) markers = map pos_3d drawn
    ∧ map (mk_size_squared _) markers = map (degree (G self)) drawn
    ∧ Forall (λ m, ∃ r, r ∈ nodes_df ∧ mk_color _ m = popularity r
                        ∧ mk_text _ m = (name r, followers r, popularity r))
             markers.
Proof.
  intros self Hnodes Hrows. induction drawn as [|n ns IH].
  - exists []. repeat split; constructor.
  - destruct (node_marker_Ok pos_3d nodes_df edges_df n) as (r & Hr & Hid & Hm).
    { apply Hnodes. left. }
    { apply Hrows. left. }
    destruct IH as (markers & Heach & Hpos & Hsize & Hall).
    { intros m Hm'. apply Hnodes. by right. }
    { intros m Hm'. apply Hrows. by right. }
    fold self in Hm.
    eexists. rewrite for_each_cons, Hm, bind_Ok, Heach, bind_Ok.
    split; [done |]. simpl. rewrite Hpos, Hsize.
    repeat split. constructor; [| done]. by exists r.
Qed.

(** What the view of [create_3d_network] holds, and the figure drawn from
    it. *)
Lemma create_3d_network_spec {C : Type} (pos_3d : string → C)
    (slot : list string → string → Z)
    (nodes_df : list artist) (edges_df : list edge) (artist_ids : list string) :
  let self := setup_network nodes_df edges_df in
  let sub := subgraph slot (G self) artist_ids in
  NoDup (nodes sub)
  ∧ (∀ n, n ∈ nodes sub ↔ n ∈ artist_ids ∧ n ∈ nodes (G self))
  ∧ (length (nodes (G self))
     ≤ 2 * length (remove_dups (filter (λ n, n ∈ nodes (G self)) artist_ids)) →
     nodes sub = filter (λ n, n ∈ artist_ids) (nodes (G self)))
  ∧ NoDup (graph_edges sub)
  ∧ (∀ u v, (u, v) ∈ graph_edges sub →
            u ∈ nodes sub ∧ v ∈ nodes sub ∧ v ∈ neighbours (G self) u)
  ∧ (∀ u v, u ∈ nodes sub → v ∈ nodes sub → v ∈ neighbours (G self) u →
            (u, v) ∈ graph_edges sub ∨ (v, u) ∈ graph_edges sub)
  ∧ (∀ u v, u ≠ v → (u, v) ∈ graph_edges sub → (v, u) ∉ graph_edges sub)
  ∧ ((∀ n, n ∈ nodes sub → ∃ r, r ∈ nodes_df ∧ spotify_id r = n) →
     ∃ fig, create_3d_network pos_3d slot self artist_ids = Ok fig
            ∧ map (mk_pos _) (nodes_trace _ fig) = map pos_3d (nodes sub)
            ∧ map (mk_size_squared _) (nodes_trace _ fig)
              = map (degree (G self)) (nodes sub)
            ∧ Forall (λ m, ∃ r, r ∈ nodes_df ∧ mk_color _ m = popularity r
                                ∧ mk_text _ m = (name r, followers r, popularity r))
                     (nodes_trace _ fig)
            ∧ edges_trace _ fig
              = flat_map (λ e : edge, [Some (pos_3d e.1); Some (pos_3d e.2); None])
                         (graph_edges sub)).
Proof.
  intros self sub.
  set (g := from_pandas_edgelist edges_df). change (G self) with g in *.
  assert (Hnd : NoDup (nodes sub))
    by apply subgraph_nodes_NoDup, from_pandas_edgelist_NoDup.
  assert (Hnodes : ∀ n, n ∈ nodes sub ↔ n ∈ artist_ids ∧ n ∈ nodes g)
    by apply elem_of_subgraph_nodes.
  assert (Hadj : ∀ u v, v ∈ neighbours sub u
                        ↔ u ∈ nodes sub ∧ v ∈ nodes sub ∧ v ∈ neighbours g u).
  { intros u v. unfold sub. rewrite elem_of_subgraph_neighbours. fold sub.
    by rewrite <- Hnodes. }
  assert (Hsym : ∀ u v, v ∈ neighbours g u → u ∈ neighbours g v).
  { intros u v. unfold g. rewrite !neighbours_of_edge_rows. tauto. }
  split; [done |]. split; [done |].
  split; [apply subgraph_nodes_graph_order |].
  split; [| split; [| split; [| split]]].
  - apply edges_from_NoDup; [done |].
    intros n. apply subgraph_neighbours_NoDup, from_pandas_edgelist_wf.
  - intros u v Hin. apply edges_from_inv in Hin as (_ & Hv & _).
    by apply Hadj in Hv.
  - intros u v Hu Hv Huv. apply edges_from_covers; try done.
    + by apply Hadj.
    + apply Hadj. auto.
    + intros H; inversion H.
    + intros H; inversion H.
  - intros u v. apply edges_from_one_orientation.
  - intros Hrows. unfold create_3d_network. change (G self) with g. fold sub.
    destruct (node_markers_Ok pos_3d nodes_df edges_df (nodes sub))
      as (markers & Heach & Hpos & Hsize & Hall).
    { intros n Hn. by apply Hnodes in Hn as [_ Hn]. }
    { exact Hrows. }
    fold self in Heach. rewrite Heach, bind_Ok.
    eexists. split; [done |]. simpl. done.
Qed.

(** X9. The view [create_3d_network] draws holds the identifiers that are
    nodes of the graph, each once, in the order of the graph when they are
    at least half of its nodes (in an order of the set otherwise); its
    edges are the pairs of drawn nodes adjacent in the graph, each listed
    once and in one orientation.  When every node drawn has a row in the
    attribute table, the figure returned has one marker per node drawn, in
    that order, sized by the node's degree and coloured by the artist's
    popularity, and three points per edge listed. *)
Theorem create_3d_network_returns {C : Type} (pos_3d : string → C)
    (slot : list string → string → Z)
    (nodes_df : list artist) (edges_df : list edge) (artist_ids : list string) :
  let self := setup_network nodes_df edges_df in
  let sub := subgraph slot (G self) artist_ids in
  NoDup (nodes sub)
  ∧ (∀ n, n ∈ nodes sub ↔ n ∈ artist_ids ∧ n ∈ nodes (G self))
  ∧ (length (nodes (G self))
     ≤ 2 * length (remove_dups (filter (λ n, n ∈ nodes (G self)) artist_ids)) →
     nodes sub = filter (λ n, n ∈ artist_ids) (nodes (G self)))
  ∧ NoDup (graph_edges sub)
  ∧ (∀ u v, (u, v) ∈ graph_edges sub →
            u ∈ nodes sub ∧ v ∈ nodes sub ∧ v ∈ neighbours (G self) u)
  ∧ (∀ u v, u ∈ nodes sub → v ∈ nodes sub → v ∈ neighbours (G self) u →
            (u, v) ∈ graph_edges sub ∨ (v, u) ∈ graph_edges sub)
  ∧ (∀ u v, u ≠ v → (u, v) ∈ graph_edges sub → (v, u) ∉ graph_edges sub)
  ∧ ((∀ n, n ∈ nodes sub → ∃ r, r ∈ nodes_df ∧ spotify_id r = n) →
     ∃ fig, create_3d_network pos_3d slot self artist_ids = Ok fig
            ∧ map (mk_pos _) (nodes_trace _ fig) = map pos_3d (nodes sub)
            ∧ map (mk_size_squared _) (nodes_trace _ fig)
              = map (degree (G self)) (nodes sub)
            ∧ Forall (λ m, ∃ r, r ∈ nodes_df ∧ mk_color _ m = popularity r
                                ∧ mk_text _ m = (name r, followers r, popularity r))
                     (nodes_trace _ fig)
            ∧ edges_trace _ fig
              = flat_map (λ e : edge, [Some (pos_3d e.1); Some (pos_3d e.2); None])
                         (graph_edges sub)).
Proof. apply create_3d_network_spec. Qed.

Lemma create_3d_network_returns_witness :
  ∃ fig,
    create_3d_network (λ n, n) (λ _ x, - Z.of_nat (String.length x))%Z
                      (setup_network Sample.artists Sample.collaborations)
                      ["C"; "Z"; "A"]
    = Ok fig
    ∧ map (mk_pos _) (nodes_trace _ fig) = ["A"; "C"].
Proof.
  destruct (create_3d_network_returns (λ n : string, n)
              (λ _ x, - Z.of_nat (String.length x))%Z Sample.artists
              Sample.collaborations ["C"; "Z"; "A"])
    as (_ & Hnodes & _ & _ & _ & _ & _ & Hret).
  destruct Hret as (fig & Hfig & Hpos & _).
  - intros n Hn. apply Hnodes in Hn as [_ Hn].
    apply elem_of_cons in Hn as [-> | Hn];
      [exists Sample.alice; split; [left | reflexivity] |].
    apply elem_of_cons in Hn as [-> | Hn];
      [exists Sample.bob; split; [right; left | reflexivity] |].
    apply list_elem_of_singleton in Hn as ->.
    exists Sample.carol. split; [right; right; left | reflexivity].
  - exists fig. split; [exact Hfig | exact Hpos].
Defined.

(** With few identifiers the order of the set decides: the nodes A and D of
    a graph of five nodes are drawn in either order, and the edge between
    them is listed from the node drawn first. *)
Example create_3d_network_set_order :
  let edges := [("A", "B"); ("B", "C"); ("C", "D"); ("D", "A"); ("D", "E")] in
  let slot_1 := λ (_ : list string) (x : string), if String.eqb x "A" then 1%Z else 2%Z in
  let slot_2 := λ (_ : list string) (x : string), if String.eqb x "A" then 2%Z else 1%Z in
  let g := from_pandas_edgelist edges in
  nodes (subgraph slot_1 g ["A"; "D"]) = ["A"; "D"]
  ∧ graph_edges (subgraph slot_1 g ["A"; "D"]) = [("A", "D")]
  ∧ nodes (subgraph slot_2 g ["A"; "D"]) = ["D"; "A"]
  ∧ graph_edges (subgraph slot_2 g ["A"; "D"]) = [("D", "A")]
  ∧ nodes (subgraph slot_2 g ["D"; "A"; "B"]) = ["A"; "B"; "D"].
Proof. vm_compute. repeat split. Qed.

Lemma node_marker_cases {C : Type} (pos_3d : string → C) (nodes_df : list artist)
    (edges_df : list edge) (node : string) :
  let self := setup_network nodes_df edges_df in
  node ∈ nodes (G self) →
  (∃ m, node_marker pos_3d self node = Ok m)
  ∨ node_marker pos_3d self node = Raise IndexError.
Proof.
  intros self Hnode. unfold node_marker.
  destruct (artist_info_cases self node) as [[r ->] | ->]; [| by right].
  rewrite bind_Ok. change (degrees self) with (degree_dict (G self)).
  rewrite dict_get_degree_dict, decide_True by done. left. eauto.
Qed.

(** X10. The 3D [update_network] draws the [n_artists] nodes of largest
    degree.  When every node of the graph has a row in the attribute table
    it returns a figure with [min n_artists (number of nodes)] markers; when
    [n_artists] reaches the number of nodes and some node has no row, it
    raises [IndexError]. *)
Theorem update_network_3d_markers {C : Type} (pos_3d : string → C)
    (slot : list string → string → Z)
    (nodes_df : list artist) (edges_df : list edge) (n_artists : nat) :
  let self := setup_network nodes_df edges_df in
  ((∀ v, v ∈ nodes (G self) → ∃ r, r ∈ nodes_df ∧ spotify_id r = v) →
   ∃ fig, update_network_3d pos_3d slot self n_artists = Ok fig
          ∧ length (nodes_trace _ fig) = n_artists `min` length (nodes (G self)))
  ∧ (length (nodes (G self)) ≤ n_artists →
     (∃ v, v ∈ nodes (G self) ∧ ∀ r, r ∈ nodes_df → spotify_id r ≠ v) →
     update_network_3d pos_3d slot self n_artists = Raise IndexError).
Proof.
  intros self.
  destruct (get_top_artists_spec nodes_df edges_df n_artists)
    as (Hlen & Hnd & _ & (rest & Hperm & _) & Hall).
  fold self in Hlen, Hnd, Hperm, Hall.
  set (tops := get_top_artists self n_artists) in *.
  assert (Hsub : ∀ v, v ∈ tops → v ∈ nodes (G self)).
  { intros v Hv. rewrite Hperm. apply elem_of_app. by left. }
  destruct (create_3d_network_spec pos_3d slot nodes_df edges_df tops)
    as (Hnd' & Hnodes & _ & _ & _ & _ & _ & Hret).
  fold self in Hnd', Hnodes, Hret.
  assert (Hdrawn : nodes (subgraph slot (G self) tops) ≡ₚ tops).
  { apply NoDup_Permutation; [done.. |].
    intros v. rewrite Hnodes. split; [tauto | intros Hv; split; [done | by apply Hsub]]. }
  unfold update_network_3d. fold tops. split.
  - intros Hrows.
    destruct Hret as (fig & Hfig & Hpos & _).
    { intros v Hv. apply Hrows. rewrite Hdrawn in Hv. by apply Hsub. }
    exists fig. split; [exact Hfig |].
    rewrite <- (length_map (mk_pos C)), Hpos, length_map.
    by rewrite Hdrawn.
  - intros Hn (v & Hv & Hmiss). unfold create_3d_network.
    rewrite (for_each_raises (node_marker pos_3d self) IndexError _ v); [done | | |].
    + intros i Hi. apply Hnodes in Hi as [_ Hi].
      by apply node_marker_cases.
    + by rewrite Hdrawn, (Hall Hn).
    + unfold node_marker. by rewrite artist_info_missing.
Qed.

Lemma update_network_3d_markers_witness :
  update_network_3d (λ n, n) (λ _ _, 0%Z)
                    (setup_network [Sample.alice; Sample.bob] Sample.collaborations) 10
  = Raise IndexError.
Proof.
  apply (update_network_3d_markers (λ n : string, n) (λ _ _, 0%Z)
           [Sample.alice; Sample.bob] Sample.collaborations 10).
  - vm_compute. lia.
  - exists "C". split; [apply (bool_decide_unpack _); reflexivity |].
    intros r Hr.
    apply elem_of_cons in Hr as [-> | Hr]; [discriminate |].
    apply list_elem_of_singleton in Hr as ->. discriminate.
Defined.

(** ** [expand_chart_hits], whatever the cell *)

Lemma for_each_parse_entry_cases (entries : list string) :
  (∃ hits, for_each parse_entry entries = Ok hits)
  ∨ for_each parse_entry entries = Raise ValueError.
Proof.
  induction entries as [|entry entries IH]; [left; by exists [] |].
  rewrite for_each_cons.
  destruct (parse_entry_cases entry) as [[h ->] | ->]; [| by right].
  rewrite bind_Ok. destruct IH as [[hits ->] | ->]; [left | by right].
  rewrite bind_Ok. eauto.
Qed.

(** X11. [expand_chart_hits] never raises.  It prints at most one line, and
    when it prints, it returns no hit: a list is either parsed entry by
    entry, in order, or given up as a whole. *)
Theorem expand_chart_hits_all_or_nothing (chart_hits_str : cell) :
  (∀ e, expand_chart_hits chart_hits_str ≠ Raise e)
  ∧ ∀ hits printed,
      expand_chart_hits chart_hits_str = Ok (hits, printed) →
      length printed ≤ 1
      ∧ (printed ≠ [] → hits = [])
      ∧ (hits ≠ [] →
         ∃ s entries, chart_hits_str = CStr s ∧ literal_eval s = Ok entries
                      ∧ Forall2 (λ entry h, parse_entry entry = Ok h) entries hits).
Proof.
  unfold expand_chart_hits. destruct chart_hits_str as [s | x |].
  - destruct (String.eqb s "[]").
    { split; [done |]. intros hits printed [= <- <-]. simpl. split; [lia | done]. }
    unfold expand_entries.
    destruct (literal_eval s) as [entries | e |] eqn:Heval; simpl.
    + destruct (for_each parse_entry entries) as [hs | e |] eqn:Heach.
      * split; [done |]. intros hits printed [= <- <-]. simpl.
        split; [lia |]. split; [done |]. intros _.
        exists s, entries. by rewrite <- for_each_Ok_Forall2.
      * split; [done |]. intros hits printed [= <- <-]. simpl. split; [lia | done].
      * destruct (for_each_parse_entry_cases entries) as [[hs H] | H]; congruence.
    + split; [done |]. intros hits printed [= <- <-]. simpl. split; [lia | done].
    + split; [done | done].
  - split; [done |]. intros hits printed [= <- <-]. simpl. split; [lia | done].
  - split; [done |]. intros hits printed [= <- <-]. simpl. split; [lia | done].
Qed.

Lemma expand_row_never_raises (row : classified) (e : exn) : expand_row row ≠ Raise e.
Proof.
  unfold expand_row. destruct (chart_hits (base row)) as [s | x |]; simpl; try done.
  destruct (String.eqb s "[]"); [done |].
  destruct (expand_entries s); done.
Qed.

Lemma process_chart_hits_never_raises (rows : list classified) (e : exn) :
  process_chart_hits rows ≠ Raise e.
Proof.
  induction rows as [|row rows IH]; [done |]. simpl.
  pose proof (expand_row_never_raises row) as Hrow.
  destruct (expand_row row) as [[hits printed0] | e' |]; simpl; [| by destruct (Hrow e') | done].
  destruct (process_chart_hits rows) as [[hits' printed'] | e' |]; simpl;
    first [done | exact IH].
Qed.

(** X12. [prepare_cleaned_data] raises two exceptions and no other:
    [TypeError] on a node table without rows, at [nlargest], and [KeyError]
    at the group-by, exactly when the table has rows and no artist that
    passed the genre mapping has a parsed chart hit.  As soon as one such
    artist has a hit, the hit numbers fitting 64 bits, the pipeline
    returns. *)
Theorem prepare_cleaned_data_raises (nodes_df : list artist) (edges_df : list edge) :
  let top_artists := apply_genre_mapping (nlargest 100 popularity nodes_df) in
  (∀ e, prepare_cleaned_data nodes_df edges_df = Raise e →
        (e = TypeError ∧ nodes_df = [])
        ∨ (e = KeyError ∧ nodes_df ≠ []
           ∧ ∃ printed, process_chart_hits top_artists = Ok ([], printed)))
  ∧ prepare_cleaned_data [] edges_df = Raise TypeError
  ∧ (nodes_df ≠ [] →
     ∀ printed, process_chart_hits top_artists = Ok ([], printed) →
                prepare_cleaned_data nodes_df edges_df = Raise KeyError)
  ∧ (nodes_df ≠ [] →
     ∀ hits printed, process_chart_hits top_artists = Ok (hits, printed) → hits ≠ [] →
                     Forall (λ h, is_int64 (eh_hit_number h) = true) hits →
                     ∃ df, prepare_cleaned_data nodes_df edges_df = Ok df).
Proof.
  intros top_artists. unfold prepare_cleaned_data, run_stages, select_top.
  pose proof (process_chart_hits_never_raises top_artists) as Hnever.
  split; [| split; [done | split]].
  - intros e. destruct nodes_df as [|a nodes_df']; [intros [= <-]; by left |].
    rewrite bind_Ok. fold top_artists.
    destruct (process_chart_hits top_artists) as [[hits printed0] | e' |];
      simpl; [| by destruct (Hnever e') | done].
    unfold group_hits. destruct hits as [|h hits]; simpl.
    + intros [= <-]. right. split; [done |]. split; [done | by exists printed0].
    + by destruct (is_int64 (eh_hit_number h) && forallb _ hits).
  - intros Hne printed0 Hproc. destruct nodes_df as [|a nodes_df']; [done |].
    rewrite bind_Ok. fold top_artists. by rewrite Hproc.
  - intros Hne hits printed0 Hproc Hhits Hfit.
    destruct nodes_df as [|a nodes_df']; [done |].
    rewrite bind_Ok. fold top_artists. rewrite Hproc. simpl.
    unfold group_hits. destruct hits as [|h hits]; [done |].
    assert (Hall : forallb (λ h, is_int64 (eh_hit_number h)) (h :: hits) = true).
    { apply forallb_forall. intros x Hx. rewrite Forall_forall in Hfit.
      apply Hfit. by apply list_elem_of_In. }
    rewrite Hall. simpl. eauto.
Qed.

Lemma prepare_cleaned_data_raises_witness :
  prepare_cleaned_data [Artist "D" "Dave" 10 50 ["jazz"] CNaN] [] = Raise KeyError.
Proof.
  apply (prepare_cleaned_data_raises [Artist "D" "Dave" 10 50 ["jazz"] CNaN] [])
    with (printed := []).
  - discriminate.
  - reflexivity.
Defined.

(** ** The rows of the analytical dataset *)

Lemma filter_submseteq {A : Type} (P : A → Prop) `{∀ x, Decision (P x)} (l : list A) :
  filter P l ⊆+ l.
Proof. apply sublist_submseteq, sublist_filter. Qed.

Lemma submseteq_NoDup {A : Type} (l k : list A) : l ⊆+ k → NoDup k → NoDup l.
Proof.
  intros (k' & Hk)%submseteq_Permutation Hnd. rewrite Hk in Hnd.
  by apply NoDup_app in Hnd as [Hnd _].
Qed.

Lemma nlargest_submseteq {A : Type} (n : nat) (key : A → Z) (l : list A) :
  nlargest n key l ⊆+ l.
Proof.
  unfold nlargest. etrans; [apply submseteq_take |].
  apply Permutation_submseteq, sort_desc_Permutation.
Qed.

Lemma apply_genre_mapping_base (top_artists : list artist) :
  map base (apply_genre_mapping top_artists) ⊆+ top_artists.
Proof.
  unfold apply_genre_mapping. rewrite map_map. simpl.
  set (mapped := map (λ a, (a, map_to_top_genres (GList (genres a)))) top_artists).
  assert (Hfst : map fst mapped = top_artists).
  { unfold mapped. rewrite map_map. simpl. apply map_id. }
  rewrite <- Hfst at 2.
  apply (fmap_submseteq fst), filter_submseteq.
Qed.

Lemma stage3_classified (expanded_hits : list expanded_hit)
    (grouped_hits : list (string * (Z * nat))) (top_artists : list classified) :
  group_hits expanded_hits = Ok grouped_hits →
  map classified_row (dropna_hits (merge_hits grouped_hits top_artists)) ⊆+ top_artists.
Proof.
  intros Hgroup. rewrite (merge_hits_rows _ _ _ Hgroup).
  set (merged := map _ top_artists).
  assert (Hrows : map classified_row merged = top_artists).
  { unfold merged. rewrite map_map. simpl. apply map_id. }
  rewrite <- Hrows.
  apply (fmap_submseteq classified_row), filter_submseteq.
Qed.

Lemma remove_all_outliers_submseteq (top_artists : list with_hits) :
  remove_all_outliers top_artists ⊆+ top_artists.
Proof.
  unfold remove_all_outliers. simpl. unfold remove_outliers.
  etrans; apply filter_submseteq.
Qed.

Lemma remove_all_outliers_sublist (top_artists : list with_hits) :
  remove_all_outliers top_artists `sublist_of` top_artists.
Proof.
  unfold remove_all_outliers. simpl. unfold remove_outliers.
  etrans; apply sublist_filter.
Qed.

Lemma prepare_cleaned_data_Ok (nodes_df : list artist) (edges_df : list edge)
    (df : list with_collabs) :
  prepare_cleaned_data nodes_df edges_df = Ok df →
  ∃ st, run_stages nodes_df edges_df = Ok st ∧ df = stage7 st.
Proof.
  unfold prepare_cleaned_data.
  destruct (run_stages nodes_df edges_df) as [st | |]; simpl; [| done..].
  intros [= <-]. eauto.
Qed.

(** X13. The analytical dataset is ordered by decreasing popularity; its
    rows are rows of the node table, none taken more often than the table
    has it, so with distinct identifiers in the table no artist appears
    twice; each row carries the genres the classifier gives for the
    artist's tags, their number, and the number of edge-row appearances of
    the artist as its collaboration count. *)
Theorem dataset_rows (nodes_df : list artist) (edges_df : list edge)
    (df : list with_collabs) :
  prepare_cleaned_data nodes_df edges_df = Ok df →
  StronglySorted (descending popularity_of_row) df
  ∧ map artist_of df ⊆+ nodes_df
  ∧ (NoDup (map spotify_id nodes_df) → NoDup (map id_of_row df))
  ∧ ∀ r, r ∈ df →
      genres_of r = map_to_top_genres (GList (genres (artist_of r)))
      ∧ genre_count_of r = length (genres_of r)
      ∧ collab_count r = appearances edges_df (id_of_row r).
Proof.
  intros (st & Hrun & ->)%prepare_cleaned_data_Ok.
  destruct (run_stages_Ok _ _ _ Hrun)
    as (expanded_hits & grouped_hits & Hproc & Hgroup & H1 & H2 & H3 & H4 & H5 & H6 & H7).
  assert (Hartists : map artist_of (stage7 st) ⊆+ nodes_df).
  { assert (S7 : stage7 st ⊆+ stage6 st)
      by (rewrite H7; apply filter_submseteq).
    assert (S6 : map hits_row (stage6 st) = stage5 st).
    { rewrite H6, merge_collabs_rows, map_map. apply map_id. }
    assert (S5 : stage5 st ⊆+ stage3 st).
    { rewrite H5, H4. etrans; [apply remove_all_outliers_submseteq |].
      apply (nlargest_submseteq 100 popularity_of). }
    assert (S3 : map classified_row (stage3 st) ⊆+ stage2 st)
      by (rewrite H3; by eapply stage3_classified).
    assert (S2 : map base (stage2 st) ⊆+ stage1 st)
      by (rewrite H2; apply apply_genre_mapping_base).
    assert (S1 : stage1 st ⊆+ nodes_df).
    { apply select_top_Ok in H1 as [_ ->]. apply (nlargest_submseteq 100 popularity). }
    change (map artist_of (stage7 st))
      with ((λ r, base (classified_row (hits_row r))) <$> stage7 st).
    rewrite (list_fmap_compose hits_row (λ r, base (classified_row r))).
    rewrite (list_fmap_compose classified_row base).
    etrans; [| exact S1]. etrans; [| exact S2]. apply (fmap_submseteq base).
    etrans; [| exact S3]. apply (fmap_submseteq classified_row).
    etrans; [| exact S5]. change (list_fmap with_collabs with_hits hits_row (stage6 st))
      with (map hits_row (stage6 st)) in *.
    rewrite <- S6. by apply (fmap_submseteq hits_row). }
  split; [| split; [exact Hartists | split]].
  - rewrite H7. eapply StronglySorted_sublist; [apply sublist_filter |].
    rewrite H6, merge_collabs_rows.
    apply (StronglySorted_map_in (descending popularity_of)); [by intros x y _ _ |].
    rewrite H5. eapply StronglySorted_sublist; [apply remove_all_outliers_sublist |].
    rewrite H4. unfold resort.
    eapply StronglySorted_sublist; [apply sublist_take | apply sort_desc_descending].
  - intros Hnd. eapply submseteq_NoDup; [| exact Hnd].
    change (map id_of_row (stage7 st)) with ((λ r, spotify_id (artist_of r)) <$> stage7 st).
    rewrite (list_fmap_compose artist_of spotify_id).
    by apply (fmap_submseteq spotify_id).
  - intros r Hr. rewrite H7 in Hr. apply list_elem_of_filter in Hr as [_ Hr].
    rewrite H6, merge_collabs_rows in Hr.
    apply list_elem_of_fmap in Hr as (rh & -> & Hrh).
    unfold genres_of, genre_count_of, id_of_row, artist_of. simpl.
    rewrite H5 in Hrh. apply elem_of_remove_all_outliers in Hrh.
    rewrite H4 in Hrh. apply elem_of_resort in Hrh.
    rewrite H3 in Hrh. apply list_elem_of_filter in Hrh as [_ Hrh].
    rewrite (merge_hits_rows _ _ _ Hgroup) in Hrh.
    apply list_elem_of_fmap in Hrh as (rc & -> & Hrc). simpl.
    rewrite H2 in Hrc. apply elem_of_apply_genre_mapping in Hrc as (Hg & _ & Hc).
    done.
Qed.

Lemma dataset_rows_witness :
  StronglySorted (descending popularity_of_row) (stage7 Sample.frames)
  ∧ NoDup (map id_of_row (stage7 Sample.frames)).
Proof.
  destruct (dataset_rows Sample.artists Sample.collaborations (stage7 Sample.frames))
    as (Hsorted & _ & Hnd & _); [reflexivity |].
  split; [exact Hsorted |]. apply Hnd.
  apply (bool_decide_unpack _). reflexivity.
Defined.

(** ** A malformed chart-hit list and the pipeline *)

Lemma insert_row_map {A B : Type} (f : A → B) (before : B → B → bool) (x : A) (l : list A) :
  insert_row before (f x) (map f l)
  = map f (insert_row (λ a b, before (f a) (f b)) x l).
Proof.
  induction l as [|y l IH]; simpl; [done |].
  destruct (before (f x) (f y)); simpl; [done | by rewrite IH].
Qed.

Lemma sort_rows_map {A B : Type} (f : A → B) (before : B → B → bool) (l : list A) :
  sort_rows before (map f l) = map f (sort_rows (λ a b, before (f a) (f b)) l).
Proof.
  unfold sort_rows. induction l as [|x l IH]; simpl; [done |].
  by rewrite IH, insert_row_map.
Qed.

Lemma sort_rows_ext {A : Type} (before before' : A → A → bool) (l : list A) :
  (∀ x y, before x y = before' x y) → sort_rows before l = sort_rows before' l.
Proof.
  intros Hext. unfold sort_rows. induction l as [|x l IH]; simpl; [done |].
  rewrite IH. clear IH. induction (foldr _ [] l) as [|y k IH]; simpl; [done |].
  by rewrite Hext, IH.
Qed.

(** [nlargest] does not look at what the key does not look at. *)
Lemma nlargest_map_key {A : Type} (f : A → A) (n : nat) (key : A → Z) (l : list A) :
  (∀ x, key (f x) = key x) →
  nlargest n key (map f l) = map f (nlargest n key l).
Proof.
  intros Hkey. unfold nlargest, sort_desc.
  rewrite sort_rows_map, <- fmap_take. f_equal. f_equal.
  apply sort_rows_ext. intros x y. by rewrite !Hkey.
Qed.

Lemma filter_map_pred {A B : Type} (f : A → B) (P : B → Prop) (Q : A → Prop)
    `{∀ y, Decision (P y)} `{∀ x, Decision (Q x)} (l : list A) :
  (∀ x, P (f x) ↔ Q x) → filter P (map f l) = map f (filter Q l).
Proof.
  intros HPQ. induction l as [|x l IH]; [done |]. rewrite map_cons.
  destruct (decide (Q x)) as [HQ | HQ].
  - rewrite !filter_cons_True by (done || by apply HPQ). by rewrite map_cons, IH.
  - rewrite !filter_cons_False by (done || by rewrite HPQ). done.
Qed.

Lemma without_chart_hits_fields (s : string) (a : artist) :
  spotify_id (without_chart_hits s a) = spotify_id a
  ∧ popularity (without_chart_hits s a) = popularity a
  ∧ genres (without_chart_hits s a) = genres a.
Proof.
  unfold without_chart_hits. destruct (chart_hits a) as [s' | |]; try done.
  by destruct (String.eqb s' s).
Qed.

Lemma apply_genre_mapping_without (s : string) (top_artists : list artist) :
  apply_genre_mapping (map (without_chart_hits s) top_artists)
  = map (classified_without s) (apply_genre_mapping top_artists).
Proof.
  unfold apply_genre_mapping. rewrite !map_map.
  rewrite (map_ext _ (λ a, (λ ag : artist * list string, (without_chart_hits s ag.1, ag.2))
                             (a, map_to_top_genres (GList (genres a)))))
    by (intros a; simpl; by destruct (without_chart_hits_fields s a) as (_ & _ & ->)).
  rewrite <- (map_map (λ a, (a, map_to_top_genres (GList (genres a))))
                      (λ ag : artist * list string, (without_chart_hits s ag.1, ag.2))).
  rewrite (filter_map_pred _ _ (λ ag : artist * list string, 0 < length ag.2))
    by done.
  by rewrite !map_map.
Qed.

Lemma merge_left_map {L R : Type} (key : L → string) (g : L → L)
    (right : list (string * R)) (left : list L) :
  (∀ x, key (g x) = key x) →
  merge_left key right (map g left)
  = map (λ rv, (g rv.1, rv.2)) (merge_left key right left).
Proof.
  intros Hkey. unfold merge_left. induction left as [|x left IH]; [done |].
  rewrite map_cons.
  change (flat_map ?f (?a :: ?l)) with (f a ++ flat_map f l). cbv beta.
  rewrite IH, map_app, Hkey. f_equal.
  destruct (filter (λ kv, kv.1 = key x) right); [done |].
  by rewrite map_map.
Qed.

(** The pipeline, stage after stage. *)
Lemma prepare_cleaned_data_unfold (nodes_df : list artist) (edges_df : list edge) :
  prepare_cleaned_data nodes_df edges_df
  = match nodes_df with
    | [] => Raise TypeError
    | _ =>
        let rows := apply_genre_mapping (nlargest 100 popularity nodes_df) in
        match process_chart_hits rows with
        | Ok (hits, _) =>
            match group_hits hits with
            | Ok grouped_hits =>
                Ok (remove_collab_outliers
                      (merge_collabs edges_df
                         (remove_all_outliers
                            (resort (dropna_hits (merge_hits grouped_hits rows))))))
            | Raise e => Raise e
            | Unmodelled => Unmodelled
            end
        | Raise e => Raise e
        | Unmodelled => Unmodelled
        end
    end.
Proof.
  unfold prepare_cleaned_data, run_stages, select_top.
  destruct nodes_df as [|a l]; [done |]. rewrite bind_Ok. cbv zeta.
  destruct (process_chart_hits _) as [[hits log] | |]; simpl; [| done..].
  by destruct (group_hits hits).
Qed.

Section Malformed.

Variables (s : string) (entries : list string) (bad : string).
Hypothesis Heval : literal_eval s = Ok entries.
Hypothesis Hin : bad ∈ entries.
Hypothesis Hbad : parse_entry bad = Raise ValueError.

Lemma malformed_list_result :
  expand_chart_hits (CStr s) = Ok ([], [ErrorProcessingChartHits ValueError]).
Proof.
  unfold expand_chart_hits.
  destruct (String.eqb_spec s "[]") as [-> | _].
  - vm_compute in Heval. injection Heval as <-. inversion Hin.
  - unfold expand_entries. rewrite Heval. simpl.
    by rewrite (for_each_raises parse_entry ValueError entries bad
                  (λ x _, parse_entry_cases x)).
Qed.

(** The artist contributes the hits of an artist without a list: none. *)
Lemma expand_row_without (row : classified) :
  fst <$> expand_row (classified_without s row) = fst <$> expand_row row.
Proof.
  unfold expand_row, classified_without, id_of_classified. cbn [base].
  destruct (without_chart_hits_fields s (base row)) as (-> & _ & _).
  unfold without_chart_hits.
  destruct (chart_hits (base row)) as [s' | x |] eqn:E; rewrite ?E; try done.
  destruct (String.eqb_spec s' s) as [-> | Hne]; [| by rewrite E].
  cbn [chart_hits]. by rewrite malformed_list_result.
Qed.

Lemma process_chart_hits_without (rows : list classified) :
  fst <$> process_chart_hits (map (classified_without s) rows)
  = fst <$> process_chart_hits rows.
Proof.
  induction rows as [|row rows IH]; [done |]. simpl.
  pose proof (expand_row_without row) as Hrow.
  destruct (expand_row (classified_without s row)) as [[hits1 log1] | e1 |],
           (expand_row row) as [[hits2 log2] | e2 |]; simpl in Hrow; try done.
  injection Hrow as ->. simpl.
  destruct (process_chart_hits (map (classified_without s) rows)) as [[h1 l1] | e1 |],
           (process_chart_hits rows) as [[h2 l2] | e2 |]; simpl in IH; try done.
  injection IH as ->. done.
Qed.

Lemma without_chart_hits_other (a : artist) :
  chart_hits a ≠ CStr s → without_chart_hits s a = a.
Proof.
  unfold without_chart_hits. destruct (chart_hits a) as [s' | |]; try done.
  destruct (String.eqb_spec s' s) as [-> | _]; done.
Qed.

Lemma merge_hits_without (grouped_hits : list (string * (Z * nat)))
    (rows : list classified) :
  merge_hits grouped_hits (map (classified_without s) rows)
  = map (hits_without s) (merge_hits grouped_hits rows).
Proof.
  unfold merge_hits.
  rewrite (merge_left_map id_of_classified (classified_without s))
    by (intros r; apply without_chart_hits_fields).
  rewrite forallb_map_compose, !map_map. done.
Qed.

Lemma dropna_hits_without (top_artists : list with_hits) :
  dropna_hits (map (hits_without s) top_artists)
  = map (hits_without s) (dropna_hits top_artists).
Proof. unfold dropna_hits. by apply filter_map_pred. Qed.

(** With distinct identifiers, a row that has an aggregate is not the row
    of an artist with the malformed list. *)
Lemma hits_without_joined (rows : list classified) (expanded_hits : list expanded_hit)
    (log : list log_entry) (grouped_hits : list (string * (Z * nat))) (w : with_hits) :
  NoDup (map id_of_classified rows) →
  process_chart_hits rows = Ok (expanded_hits, log) →
  group_hits expanded_hits = Ok grouped_hits →
  w ∈ dropna_hits (merge_hits grouped_hits rows) →
  hits_without s w = w.
Proof.
  intros Hnd Hproc Hgroup Hw. apply list_elem_of_filter in Hw as [[Htotal _] Hw].
  rewrite (merge_hits_rows _ _ _ Hgroup) in Hw.
  apply list_elem_of_fmap in Hw as (r & -> & Hr). simpl in Htotal.
  destruct (hits_of_own _ _ _ _ Hnd Hr Hproc) as (hs & lg & Hexp & Hown).
  assert (Hcell : chart_hits (base r) ≠ CStr s).
  { intros Hcell. rewrite Hcell, malformed_list_result in Hexp.
    injection Hexp as <- <-. unfold find_hits in Htotal. rewrite Hown in Htotal.
    simpl in Htotal. by destruct Htotal. }
  unfold hits_without, classified_without. simpl.
  rewrite (without_chart_hits_other _ Hcell). by destruct r.
Qed.

Lemma prepare_cleaned_data_without (nodes_df : list artist) (edges_df : list edge) :
  NoDup (map spotify_id nodes_df) →
  prepare_cleaned_data (map (without_chart_hits s) nodes_df) edges_df
  = prepare_cleaned_data nodes_df edges_df.
Proof.
  intros Hnd. rewrite !prepare_cleaned_data_unfold.
  destruct nodes_df as [|a l] eqn:E; [done |].
  change (map (without_chart_hits s) (a :: l))
    with (without_chart_hits s a :: map (without_chart_hits s) l).
  cbv iota. change (without_chart_hits s a :: map (without_chart_hits s) l)
    with (map (without_chart_hits s) (a :: l)).
  rewrite <- E in *. clear E. cbv zeta.
  rewrite nlargest_map_key by (intros x; apply without_chart_hits_fields).
  rewrite apply_genre_mapping_without.
  set (rows := apply_genre_mapping (nlargest 100 popularity nodes_df)).
  assert (Hrows : NoDup (map id_of_classified rows)).
  { eapply submseteq_NoDup; [| exact Hnd].
    change (map id_of_classified rows) with ((λ r, spotify_id (base r)) <$> rows).
    rewrite (list_fmap_compose base spotify_id).
    apply (fmap_submseteq spotify_id).
    etrans; [apply apply_genre_mapping_base | apply nlargest_submseteq]. }
  pose proof (process_chart_hits_without rows) as Hhits.
  destruct (process_chart_hits (map (classified_without s) rows)) as [[h1 l1] | e1 |],
           (process_chart_hits rows) as [[h2 l2] | e2 |] eqn:Hproc;
    simpl in Hhits; try done; [| congruence].
  injection Hhits as ->.
  destruct (group_hits h2) as [grouped_hits | |] eqn:Hgroup; try done.
  rewrite merge_hits_without, dropna_hits_without.
  rewrite (map_ext_in _ id), map_id; [done |].
  intros w Hw%list_elem_of_In. by eapply hits_without_joined.
Qed.

End Malformed.

(** C4, as the code has it.  When one entry of an artist's chart-hit list
    does not parse, the whole parse for that artist gives the empty list and
    one line is printed; the loop over the artists goes on, and the hits it
    collects from the artists before and after are the ones it collects
    without that artist.  From there on the artist is an artist without
    hits: with distinct identifiers in the node table, the pipeline returns
    or raises what it does when the cells holding that list are empty. *)
Theorem expand_chart_hits_malformed_entry (s : string) (entries : list string)
    (bad : string) :
  literal_eval s = Ok entries →
  bad ∈ entries →
  parse_entry bad = Raise ValueError →
  expand_chart_hits (CStr s) = Ok ([], [ErrorProcessingChartHits ValueError])
  ∧ (∀ (row : classified) (before after : list classified),
       chart_hits (base row) = CStr s →
       process_chart_hits (before ++ row :: after)
       = '(hits, printed) ← process_chart_hits before ;
         '(hits', printed') ← process_chart_hits after ;
         Ok (hits ++ hits', printed ++ ErrorProcessingChartHits ValueError :: printed'))
  ∧ (∀ (nodes_df : list artist) (edges_df : list edge),
       NoDup (map spotify_id nodes_df) →
       prepare_cleaned_data nodes_df edges_df
       = prepare_cleaned_data (map (without_chart_hits s) nodes_df) edges_df).
Proof.
  intros Heval Hin Hbad.
  pose proof (malformed_list_result s entries bad Heval Hin Hbad) as Hexp.
  split; [exact Hexp |]. split.
  - intros row before after Hrow.
    rewrite process_chart_hits_app. simpl.
    unfold expand_row. rewrite Hrow, Hexp. simpl.
    destruct (process_chart_hits before) as [[hits printed0] | |]; simpl; [| done..].
    by destruct (process_chart_hits after) as [[hits' printed'] | |].
  - intros nodes_df edges_df Hnd. symmetry.
    by apply (prepare_cleaned_data_without s entries bad).
Qed.

Lemma expand_chart_hits_malformed_entry_witness :
  expand_chart_hits (CStr "['us (1)', 'gb two']")
  = Ok ([], [ErrorProcessingChartHits ValueError]).
Proof.
  refine (proj1 (expand_chart_hits_malformed_entry
                   "['us (1)', 'gb two']" ["us (1)"; "gb two"] "gb two" _ _ _)).
  - reflexivity.
  - right; left.
  - reflexivity.
Defined.

(** C4 as stated fails: the rest of the pipeline is not unaffected.  With
    the second entry of Alice's list malformed, the dataset loses Alice; and
    when no other artist has a parsed hit the group-by raises, where the
    pipeline returns with the list well formed. *)
Lemma pipeline_after_malformed_entry :
  let malformed := Artist "A" "Alice" 1000 90 ["pop"] (CStr "['us (1)', 'gb two']") in
  let dave := Artist "D" "Dave" 10 50 ["jazz"] CNaN in
  map id_of_row <$> prepare_cleaned_data [Sample.alice; Sample.bob; Sample.carol]
                                         Sample.collaborations
  = Ok ["A"; "B"; "C"]
  ∧ map id_of_row <$> prepare_cleaned_data [malformed; Sample.bob; Sample.carol]
                                           Sample.collaborations
    = Ok ["B"; "C"]
  ∧ prepare_cleaned_data [Sample.alice; dave] Sample.collaborations = Ok []
  ∧ prepare_cleaned_data [malformed; dave] Sample.collaborations = Raise KeyError.
Proof. vm_compute. repeat split. Qed.

(** ** Stage 1 and the rankings *)

(** X1. Stage 1 raises [TypeError] on a node table without rows.  Of a
    table with rows it keeps [min 100 (number of rows)], by decreasing
    popularity; no row it leaves out is more popular than a row it keeps,
    and a table of at most 100 rows is kept whole. *)
Theorem select_top_rows (nodes_df : list artist) :
  select_top [] = Raise TypeError
  ∧ (nodes_df ≠ [] →
     ∃ top_artists,
       select_top nodes_df = Ok top_artists
       ∧ length top_artists = 100 `min` length nodes_df
       ∧ StronglySorted (descending popularity) top_artists
       ∧ (∃ rest, nodes_df ≡ₚ top_artists ++ rest
                  ∧ ∀ x y, x ∈ top_artists → y ∈ rest →
                           (popularity y ≤ popularity x)%Z)
       ∧ (length nodes_df ≤ 100 → top_artists ≡ₚ nodes_df)).
Proof.
  split; [done |]. intros Hne.
  exists (nlargest 100 popularity nodes_df).
  split; [by destruct nodes_df |].
  destruct (nlargest_rows 100 popularity nodes_df) as (Hlen & Hsorted & Hrest).
  repeat split; try done.
  intros Hsmall. unfold nlargest.
  rewrite take_ge by (by rewrite sort_desc_length).
  apply sort_desc_Permutation.
Qed.

Lemma select_top_rows_witness :
  ∃ top_artists, select_top Sample.artists = Ok top_artists
                 ∧ top_artists ≡ₚ Sample.artists.
Proof.
  destruct (select_top_rows Sample.artists) as [_ Hrows].
  destruct Hrows as (top_artists & Htop & _ & _ & _ & Hall); [discriminate |].
  exists top_artists. split; [exact Htop |]. apply Hall. vm_compute. lia.
Defined.

(** X14. The two bubble charts of [update_artist_rankings] show the same
    artists: the [min 20 (number of rows)] most popular rows of the dataset,
    by decreasing popularity, at the positions 0, 1, 2, ...; the colours of
    the first chart are their collaboration counts and those of the second
    their genre counts. *)
Theorem update_artist_rankings_top_20 (top_artists_df : list with_collabs) :
  ∃ top_20,
    top_20 ⊆+ top_artists_df
    ∧ length top_20 = 20 `min` length top_artists_df
    ∧ StronglySorted (descending popularity_of_row) top_20
    ∧ (∀ x y, x ∈ top_20 → y ∈ top_artists_df → y ∉ top_20 →
              (popularity_of_row y ≤ popularity_of_row x)%Z)
    ∧ update_artist_rankings top_artists_df
      = (Bubbles (length top_20) (seq 0 (length top_20))
                 (map collab_count top_20) (map name_of top_20),
         Bubbles (length top_20) (seq 0 (length top_20))
                 (map genre_count_of top_20) (map name_of top_20)).
Proof.
  exists (nlargest 20 popularity_of_row top_artists_df).
  destruct (nlargest_rows 20 popularity_of_row top_artists_df)
    as (Hlen & Hsorted & rest & Hperm & Hrest).
  split; [apply nlargest_submseteq |]. repeat split; try done.
  intros x y Hx Hy Hny. apply Hrest; [done |].
  rewrite Hperm in Hy. by apply elem_of_app in Hy as [Hy | Hy].
Qed.

(** ** [value_counts] and the collaboration table *)

Lemma sum_list_Permutation (l l' : list nat) : l ≡ₚ l' → sum_list l = sum_list l'.
Proof. induction 1; simpl; lia. Qed.

Lemma total_count_insert_fresh (m : gmap string nat) (x : string) (c : nat) :
  m !! x = None → total_count (<[ x := c ]> m) = c + total_count m.
Proof.
  intros Hx. unfold total_count.
  rewrite (sum_list_Permutation _ (map snd ((x, c) :: map_to_list m))); [done |].
  apply Permutation_map. by apply map_to_list_insert.
Qed.

Lemma total_count_bump (m : gmap string nat) (x : string) :
  total_count (<[ x := S (default 0 (m !! x)) ]> m) = S (total_count m).
Proof.
  destruct (m !! x) as [c |] eqn:Hx; simpl.
  - rewrite <- (insert_delete_id m x c Hx) at 2.
    rewrite <- (insert_delete_eq m x (S c)).
    rewrite !total_count_insert_fresh by apply lookup_delete_eq. lia.
  - by rewrite total_count_insert_fresh.
Qed.

Lemma count_values_snoc (l : list string) (x : string) :
  count_values (l ++ [x])
  = <[ x := S (default 0 (count_values l !! x)) ]> (count_values l).
Proof. unfold count_values. by rewrite foldl_app. Qed.

Lemma total_count_count_values (l : list string) : total_count (count_values l) = length l.
Proof.
  induction l as [|x l IH] using rev_ind; [done |].
  rewrite count_values_snoc, total_count_bump, IH, length_app. simpl. lia.
Qed.


(** X15. The collaboration table of stage 6 has one row per identifier
    that stands in an edge row, with the number of its appearances, never
    0, the largest counts first; the counts add up to twice the number of
    edge rows. *)
Theorem artist_collabs_table (edges_df : list edge) :
  NoDup (map fst (artist_collabs edges_df))
  ∧ (∀ id c, (id, c) ∈ artist_collabs edges_df
             ↔ c = appearances edges_df id ∧ 1 ≤ c)
  ∧ StronglySorted (descending (λ kv, Z.of_nat kv.2)) (artist_collabs edges_df)
  ∧ sum_list (map snd (artist_collabs edges_df)) = 2 * length edges_df.
Proof.
  unfold artist_collabs.
  set (column := map fst edges_df ++ map snd edges_df).
  pose proof (value_counts_Permutation column) as Hperm.
  assert (Hpos : ∀ id, id ∈ column ↔ 1 ≤ occurrences id column).
  { intros id. split.
    - intros Hin. unfold occurrences.
      destruct (filter (λ y, y = id) column) eqn:E; [| simpl; lia].
      assert (H : id ∈ filter (λ y, y = id) column) by (by apply list_elem_of_filter).
      rewrite E in H. inversion H.
    - intros Hocc. destruct (decide (id ∈ column)) as [|Hout]; [done |].
      apply occurrences_absent in Hout. lia. }
  split; [| split; [| split]].
  - change (map fst ?l) with (l.*1). rewrite Hperm. apply NoDup_fst_map_to_list.
  - intros id c. rewrite Hperm, elem_of_map_to_list, count_values_lookup_occurrences.
    rewrite <- appearances_occurrences. fold column.
    case_decide as Hin.
    + apply Hpos in Hin. split; [intros [= <-]; done | intros [-> _]; done].
    + split; [done |]. intros [-> Hc]. apply Hpos in Hc. done.
  - unfold value_counts. apply sort_desc_descending.
  - rewrite (sum_list_Permutation _ (map snd (map_to_list (count_values column))))
      by (by apply Permutation_map).
    fold (total_count (count_values column)).
    rewrite total_count_count_values. unfold column.
    rewrite length_app, !length_map. unfold edge. lia.
Qed.

(** ** Stage 7 on small and on constant frames *)

Lemma filter_all {A : Type} (P : A → Prop) `{∀ x, Decision (P x)} (l : list A) :
  (∀ x, x ∈ l → P x) → filter P l = l.
Proof.
  induction l as [|x l IH]; intros Hall; [done |].
  rewrite filter_cons_True by (apply Hall; left).
  f_equal. apply IH. intros y Hy. apply Hall. by right.
Qed.

Lemma filter_none {A : Type} (P : A → Prop) `{∀ x, Decision (P x)} (l : list A) :
  (∀ x, x ∈ l → ¬ P x) → filter P l = [].
Proof.
  induction l as [|x l IH]; intros Hall; [done |].
  rewrite filter_cons_False by (apply Hall; left).
  apply IH. intros y Hy. apply Hall. by right.
Qed.

Lemma sum_Q_constant (q : Q) (column : list Q) :
  Forall (λ x, x = q) column →
  (sum_Q column == q * inject_Z (Z.of_nat (length column)))%Q.
Proof.
  induction column as [|x l IH]; intros Hall; simpl length.
  - simpl. ring.
  - apply Forall_cons in Hall as [-> Hall].
    change (sum_Q (q :: l)) with (q + sum_Q l)%Q.
    rewrite (IH Hall), Nat2Z.inj_succ, <- Z.add_1_r, inject_Z_plus. ring.
Qed.

Lemma mean_constant (q : Q) (column : list Q) :
  column ≠ [] → Forall (λ x, x = q) column →
  ∃ m, mean column = Some m ∧ (m == q)%Q.
Proof.
  intros Hne Hall.
  exists (sum_Q column / inject_Z (Z.of_nat (length column)))%Q. split.
  - by destruct column.
  - rewrite (sum_Q_constant q column Hall). apply Qdiv_mult_l.
    destruct column as [|x l]; [done |]. simpl length. rewrite Nat2Z.inj_succ.
    intros Hz. unfold Qeq in Hz. simpl in Hz. lia.
Qed.

(** X16. The mean-and-deviation rule of stage 7 empties a frame of one
    row (the deviation of a single value is NaN, and no comparison with NaN
    holds), and keeps every row of a frame of two or more rows that all
    have the same collaboration count. *)
Theorem remove_collab_outliers_small_frames (df : list with_collabs) :
  (length df ≤ 1 → remove_collab_outliers df = [])
  ∧ (2 ≤ length df →
     (∀ r r', r ∈ df → r' ∈ df → collab_count r = collab_count r') →
     remove_collab_outliers df = df).
Proof.
  unfold remove_collab_outliers. split.
  - intros Hlen. destruct df as [|r [|r' df]]; [done | | simpl in Hlen; lia].
    apply filter_none. intros x _. simpl. tauto.
  - intros Hlen Hsame. destruct df as [|r0 [|r1 rest]] eqn:E; [simpl in Hlen; lia.. |].
    rewrite <- E in *.
    set (column := map collab_Q df).
    assert (Hconst : Forall (λ x, x = collab_Q r0) column).
    { apply Forall_forall. intros x Hx.
      apply list_elem_of_fmap in Hx as (r & -> & Hr). unfold collab_Q.
      rewrite (Hsame r r0); [done | done | rewrite E; left]. }
    destruct (mean_constant (collab_Q r0) column) as (m & Hm & Hmq); [| done |].
    { unfold column. rewrite E. done. }
    assert (Hv : ∃ v, variance column = Some v).
    { unfold variance. rewrite Hm. unfold column at 1. rewrite E. simpl. eauto. }
    destruct Hv as [v Hv]. rewrite Hm, Hv.
    apply filter_all. intros r Hr. simpl.
    assert (Hr0 : collab_Q r = collab_Q r0).
    { unfold collab_Q. rewrite (Hsame r r0); [done | done | rewrite E; left]. }
    rewrite Hr0. apply Is_true_true. unfold ge_mean_minus_2std, le_mean_plus_2std.
    assert (H1 : Qle_bool (m - collab_Q r0) 0 = true).
    { apply Qle_bool_iff. rewrite Hmq. ring_simplify. apply Qle_refl. }
    assert (H2 : Qle_bool (collab_Q r0 - m) 0 = true).
    { apply Qle_bool_iff. rewrite Hmq. ring_simplify. apply Qle_refl. }
    by rewrite H1, H2.
Qed.

Lemma remove_collab_outliers_small_frames_witness :
  remove_collab_outliers [WithCollabs Sample.alice_with_hits 3] = [].
Proof.
  apply (remove_collab_outliers_small_frames [WithCollabs Sample.alice_with_hits 3]).
  simpl. lia.
Defined.

(** ** [load_data] *)

Lemma load_artist_Ok (raw : raw_artist) (a : artist) :
  load_artist raw = Ok a ↔
  load_genres (raw_genres raw) = Ok (genres a)
  ∧ spotify_id a = raw_spotify_id raw ∧ name a = raw_name raw
  ∧ followers a = raw_followers raw ∧ popularity a = raw_popularity raw
  ∧ chart_hits a = raw_chart_hits raw.
Proof.
  unfold load_artist. destruct (load_genres (raw_genres raw)) as [g | e |]; simpl.
  - split.
    + intros [= <-]. done.
    + destruct a. simpl. intros ([= ->] & -> & -> & -> & -> & ->). done.
  - split; [done | intros [H _]; done].
  - split; [done | intros [H _]; done].
Qed.

(** X17. [load_data] converts the table as a whole or not at all: when it
    returns, the rows are the rows read, in order, with the [genres] cell
    evaluated and the other fields untouched; when the conversion of one
    cell raises, after cells that convert, the load raises the same
    exception and there is no table. *)
Theorem load_data_all_or_nothing (rows : list raw_artist) :
  (∀ artists, load_data rows = Ok artists →
     Forall2 (λ raw a, load_genres (raw_genres raw) = Ok (genres a)
                       ∧ spotify_id a = raw_spotify_id raw ∧ name a = raw_name raw
                       ∧ followers a = raw_followers raw
                       ∧ popularity a = raw_popularity raw
                       ∧ chart_hits a = raw_chart_hits raw) rows artists)
  ∧ (∀ before bad after e,
       rows = before ++ bad :: after →
       (∀ raw, raw ∈ before → ∃ g, load_genres (raw_genres raw) = Ok g) →
       load_genres (raw_genres bad) = Raise e →
       load_data rows = Raise e).
Proof.
  unfold load_data. split.
  - intros artists Hload. apply for_each_Ok_Forall2 in Hload.
    eapply Forall2_impl; [exact Hload |]. intros raw a. by apply load_artist_Ok.
  - intros before bad after e -> Hbefore Hbad. rewrite for_each_app.
    destruct (for_each_Ok_all load_artist before) as [loaded ->].
    { intros raw Hraw. destruct (Hbefore raw Hraw) as [g Hg].
      unfold load_artist. rewrite Hg, bind_Ok. eauto. }
    assert (Hraise : load_artist bad = Raise e)
      by (unfold load_artist; by rewrite Hbad).
    by rewrite bind_Ok, for_each_cons, Hraise.
Qed.

(** ** The classifier and the tags *)

Lemma elem_of_map_to_top_genres (tags : list string) (g : string) :
  g ∈ map_to_top_genres (GList tags)
  ↔ ∃ entry tag, entry ∈ top_genres ∧ entry.1 = g ∧ tag ∈ tags
                 ∧ any_sub entry.2 tag = true.
Proof.
  unfold map_to_top_genres, map_to_top_genres_with.
  by rewrite elem_of_elements, elem_of_mapped_genres.
Qed.

(** X18. The canonical genres of an artist depend on the set of the
    artist's tags only, not on their order or repetition; more tags never
    give fewer genres; no tag gives no genre, and no artist has more than
    ten. *)
Theorem map_to_top_genres_of_tag_set (tags tags' : list string) :
  ((∀ t, t ∈ tags → t ∈ tags') →
   ∀ g, g ∈ map_to_top_genres (GList tags) → g ∈ map_to_top_genres (GList tags'))
  ∧ ((∀ t, t ∈ tags ↔ t ∈ tags') →
     map_to_top_genres (GList tags) ≡ₚ map_to_top_genres (GList tags'))
  ∧ map_to_top_genres (GList []) = []
  ∧ length (map_to_top_genres (GList tags)) ≤ 10.
Proof.
  assert (Hmono : ∀ l l' : list string, (∀ t, t ∈ l → t ∈ l') →
            ∀ g, g ∈ map_to_top_genres (GList l) → g ∈ map_to_top_genres (GList l')).
  { intros l l' Hsub g. rewrite !elem_of_map_to_top_genres.
    intros (entry & tag & He & Hg & Ht & Hany). exists entry, tag. auto. }
  assert (Hnd : ∀ l, NoDup (map_to_top_genres (GList l))).
  { intros l. unfold map_to_top_genres, map_to_top_genres_with. apply NoDup_elements. }
  split; [apply Hmono |]. split; [| split].
  - intros Hsame. apply NoDup_Permutation; [apply Hnd.. |].
    intros g. split; apply Hmono; intros t; apply Hsame.
  - reflexivity.
  - change 10 with (length (map fst top_genres)).
    apply submseteq_length, NoDup_submseteq; [apply Hnd |].
    intros g (entry & tag & He & <- & _)%elem_of_map_to_top_genres.
    by apply list_elem_of_fmap_2.
Qed.

(** ** The country code of a parsed entry *)

Lemma split_cons (c : ascii) (s : string) :
  PyStr.split (String c s)
  = if PyStr.is_space c then PyStr.split s
    else match s with
         | EmptyString => [String c EmptyString]
         | String c' _ =>
             if PyStr.is_space c' then String c EmptyString :: PyStr.split s
             else match PyStr.split s with
                  | [] => [String c EmptyString]
                  | w :: ws => String c w :: ws
                  end
         end.
Proof. reflexivity. Qed.

Lemma clean_token_weaken (c : ascii) (s w : string) :
  clean_token s w → clean_token (String c s) w.
Proof.
  intros [Hne Hall]. split; [done |]. intros d Hd.
  destruct (Hall d Hd) as [Hsp Hin]. split; [done |]. by right.
Qed.

Lemma clean_token_single (c : ascii) (s : string) :
  PyStr.is_space c = false → clean_token (String c s) (String c EmptyString).
Proof.
  intros Hc. split; [done |]. intros d Hd.
  apply list_elem_of_singleton in Hd as ->. split; [done | left].
Qed.

Lemma clean_token_cons (c : ascii) (s w : string) :
  PyStr.is_space c = false → clean_token s w → clean_token (String c s) (String c w).
Proof.
  intros Hc [Hne Hall]. split; [done |]. intros d Hd.
  apply elem_of_cons in Hd as [-> | Hd]; [split; [done | left] |].
  destruct (Hall d Hd) as [Hsp Hin]. split; [done | by right].
Qed.

Lemma split_clean_tokens (s : string) : Forall (clean_token s) (PyStr.split s).
Proof.
  induction s as [|c s IH]; [constructor |].
  rewrite split_cons. destruct (PyStr.is_space c) eqn:Hc.
  - eapply Forall_impl; [exact IH |]. intros w. apply clean_token_weaken.
  - destruct s as [|c' s'].
    + constructor; [by apply clean_token_single | constructor].
    + destruct (PyStr.is_space c') eqn:Hc'.
      * constructor; [by apply clean_token_single |].
        eapply Forall_impl; [exact IH |]. intros w. apply clean_token_weaken.
      * destruct (PyStr.split (String c' s')) as [|w ws].
        -- constructor; [by apply clean_token_single | constructor].
        -- apply Forall_cons in IH as [Hw Hws].
           constructor; [by apply clean_token_cons |].
           eapply Forall_impl; [exact Hws |]. intros w'. apply clean_token_weaken.
Qed.

Lemma elem_of_chars_remove_char (c d : ascii) (s : string) :
  d ∈ chars (PyStr.remove_char c s) ↔ d ∈ chars s ∧ d ≠ c.
Proof.
  induction s as [|x s IH]; simpl.
  - split; [intros H; inversion H | intros [H _]; inversion H].
  - destruct (Ascii.eqb_spec x c) as [-> | Hne].
    + rewrite IH. unfold chars. simpl. rewrite elem_of_cons. split; [tauto |].
      intros [[-> | H] Hd]; done.
    + unfold chars in *. simpl. rewrite !elem_of_cons, IH. split.
      * intros [-> | [H Hd]]; [split; [by left | done] | split; [by right | done]].
      * intros [[-> | H] Hd]; [by left | by right].
Qed.

(** X19. The country code of a parsed entry is never empty; it is made of
    characters of the entry and holds no white space and no parenthesis. *)
Theorem parse_entry_country_code (entry : string) (h : hit) :
  parse_entry entry = Ok h →
  country_code h ≠ EmptyString
  ∧ ∀ c, c ∈ chars (country_code h) →
         c ∈ chars entry ∧ PyStr.is_space c = false ∧ c ≠ "("%char ∧ c ≠ ")"%char.
Proof.
  unfold parse_entry.
  set (s := PyStr.remove_char ")" (PyStr.remove_char "(" entry)).
  pose proof (split_clean_tokens s) as Htokens.
  destruct (PyStr.split s) as [|country [|number [|? ?]]]; try done.
  destruct (PyStr.int number) as [n |]; [| done].
  intros [= <-]. simpl.
  apply Forall_cons in Htokens as [[Hne Hall] _]. split; [done |].
  intros c Hc. destruct (Hall c Hc) as [Hsp Hin]. unfold s in Hin.
  apply elem_of_chars_remove_char in Hin as [Hin Hclose].
  apply elem_of_chars_remove_char in Hin as [Hin Hopen]. done.
Qed.

Lemma parse_entry_country_code_witness :
  country_code (Hit "us" 1) ≠ EmptyString.
Proof.
  apply (parse_entry_country_code "us (1)" (Hit "us" 1)). reflexivity.
Defined.

(** ** The string branch of [map_to_top_genres] *)

Module StripFacts.
Import PyStr ListLiteral.

Lemma all_chars_app (p : ascii → bool) (a b : string) :
  all_chars p (a +:+ b) = all_chars p a && all_chars p b.
Proof.
  induction a as [|c a IH]; [done |].
  rewrite append_cons. simpl. by rewrite IH, andb_assoc.
Qed.

Lemma all_chars_impl (p q : ascii → bool) (s : string) :
  (∀ c, p c = true → q c = true) → all_chars p s = true → all_chars q s = true.
Proof.
  intros Hpq. induction s as [|c s IH]; [done |]. simpl.
  intros [Hc Hs]%andb_prop. by rewrite (Hpq c Hc), IH.
Qed.

Lemma is_empty_snoc (x : string) (c : ascii) : is_empty (x +:+ String c EmptyString) = false.
Proof. by destruct x. Qed.

Lemma rstrip_cons (p : ascii → bool) (c : ascii) (s : string) :
  rstrip p (String c s)
  = if p c && is_empty (rstrip p s) then EmptyString else String c (rstrip p s).
Proof. reflexivity. Qed.

Lemma rstrip_keep_last (p : ascii → bool) (x : string) (c : ascii) :
  p c = false → rstrip p (x +:+ String c EmptyString) = x +:+ String c EmptyString.
Proof.
  intros Hc. induction x as [|d x IH].
  - rewrite append_nil, rstrip_cons, Hc. done.
  - rewrite append_cons, rstrip_cons, IH, is_empty_snoc, andb_false_r. done.
Qed.

Lemma rstrip_drop_last (p : ascii → bool) (x : string) (c : ascii) :
  p c = true → rstrip p (x +:+ String c EmptyString) = rstrip p x.
Proof.
  intros Hc. induction x as [|d x IH].
  - rewrite append_nil, rstrip_cons, Hc. done.
  - by rewrite append_cons, !rstrip_cons, IH.
Qed.

Lemma rstrip_clean (p : ascii → bool) (t : string) :
  all_chars (λ c, negb (p c)) t = true → rstrip p t = t.
Proof.
  induction t as [|c t IH]; [done |]. simpl.
  intros [Hc Ht]%andb_prop. apply negb_true_iff in Hc.
  by rewrite Hc, (IH Ht).
Qed.

Lemma lstrip_clean (p : ascii → bool) (t : string) :
  all_chars (λ c, negb (p c)) t = true → lstrip p t = t.
Proof.
  destruct t as [|c t]; [done |]. simpl.
  intros [Hc Ht]%andb_prop. apply negb_true_iff in Hc. by rewrite Hc.
Qed.

Lemma split_on_clean (sep : ascii) (a : string) :
  all_chars (λ c, negb (Ascii.eqb c sep)) a = true → split_on sep a = [a].
Proof.
  induction a as [|c a IH]; [done |]. simpl.
  intros [Hc Ha]%andb_prop. apply negb_true_iff in Hc.
  by rewrite Hc, (IH Ha).
Qed.

Lemma split_on_app (sep : ascii) (a b : string) :
  all_chars (λ c, negb (Ascii.eqb c sep)) a = true →
  split_on sep (a +:+ String sep b) = a :: split_on sep b.
Proof.
  induction a as [|c a IH].
  - intros _. rewrite append_nil. simpl. by rewrite Ascii.eqb_refl.
  - intros Hall. simpl in Hall. apply andb_prop in Hall as [Hc Ha].
    apply negb_true_iff in Hc.
    rewrite append_cons. simpl. by rewrite Hc, (IH Ha).
Qed.

Lemma simple_tag_no_quote (t : string) :
  simple_tag t = true → all_chars (λ c, negb (in_chars "'" c)) t = true.
Proof.
  apply all_chars_impl. intros c [[_ Hq]%andb_prop _]%andb_prop.
  simpl. by rewrite orb_false_r.
Qed.

Lemma simple_tag_no_comma (t : string) :
  simple_tag t = true → all_chars (λ c, negb (Ascii.eqb c ",")) t = true.
Proof. apply all_chars_impl. by intros c [_ Hc]%andb_prop. Qed.

Lemma quoted_no_comma (t : string) :
  simple_tag t = true → all_chars (λ c, negb (Ascii.eqb c ",")) (quoted t) = true.
Proof.
  intros Ht. unfold quoted. rewrite !all_chars_app, (simple_tag_no_comma t Ht). done.
Qed.

Lemma quoted_snoc (t : string) : quoted t = (String "'" t) +:+ String "'" EmptyString.
Proof. unfold quoted. by rewrite append_cons, append_nil. Qed.

Lemma quoted_cons (t : string) : quoted t = String "'" (t +:+ String "'" EmptyString).
Proof. unfold quoted. by rewrite append_cons, append_nil. Qed.

(** [g.strip().strip("'")] of a quoted tag, after a blank or not *)
Lemma strip_quoted (pre t : string) :
  pre = EmptyString ∨ pre = " " → simple_tag t = true →
  strip (in_chars "'") (strip is_space (pre +:+ quoted t)) = t.
Proof.
  intros Hpre Ht.
  assert (Hws : strip is_space (pre +:+ quoted t) = quoted t).
  { unfold strip.
    assert (Hl : lstrip is_space (pre +:+ quoted t) = quoted t).
    { destruct Hpre as [-> | ->]; rewrite ?append_cons, append_nil, quoted_cons; done. }
    rewrite Hl, quoted_snoc. by apply rstrip_keep_last. }
  rewrite Hws. unfold strip. rewrite quoted_cons.
  pose proof (simple_tag_no_quote t Ht) as Hq.
  change (lstrip (in_chars "'") (String "'" (t +:+ String "'" EmptyString)))
    with (lstrip (in_chars "'") (t +:+ String "'" EmptyString)).
  destruct t as [|c t]; [done |].
  rewrite append_cons.
  assert (Hc : in_chars "'" c = false).
  { simpl in Hq. apply andb_prop in Hq as [Hc _]. by apply negb_true_iff in Hc. }
  change (lstrip (in_chars "'") (String c (t +:+ String "'" EmptyString)))
    with (if in_chars "'" c then lstrip (in_chars "'") (t +:+ String "'" EmptyString)
          else String c (t +:+ String "'" EmptyString)).
  rewrite Hc, <- append_cons, rstrip_drop_last by done.
  by apply rstrip_clean.
Qed.

Lemma join_cons2 (sep a b : string) (l : list string) :
  join sep (a :: b :: l) = a +:+ sep +:+ join sep (b :: l).
Proof. reflexivity. Qed.

Lemma split_on_joined (l : list string) (pre t : string) :
  all_chars (λ c, negb (Ascii.eqb c ",")) pre = true →
  Forall (λ t, simple_tag t = true) (t :: l) →
  split_on "," (pre +:+ join ", " (map quoted (t :: l)))
  = (pre +:+ quoted t) :: map (λ t, " " +:+ quoted t) l.
Proof.
  revert pre t. induction l as [|t' l IH]; intros pre t Hpre Hall.
  - apply Forall_cons in Hall as [Ht _]. simpl map. simpl join.
    apply split_on_clean. by rewrite all_chars_app, Hpre, quoted_no_comma.
  - apply Forall_cons in Hall as [Ht Hall].
    rewrite !map_cons, join_cons2, <- !map_cons.
    change (", " +:+ join ", " (map quoted (t' :: l)))
      with (String "," (" " +:+ join ", " (map quoted (t' :: l)))).
    rewrite <- append_assoc, split_on_app
      by (by rewrite all_chars_app, Hpre, quoted_no_comma).
    by rewrite IH.
Qed.

Lemma joined_ends (l : list string) (t : string) :
  ∃ body, join ", " (map quoted (t :: l)) = String "'" body
          ∧ ∃ body', join ", " (map quoted (t :: l)) = body' +:+ String "'" EmptyString.
Proof.
  revert t. induction l as [|t' l IH]; intros t.
  - simpl. exists (t +:+ String "'" EmptyString). split; [apply quoted_cons |].
    exists (String "'" t). apply quoted_snoc.
  - rewrite !map_cons, join_cons2, <- !map_cons.
    destruct (IH t') as (b0 & _ & body' & Hb').
    eexists. split; [by rewrite (quoted_cons t), append_cons |].
    exists (quoted t +:+ ", " +:+ body'). by rewrite Hb', !append_assoc.
Qed.

Lemma genre_list_of_repr (l : list string) (t : string) :
  Forall (λ t, simple_tag t = true) (t :: l) →
  genre_list_of_str (repr (t :: l)) = t :: l.
Proof.
  intros Hall. unfold genre_list_of_str, repr.
  set (body := join ", " (map quoted (t :: l))).
  assert (Hstrip : strip (in_chars "[]") ("[" +:+ body +:+ "]") = body).
  { destruct (joined_ends l t) as (b & Hb & b' & Hb'). fold body in Hb, Hb'.
    unfold strip. rewrite append_cons, append_nil.
    assert (Hl : lstrip (in_chars "[]") (String "[" (body +:+ "]")) = body +:+ "]").
    { rewrite Hb, append_cons. done. }
    rewrite Hl, rstrip_drop_last by done.
    rewrite Hb'. by apply rstrip_keep_last. }
  rewrite Hstrip. unfold body. clear Hstrip body.
  rewrite <- (append_nil (join ", " (map quoted (t :: l)))), split_on_joined by done.
  rewrite map_cons, map_map.
  apply Forall_cons in Hall as [Ht Hall].
  rewrite strip_quoted by (done || by left). f_equal.
  induction Hall as [|t' l' Ht' _ IH]; [done |].
  rewrite map_cons, IH. f_equal. apply strip_quoted; [by right | done].
Qed.

End StripFacts.

(** X20. Given the text of a list of tags instead of the list (tags of
    printable characters with no quote, backslash or comma),
    [map_to_top_genres] takes the text apart into the same tags and returns
    the same genres; given a value that is neither a string nor a list it
    returns no genre. *)
Theorem map_to_top_genres_of_text (tags : list string) :
  Forall (λ t, simple_tag t = true) tags →
  map_to_top_genres (GStr (ListLiteral.repr tags)) = map_to_top_genres (GList tags)
  ∧ (tags ≠ [] → genre_list_of_str (ListLiteral.repr tags) = tags)
  ∧ map_to_top_genres GOther = [].
Proof.
  intros Hall. destruct tags as [|t l].
  - split; [vm_compute; reflexivity | split; done].
  - pose proof (StripFacts.genre_list_of_repr l t Hall) as Hlist.
    split; [| split; done].
    unfold map_to_top_genres, map_to_top_genres_with. by rewrite Hlist.
Qed.

Lemma map_to_top_genres_of_text_witness :
  map_to_top_genres (GStr "['k-pop', 'trap']") = map_to_top_genres (GList ["k-pop"; "trap"]).
Proof.
  apply (map_to_top_genres_of_text ["k-pop"; "trap"]).
  repeat constructor.
Defined.

(** ** The fence of a constant column *)

Lemma nth_constant (c : Z) (l : list Z) (i : nat) :
  Forall (λ x, x = c) l → nth i l c = c.
Proof.
  intros Hall. revert i. induction Hall as [|x l -> _ IH]; intros [|i]; simpl; auto.
Qed.

Lemma at_index_constant (c : Z) (l : list Z) (i : Z) :
  Forall (λ x, x = c) l → at_index l i c = c.
Proof. intros Hall. unfold at_index. by apply nth_constant. Qed.

(** The quantile of a constant column interpolates between two equal cells. *)
Lemma quantile_constant (q : spec_float) (c : Z) (col : list Z) :
  col ≠ [] → Forall (λ x, x = c) col →
  quantile q col = lerp c c (weight q (length col)).
Proof.
  intros Hne Hall. unfold quantile, weight.
  assert (Hperm : sort_asc col ≡ₚ col) by apply sort_rows_Permutation.
  assert (Hsorted : Forall (λ x, x = c) (sort_asc col)) by (by rewrite Hperm).
  rewrite <- (Permutation_length Hperm).
  destruct (sort_asc col) as [|x0 arr] eqn:E.
  { exfalso. apply Hne, Permutation_nil_r. by rewrite <- Hperm. }
  assert (Hx0 : x0 = c) by (by apply Forall_cons in Hsorted as [-> _]).
  subst x0.
  destruct (get_indexes _ _) as [previous_index next_index]. simpl fst.
  by rewrite !at_index_constant.
Qed.

(** For a frame of at most 100 rows the two weights are finite floats, and
    so is what is left of 1. *)
Lemma weights_finite (n : nat) :
  1 ≤ n ≤ 100 →
  finite_weight (weight (Float64.of_ratio 25 1000) n) = true
  ∧ finite_weight (weight (Float64.of_ratio 975 1000) n) = true.
Proof.
  intros Hn.
  assert (Hall : forallb (λ n, finite_weight (weight (Float64.of_ratio 25 1000) n)
                               && finite_weight (weight (Float64.of_ratio 975 1000) n))
                         (seq 1 100) = true) by (vm_compute; reflexivity).
  rewrite forallb_forall in Hall.
  apply andb_true_iff, Hall, in_seq. lia.
Qed.

Lemma mul_zero_finite (s : bool) (y : spec_float) :
  Float64.is_finite y = true → ∃ s', Float64.mul (S754_zero s) y = S754_zero s'.
Proof. destruct y; try done; simpl; eauto. Qed.

Lemma lerp_same_finite (c : Z) (t : spec_float) (s : bool) (m : positive) (e : Z) :
  Float64.of_Z c = S754_finite s m e → finite_weight t = true →
  lerp c c t = S754_finite s m e.
Proof.
  intros Hc [Ht Hu]%andb_true_iff. unfold lerp.
  rewrite Z.sub_diag. change (Float64.of_Z (wrap64 0)) with (S754_zero false).
  rewrite Hc.
  destruct (mul_zero_finite false t Ht) as [s1 ->].
  destruct (mul_zero_finite false _ Hu) as [s2 ->].
  by destruct (Float64.ge t (Float64.of_ratio 1 2)).
Qed.

Lemma lerp_same_zero (c : Z) (t : spec_float) (s : bool) :
  Float64.of_Z c = S754_zero s → finite_weight t = true →
  ∃ s', lerp c c t = S754_zero s'.
Proof.
  intros Hc [Ht Hu]%andb_true_iff. unfold lerp.
  rewrite Z.sub_diag. change (Float64.of_Z (wrap64 0)) with (S754_zero false).
  rewrite Hc.
  destruct (mul_zero_finite false t Ht) as [s1 ->].
  destruct (mul_zero_finite false _ Hu) as [s2 ->].
  destruct (Float64.ge t (Float64.of_ratio 1 2)); destruct s, s1, s2; simpl; eauto.
Qed.

Lemma sub_diag_finite (s : bool) (m : positive) (e : Z) :
  Float64.sub (S754_finite s m e) (S754_finite s m e) = S754_zero false.
Proof.
  unfold Float64.sub, SFsub. set (z := cond_Zopp s _).
  by replace (z - z)%Z with 0%Z by lia.
Qed.

Lemma SFcompare_refl_finite (s : bool) (m : positive) (e : Z) :
  SFcompare (S754_finite s m e) (S754_finite s m e) = Some Eq.
Proof.
  simpl. rewrite Z.compare_refl, Pos.compare_cont_refl. by destruct s.
Qed.

(** A cell that both quartiles are equal to lies within the fence. *)
Lemma within_fence_finite (v : Z) (s : bool) (m : positive) (e : Z) :
  Float64.of_Z v = S754_finite s m e →
  let Q := S754_finite s m e in
  let IQR := Float64.sub Q Q in
  within_bounds (Float64.sub Q (Float64.mul (Float64.of_ratio 3 2) IQR),
                 Float64.add Q (Float64.mul (Float64.of_ratio 3 2) IQR)) v = true.
Proof.
  intros Hv Q IQR. unfold within_bounds, IQR, Q. rewrite Hv, sub_diag_finite.
  change (Float64.mul (Float64.of_ratio 3 2) (S754_zero false)) with (S754_zero false).
  cbn [fst snd Float64.sub Float64.add SFsub SFadd].
  unfold Float64.ge, Float64.le, SFleb. by rewrite SFcompare_refl_finite.
Qed.

Lemma within_fence_zero (v : Z) (s s1 s3 : bool) :
  Float64.of_Z v = S754_zero s →
  let Q1 := S754_zero s1 in
  let Q3 := S754_zero s3 in
  let IQR := Float64.sub Q3 Q1 in
  within_bounds (Float64.sub Q1 (Float64.mul (Float64.of_ratio 3 2) IQR),
                 Float64.add Q3 (Float64.mul (Float64.of_ratio 3 2) IQR)) v = true.
Proof.
  intros Hv Q1 Q3 IQR. unfold within_bounds, IQR, Q1, Q3. rewrite Hv.
  by destruct s, s1, s3.
Qed.

(** Every 64-bit integer converts to a finite float: rounding to 53 bits
    shifts the mantissa by at most 11 places, far from the largest
    exponent. *)
Section FiniteConversion.
Local Open Scope Z_scope.

Lemma digits2_pos_bounds (p : positive) :
  2 ^ (Z.pos (digits2_pos p) - 1) ≤ Z.pos p < 2 ^ Z.pos (digits2_pos p).
Proof.
  induction p as [p IH | p IH |]; cbn [digits2_pos].
  - rewrite Pos2Z.inj_succ. replace (Z.succ (Z.pos (digits2_pos p)) - 1) with (Z.pos (digits2_pos p) - 1 + 1) by lia.
    rewrite Z.pow_succ_r by lia. rewrite Z.pow_add_r by lia. lia.
  - rewrite Pos2Z.inj_succ. replace (Z.succ (Z.pos (digits2_pos p)) - 1) with (Z.pos (digits2_pos p) - 1 + 1) by lia.
    rewrite Z.pow_succ_r by lia. rewrite Z.pow_add_r by lia. lia.
  - simpl. lia.
Qed.

Lemma Zdigits2_le (m : Z) (d : Z) : 0 ≤ d → 0 ≤ m < 2 ^ d → 0 ≤ Zdigits2 m ≤ d.
Proof.
  intros Hd [Hlo Hhi]. destruct m as [|p|p]; simpl; [lia | | lia].
  pose proof (digits2_pos_bounds p) as [Hp _].
  split; [lia |].
  destruct (Z_lt_le_dec d (Z.pos (digits2_pos p))) as [Hlt | Hle]; [| done].
  exfalso. assert (2 ^ d ≤ 2 ^ (Z.pos (digits2_pos p) - 1)) by (apply Z.pow_le_mono_r; lia).
  lia.
Qed.

Lemma iter_pos_invariant {A} (P : A → Prop) (f : A → A) :
  (∀ x, P x → P (f x)) → ∀ p x, P x → P (SpecFloat.iter_pos f p x).
Proof.
  intros Hf p. induction p as [p IH | p IH |]; intros x Hx; cbn [SpecFloat.iter_pos]; auto.
Qed.

Lemma shr_1_bounds (hi : Z) (mrs : shr_record) :
  0 ≤ shr_m mrs ≤ hi → 0 ≤ shr_m (shr_1 mrs) ≤ hi.
Proof.
  destruct mrs as [m r s]. cbn [shr_m]. intros Hm.
  destruct m as [| [p | p |] | [p | p |]]; cbn [shr_1 shr_m]; lia.
Qed.

Lemma shr_fexp_bounds (m e : Z) (l : location) :
  0 ≤ m →
  0 ≤ shr_m (shr_fexp 53 1024 m e l).1 ≤ m
  ∧ (shr_fexp 53 1024 m e l).2 ≤ Z.max e (fexp 53 1024 (Zdigits2 m + e)).
Proof.
  intros Hm. unfold shr_fexp, shr.
  assert (Hrec : shr_m (shr_record_of_loc m l) = m)
    by (destruct l as [| []]; reflexivity).
  destruct (fexp 53 1024 (Zdigits2 m + e) - e) as [| p | p] eqn:Hn; cbn [fst snd].
  - rewrite Hrec. lia.
  - split; [| lia].
    apply (iter_pos_invariant (λ mrs, 0 ≤ shr_m mrs ≤ m)).
    + intros x. apply shr_1_bounds.
    + rewrite Hrec. lia.
  - rewrite Hrec. lia.
Qed.

Lemma round_nearest_even_bounds (m : Z) (l : location) :
  m ≤ round_nearest_even m l ≤ m + 1.
Proof.
  unfold round_nearest_even. destruct l as [| []]; try lia.
  destruct (Z.even m); lia.
Qed.

Lemma fexp_le (x : Z) : fexp 53 1024 x ≤ Z.max (x - 53) (- 1074).
Proof. unfold fexp, emin. lia. Qed.

Lemma binary_round_aux_finite (sx : bool) (m e : Z) :
  0 ≤ m < 2 ^ 200 → e ≤ 0 →
  Float64.is_finite (binary_round_aux 53 1024 sx m e loc_Exact) = true.
Proof.
  intros [Hm0 Hm] He. unfold binary_round_aux.
  pose proof (shr_fexp_bounds m e loc_Exact Hm0) as [Hm1 He1].
  destruct (shr_fexp 53 1024 m e loc_Exact) as [mrs1 e1]. cbn [fst snd] in Hm1, He1.
  pose proof (round_nearest_even_bounds (shr_m mrs1) (loc_of_shr_record mrs1)) as Hr.
  set (m2 := round_nearest_even _ _) in *.
  assert (Hm2 : 0 ≤ m2) by lia.
  pose proof (shr_fexp_bounds m2 e1 loc_Exact Hm2) as [Hm3 He3].
  destruct (shr_fexp 53 1024 m2 e1 loc_Exact) as [mrs2 e2]. cbn [fst snd] in Hm3, He3.
  assert (Hd : 0 ≤ Zdigits2 m ≤ 200) by (apply Zdigits2_le; lia).
  assert (Hd2 : 0 ≤ Zdigits2 m2 ≤ 201).
  { apply Zdigits2_le; [lia |]. split; [lia |].
    replace 201 with (200 + 1) by lia. rewrite Z.pow_add_r by lia. lia. }
  pose proof (fexp_le (Zdigits2 m + e)). pose proof (fexp_le (Zdigits2 m2 + e1)).
  destruct (shr_m mrs2) as [| p | p] eqn:Hp; [done | | lia].
  destruct (Z.leb_spec e2 (1024 - 53)); [done | lia].
Qed.

Lemma iter_xO (d m : positive) : Z.pos (Pos.iter xO m d) = Z.pos m * 2 ^ Z.pos d.
Proof.
  revert m. induction d as [| d IH] using Pos.peano_ind; intros m.
  - simpl. lia.
  - rewrite Pos.iter_succ, Pos2Z.inj_succ, Z.pow_succ_r by lia.
    rewrite Pos2Z.inj_xO, IH. lia.
Qed.

Lemma of_Z_finite (z : Z) :
  is_int64 z = true → Float64.is_finite (Float64.of_Z z) = true.
Proof.
  unfold is_int64. intros [Hlo%Z.leb_le Hhi%Z.ltb_lt]%andb_true_iff.
  unfold Float64.of_Z, binary_normalize.
  assert (Hround : ∀ sx p, Z.pos p ≤ 2 ^ 63 →
    Float64.is_finite (binary_round Float64.prec Float64.emax sx p 0) = true).
  { intros sx p Hp. unfold binary_round, shl_align.
    set (ex' := fexp _ _ _).
    assert (Hex : - 52 ≤ ex').
    { unfold ex', fexp, emin, Float64.prec.
      assert (0 < Z.pos (digits2_pos p)) by lia. lia. }
    assert (Hbig : 2 ^ 63 * 2 ^ 52 < 2 ^ 200)
      by (rewrite <- Z.pow_add_r by lia; apply Z.pow_lt_mono_r; lia).
    assert (H52 : 0 < 2 ^ 52) by (apply Z.pow_pos_nonneg; lia).
    destruct (ex' - 0) as [| d | d] eqn:Hd.
    - apply binary_round_aux_finite; [nia | lia].
    - apply binary_round_aux_finite; [nia | lia].
    - apply binary_round_aux_finite; [| lia].
      split; [lia |]. rewrite iter_xO.
      assert (0 < 2 ^ Z.pos d ≤ 2 ^ 52)
        by (split; [apply Z.pow_pos_nonneg; lia | apply Z.pow_le_mono_r; lia]).
      nia. }
  destruct z as [| p | p]; [done | |]; apply Hround; lia.
Qed.

End FiniteConversion.

(** X21. When every row has the same value in a column, the removal for
    that column removes no row of a frame of at most 100 rows, which is
    what stage 5 receives: both quartiles are that value, as a float, and
    the fence closes on it.  The cells are 64-bit integers, as the cells of
    an integer column are. *)
Theorem remove_outliers_constant_column (column : with_hits → Z)
    (top_artists : list with_hits) :
  length top_artists ≤ 100 →
  (∀ r, r ∈ top_artists → is_int64 (column r) = true) →
  (∀ r r', r ∈ top_artists → r' ∈ top_artists → column r = column r') →
  remove_outliers column top_artists = top_artists.
Proof.
  intros Hlen Hfinite Hsame. destruct top_artists as [|r0 rest] eqn:E; [done |].
  rewrite <- E in *. unfold remove_outliers.
  set (col := map column top_artists).
  assert (Hconst : Forall (λ x, x = column r0) col).
  { apply Forall_forall. intros x Hx.
    apply list_elem_of_fmap in Hx as (r & -> & Hr).
    apply Hsame; [done | rewrite E; left]. }
  assert (Hne : col ≠ []) by (unfold col; by rewrite E).
  assert (Hn : 1 ≤ length col ≤ 100).
  { unfold col. rewrite length_map. split; [rewrite E; simpl; lia | done]. }
  destruct (weights_finite (length col) Hn) as [Hw1 Hw3].
  assert (Hr0 : Float64.is_finite (Float64.of_Z (column r0)) = true)
    by (apply of_Z_finite, Hfinite; rewrite E; left).
  apply filter_all. intros r Hr.
  rewrite (Hsame r r0) by (done || (rewrite E; left)).
  apply Is_true_true. unfold tukey_bounds.
  rewrite !(quantile_constant _ (column r0) col Hne Hconst).
  destruct (Float64.of_Z (column r0)) as [s | s | | s m e] eqn:Hc; try done.
  - destruct (lerp_same_zero _ _ _ Hc Hw1) as [s1 ->].
    destruct (lerp_same_zero _ _ _ Hc Hw3) as [s3 ->].
    by apply (within_fence_zero _ s).
  - rewrite (lerp_same_finite _ _ _ _ _ Hc Hw1), (lerp_same_finite _ _ _ _ _ Hc Hw3).
    by apply within_fence_finite.
Qed.

Lemma remove_outliers_constant_column_witness :
  remove_outliers followers_of [Sample.alice_with_hits; Sample.alice_with_hits]
  = [Sample.alice_with_hits; Sample.alice_with_hits].
Proof.
  apply (remove_outliers_constant_column followers_of
           [Sample.alice_with_hits; Sample.alice_with_hits]).
  - simpl. lia.
  - intros r Hr.
    apply elem_of_cons in Hr as [-> | Hr]; [| apply list_elem_of_singleton in Hr as ->];
      reflexivity.
  - intros r r' Hr Hr'.
    apply elem_of_cons in Hr as [-> | Hr]; [| apply list_elem_of_singleton in Hr as ->];
      (apply elem_of_cons in Hr' as [-> | Hr'];
         [| apply list_elem_of_singleton in Hr' as ->]); reflexivity.
Defined.

(** ** The genre filter of [update_network] and the classifier *)

Lemma top_genres_keys_NoDup : NoDup (top_genres.*1).
Proof. apply (bool_decide_unpack _). vm_compute. reflexivity. Qed.

Lemma dict_get_top_genres (g : string) (subs : list string) :
  dict_get top_genres g = Ok subs ↔ (g, subs) ∈ top_genres.
Proof.
  unfold dict_get. split.
  - destruct (filter (λ kv, kv.1 = g) top_genres) as [|[k v] rest] eqn:E; [done |].
    intros [= <-].
    assert (Hin : (k, v) ∈ filter (λ kv : string * list string, kv.1 = g) top_genres)
      by (rewrite E; left).
    apply list_elem_of_filter in Hin as [Hk Hin]. simpl in Hk. by subst.
  - intros Hin.
    by rewrite (filter_key_present top_genres g subs top_genres_keys_NoDup Hin).
Qed.

Lemma matches_selected_true (x : list string) (g : string) (b : bool) :
  matches_selected x g = Ok b →
  b = true ↔ g ∈ map_to_top_genres (GList x).
Proof.
  unfold matches_selected. destruct x as [|tag0 x'] eqn:E.
  - intros [= <-]. split; [done |]. intros Hg.
    apply elem_of_map_to_top_genres in Hg as (_ & tag & _ & _ & Htag & _).
    inversion Htag.
  - rewrite <- E. clear E.
    destruct (dict_get top_genres g) as [subs | |] eqn:Hget; [rewrite bind_Ok | done..].
    intros [= <-]. apply dict_get_top_genres in Hget.
    rewrite elem_of_map_to_top_genres, existsb_exists. split.
    + intros (tag & Htag%list_elem_of_In & Hany). by exists (g, subs), tag.
    + intros ([g' subs'] & tag & He & Hg & Htag & Hany). simpl in *. subst g'.
      assert (subs' = subs).
      { pose proof (filter_key_present top_genres g subs top_genres_keys_NoDup Hget) as H1.
        pose proof (filter_key_present top_genres g subs' top_genres_keys_NoDup He) as H2.
        rewrite H1 in H2. by injection H2. }
      subst. exists tag. split; [by apply list_elem_of_In | done].
Qed.

Lemma matches_any_selected_true (selected_genres x : list string) (b : bool) :
  matches_any_selected selected_genres x = Ok b →
  b = true ↔ ∃ g, g ∈ selected_genres ∧ g ∈ map_to_top_genres (GList x).
Proof.
  revert b. induction selected_genres as [|g gs IH]; intros b; simpl.
  - intros [= <-]. split; [done | intros (g & Hg & _); inversion Hg].
  - destruct (matches_selected x g) as [found | |] eqn:Hm; simpl; [| done..].
    pose proof (matches_selected_true x g found Hm) as Hfound.
    destruct found.
    + intros [= <-]. split; [| done]. intros _. exists g. split; [left | by apply Hfound].
    + intros Hrest. rewrite (IH b Hrest). split.
      * intros (g' & Hg' & Hin). exists g'. split; [by right | done].
      * intros (g' & Hg' & Hin). apply elem_of_cons in Hg' as [-> | Hg'].
        -- apply Hfound in Hin. done.
        -- by exists g'.
Qed.

(** X22. The identifiers the 2D [update_network] keeps are those of the
    rows whose popularity lies in the range asked for and, when genres are
    selected, whose tags the classifier maps to one of the selected genres:
    the filter of the network view and the genre mapping of the dataset
    agree. *)
Theorem filtered_artists_by_genre (self : app) (min_pop max_pop : Z)
    (selected_genres : list string) (kept : list string) :
  filtered_artists self min_pop max_pop selected_genres = Ok kept →
  ∀ id, id ∈ kept ↔
        ∃ r, r ∈ nodes_df self ∧ spotify_id r = id
             ∧ (min_pop ≤ popularity r)%Z ∧ (popularity r ≤ max_pop)%Z
             ∧ (selected_genres = []
                ∨ ∃ g, g ∈ selected_genres
                       ∧ g ∈ map_to_top_genres (GList (genres r))).
Proof.
  unfold filtered_artists.
  set (in_range := filter _ (nodes_df self)).
  assert (Hrange : ∀ r, r ∈ in_range ↔
            ((min_pop ≤ popularity r)%Z ∧ (popularity r ≤ max_pop)%Z) ∧ r ∈ nodes_df self).
  { intros r. unfold in_range. by rewrite list_elem_of_filter. }
  destruct selected_genres as [|g0 gs] eqn:E.
  - intros [= <-] id. rewrite list_elem_of_fmap. split.
    + intros (r & -> & Hr). apply Hrange in Hr. exists r. tauto.
    + intros (r & Hr & Hid & Hlo & Hhi & _). exists r. split; [done |].
      apply Hrange. tauto.
  - rewrite <- E. assert (Hne : selected_genres ≠ []) by (by rewrite E). clear E.
    set (f := λ r : artist, found ← matches_any_selected selected_genres (genres r) ;
                            Ok (r, found)).
    destruct (decide (in_range = [])) as [Hnil | Hsome]; [by rewrite Hnil |].
    assert (Hbranch : match in_range with
                      | [] => Raise KeyError
                      | _ :: _ =>
                          flagged ← for_each f in_range ;
                          Ok (map (λ rf, spotify_id rf.1)
                                  (filter (λ rf : artist * bool, rf.2 = true) flagged))
                      end
                      = (flagged ← for_each f in_range ;
                         Ok (map (λ rf, spotify_id rf.1)
                                 (filter (λ rf : artist * bool, rf.2 = true) flagged))))
      by (by destruct in_range).
    rewrite Hbranch. clear Hbranch.
    destruct (for_each f in_range) as [flagged | |] eqn:Hflagged; simpl; [| done..].
    intros [= <-] id. apply for_each_Ok_Forall2 in Hflagged.
    assert (Hf : ∀ r rf, f r = Ok rf →
              rf.1 = r ∧ (rf.2 = true ↔ ∃ g, g ∈ selected_genres
                                         ∧ g ∈ map_to_top_genres (GList (genres r)))).
    { intros r rf. unfold f.
      destruct (matches_any_selected selected_genres (genres r)) as [b | |] eqn:Hb;
        simpl; [| done..].
      intros [= <-]. split; [done |]. by apply matches_any_selected_true. }
    rewrite list_elem_of_fmap. split.
    + intros ([r b] & -> & Hrf). apply list_elem_of_filter in Hrf as [Hb Hrf].
      destruct (Forall2_elem_of_r _ _ _ _ Hflagged Hrf) as (r0 & Hr0 & Hfr).
      apply Hf in Hfr as [Heq Hgen]. simpl in Heq, Hb. subst r0.
      apply Hrange in Hr0. exists r.
      split; [tauto |]. split; [done |]. split; [tauto |]. split; [tauto |].
      right. by apply Hgen.
    + intros (r & Hr & Hid & Hlo & Hhi & [Hnil | Hgen]); [done |].
      assert (Hin : r ∈ in_range) by (apply Hrange; tauto).
      clear -Hflagged Hin Hf Hgen Hid.
      induction Hflagged as [|r0 rf rows flagged Hfr _ IH]; [inversion Hin |].
      apply elem_of_cons in Hin as [-> | Hin].
      * apply Hf in Hfr as [Heq Hb]. exists rf. split; [by rewrite Heq |].
        apply list_elem_of_filter. split; [by apply Hb | left].
      * destruct (IH Hin) as (rf' & Hrf' & Hin'). exists rf'. split; [done |].
        apply list_elem_of_filter in Hin' as [Hb' Hin'].
        apply list_elem_of_filter. split; [done | by right].
Qed.

Lemma filtered_artists_by_genre_witness :
  "B" ∈ ["A"; "B"].
Proof.
  apply (filtered_artists_by_genre
           (setup_network Sample.artists Sample.collaborations) 75 100 ["hip-hop"; "pop"]
           ["A"; "B"]).
  - reflexivity.
  - exists Sample.bob. split; [right; left |]. split; [reflexivity |].
    split; [apply (bool_decide_unpack _); reflexivity |].
    split; [apply (bool_decide_unpack _); reflexivity |].
    right. exists "hip-hop". split; [left |].
    apply (bool_decide_unpack _). vm_compute. reflexivity.
Defined.
